(** * The trimmer: pruning a workflow graph against its DataSink outputs

    A shallow embedding of [CPAC/utils/trimmer.py] ([list_files] and
    [the_trimmer]) together with the properties its specification states.

    The module runs on Python 3 (the package uses f-strings) against the
    networkx 1.x API ([execgraph.edge], list-returning [successors]).  The
    embedding follows those semantics:
    - a Python exception is a value [Raise e] of the [result] type;
    - a [dict] is an association list in insertion order;
    - iterating [d.items()] while [d] changes size raises [RuntimeError];
    - a networkx [DiGraph] is a list of nodes and a list of edges, both in
      insertion order, each edge carrying its ['connect'] list. *)

From Stdlib Require Import List String Ascii Bool Arith PeanoNat Lia.
Import ListNotations.

Set Implicit Arguments.

(** ** Exceptions and the error monad *)

Inductive exn : Type :=
| RuntimeError (msg : string)
| NetworkXError (msg : string)
| KeyError (msg : string)
| RecursionError
| AttributeError (msg : string)
| BackendFault (msg : string).

Inductive result (A : Type) : Type :=
| Ok (a : A)
| Raise (e : exn).

Arguments Ok {A} a.
Arguments Raise {A} e.

Definition bind {A B : Type} (m : result A) (k : A -> result B) : result B :=
  match m with
  | Ok a => k a
  | Raise e => Raise e
  end.

Notation "x <- m ;; k" := (bind m (fun x => k))
  (at level 61, m at next level, right associativity).
Notation "' pat <- m ;; k" := (bind m (fun x => match x with pat => k end))
  (at level 61, pat pattern, m at next level, right associativity).

(** [for x in xs: body], threading the loop state and stopping at the first
    exception. *)
Fixpoint for_each {A S : Type} (xs : list A) (body : A -> S -> result S)
  (s : S) : result S :=
  match xs with
  | [] => Ok s
  | x :: xs' => s' <- body x s ;; for_each xs' body s'
  end.

(** ** Strings *)

Module Str.

Definition startswith (p s : string) : bool := String.prefix p s.

(** [s[n:]] *)
Fixpoint drop (n : nat) (s : string) : string :=
  match n, s with
  | O, _ => s
  | S _, EmptyString => EmptyString
  | S n', String _ s' => drop n' s'
  end.

(** ['sep'.join(xs)] *)
Definition join (sep : string) (xs : list string) : string :=
  String.concat sep xs.

(** [s.split(c)] for a one-character separator: the pieces between the
    occurrences of [c]; always at least one piece. *)
Fixpoint split (c : ascii) (s : string) : list string :=
  match s with
  | EmptyString => [EmptyString]
  | String a s' =>
      if Ascii.eqb a c then EmptyString :: split c s'
      else match split c s' with
           | [] => [String a EmptyString]
           | p :: ps => String a p :: ps
           end
  end.

End Str.

(** ** Python dictionaries, in insertion order *)

Module PyDict.

Abbreviation t K V := (list (K * V)) (only parsing).

Section Dict.
Variables K V : Type.
Variable eqb : K -> K -> bool.

(** [d.get(k)] *)
Fixpoint get (k : K) (d : t K V) : option V :=
  match d with
  | [] => None
  | (k', v) :: d' => if eqb k k' then Some v else get k d'
  end.

(** [k in d] *)
Definition contains (k : K) (d : t K V) : bool :=
  match get k d with Some _ => true | None => false end.

(** [d[k] = v]: an existing key keeps its position, a new one goes last. *)
Fixpoint set (k : K) (v : V) (d : t K V) : t K V :=
  match d with
  | [] => [(k, v)]
  | (k', v') :: d' =>
      if eqb k k' then (k', v) :: d' else (k', v') :: set k v d'
  end.

(** [del d[k]] (for a key that is present). *)
Fixpoint del (k : K) (d : t K V) : t K V :=
  match d with
  | [] => []
  | (k', v') :: d' => if eqb k k' then d' else (k', v') :: del k d'
  end.

Definition keys (d : t K V) : list K := map fst d.

End Dict.
End PyDict.

(** ** Nodes

    A nipype node object.  [uid] stands for the identity of the Python
    object: dictionaries and graphs key nodes by identity, and two distinct
    objects never share a [uid]. *)

Inductive node_class : Type := Node | MapNode | JoinNode.

Inductive interface : Type :=
| DataSink (base_directory container : string)
| CheckForS3 (file_path : string) (img_type : string)
    (creds_path : option string)
| OtherInterface (class_name : string).

Record node : Type := mkNode {
  uid : nat;
  name : string;
  hierarchy : string;
  cls : node_class;
  iface : interface;
  parameterization : list string
}.

Definition node_class_eq_dec (a b : node_class) : {a = b} + {a <> b}.
Proof. decide equality. Defined.

Definition interface_eq_dec (a b : interface) : {a = b} + {a <> b}.
Proof.
  decide equality; try apply string_dec.
  decide equality; apply string_dec.
Defined.

Definition node_eq_dec (a b : node) : {a = b} + {a <> b}.
Proof.
  decide equality.
  - apply (list_eq_dec string_dec).
  - apply interface_eq_dec.
  - apply node_class_eq_dec.
  - apply string_dec.
  - apply string_dec.
  - apply Nat.eq_dec.
Defined.

Definition node_eqb (a b : node) : bool :=
  if node_eq_dec a b then true else false.

(** [type(n).__name__ == 'Node' and type(n.interface).__name__ == 'DataSink'] *)
Definition is_datasink (n : node) : bool :=
  match cls n, iface n with
  | Node, DataSink _ _ => true
  | _, _ => false
  end.

(** [n.interface.inputs.base_directory] and [.container]; only read on
    nodes that passed [is_datasink]. *)
Definition base_directory (n : node) : string :=
  match iface n with DataSink b _ => b | _ => EmptyString end.

Definition container_of (n : node) : string :=
  match iface n with DataSink _ c => c | _ => EmptyString end.

(** ** Execution graphs (networkx 1.x [DiGraph])

    An edge is [(src, dst, connect)], where [connect] is the list of field
    mappings [(src_field, dst_field)] stored under the ['connect'] key of
    the edge data.  On an edge into a DataSink the destination field is the
    derivative name. *)

Definition connection : Type := (string * string)%type.
Definition edge : Type := (node * node * list connection)%type.

Record digraph : Type := mkGraph {
  nodes : list node;
  edges : list edge
}.

Definition e_src (e : edge) : node := fst (fst e).
Definition e_dst (e : edge) : node := snd (fst e).
Definition e_connect (e : edge) : list connection := snd e.

Definition has_node (g : digraph) (n : node) : bool :=
  existsb (node_eqb n) (nodes g).

(** [g.in_edges(n)]: the pairs [(pred, n)]. *)
Definition in_edges (g : digraph) (n : node) : list (node * node) :=
  map fst (filter (fun e => node_eqb (e_dst e) n) (edges g)).

(** [g.out_edges(n)]: the pairs [(n, succ)]. *)
Definition out_edges (g : digraph) (n : node) : list (node * node) :=
  map fst (filter (fun e => node_eqb (e_src e) n) (edges g)).

(** [g.get_edge_data(u, v)['connect']].  The trimmer only looks up edges it
    has just enumerated; for an absent edge the list is empty. *)
Fixpoint connect_of (es : list edge) (u v : node) : list connection :=
  match es with
  | [] => []
  | e :: es' =>
      if node_eqb (e_src e) u && node_eqb (e_dst e) v then e_connect e
      else connect_of es' u v
  end.

Definition get_edge_data (g : digraph) (u v : node) : list connection :=
  connect_of (edges g) u v.

(** [g.successors(n)]: a list; raises on a node that is not in the graph. *)
Definition successors (g : digraph) (n : node) : result (list node) :=
  if has_node g n then Ok (map snd (out_edges g n))
  else Raise (NetworkXError "The node is not in the digraph.").

(** [g.remove_node(n)]: removes the node and every incident edge; raises on
    a node that is not in the graph. *)
Definition remove_node (g : digraph) (n : node) : result digraph :=
  if has_node g n then
    Ok (mkGraph
          (filter (fun m => negb (node_eqb m n)) (nodes g))
          (filter (fun e => negb (node_eqb (e_src e) n)
                            && negb (node_eqb (e_dst e) n)) (edges g)))
  else Raise (NetworkXError "The node is not in the digraph.").

(** [g.add_node(n)] *)
Definition add_node (g : digraph) (n : node) : digraph :=
  if has_node g n then g else mkGraph (nodes g ++ [n]) (edges g).

Fixpoint set_connect (es : list edge) (u v : node) (c : list connection)
  : list edge :=
  match es with
  | [] => [(u, v, c)]
  | e :: es' =>
      if node_eqb (e_src e) u && node_eqb (e_dst e) v then (u, v, c) :: es'
      else e :: set_connect es' u v c
  end.

(** [g.add_edge(u, v, connect=c)]: missing endpoints are added; an existing
    edge keeps its place and has its ['connect'] replaced. *)
Definition add_edge (g : digraph) (u v : node) (c : list connection)
  : digraph :=
  let g1 := add_node (add_node g u) v in
  mkGraph (nodes g1) (set_connect (edges g1) u v c).

(** ** Workflows and the external collaborators *)

Record workflow : Type := mkWorkflow {
  wf_name : string;
  wf_graph : digraph
}.

(** An S3 bucket handle, as returned by [fetch_creds.return_bucket]. *)
Record bucket : Type := mkBucket {
  bucket_name : string;
  bucket_creds : option string
}.

(** [str(bucket)] of a boto3 bucket resource. *)
Definition bucket_str (b : bucket) : string :=
  ("s3.Bucket(name='" ++ bucket_name b ++ "')")%string.

(** What the module imports from outside the repository: [glob.glob], the
    S3 client of [indi_aws] and boto3, the DataSink's [_substitute], and
    nipype's flattening and expansion of a workflow into an execution graph.
    [glob.glob] never raises; the S3 calls may. *)
Record environment : Type := mkEnv {
  glob : string -> list string;
  return_bucket : option string -> string -> result bucket;
  objects_filter : bucket -> string -> result (list string);
  substitute : node -> string -> string;
  create_flat_graph : workflow -> digraph;
  generate_expanded_graph : digraph -> digraph
}.

(** Modelled from the spec: [create_check_for_s3_node] is defined in
    [CPAC.utils.datasource], which is not among the sources.  The spec's
    stand-in node factory: "given a name, a resolved file path, and optional
    storage credentials, produces a passthrough node usable as a graph
    node".  [fresh] is the identity of the new object. *)
Definition create_check_for_s3_node (fresh : nat) (name file_path : string)
  (img_type : string) (creds_path : option string) : node :=
  mkNode fresh name EmptyString Node
    (CheckForS3 file_path img_type creds_path) [].

(** [n._hierarchy = h] *)
Definition set_hierarchy (n : node) (h : string) : node :=
  mkNode (uid n) (name n) h (cls n) (iface n) (parameterization n).

Definition fresh_uid (g : digraph) : nat :=
  S (fold_right Nat.max 0 (map uid (nodes g))).

(** The cached fields of one producer: output field -> file. *)
Abbreviation fields := (PyDict.t string string) (only parsing).
(** [replacements]: producer -> cached fields. *)
Abbreviation replacements_t := (PyDict.t node fields) (only parsing).
(** [replacement_mapping]: producer -> output field -> input node. *)
Abbreviation mapping_t := (PyDict.t node (PyDict.t string node)) (only parsing).

Definition field_in {V : Type} (f : string) (d : PyDict.t string V) : bool :=
  PyDict.contains String.eqb f d.

(** [d.get(k, {})] *)
Definition get_or_empty {V : Type} (k : node) (d : PyDict.t node (list V))
  : list V :=
  match PyDict.get node_eqb k d with Some v => v | None => [] end.

Section Trimmer.
Variable E : environment.

(** *** [list_files] (lines 16-26) *)
Definition list_files (path : string) (s3_creds_path : option string)
  : result (list string) :=
  if Str.startswith "s3://" path then
    let pieces := Str.split "/"%char (Str.drop 5 path) in
    let bucket_name := hd EmptyString pieces in
    let path := Str.join "/" (tl pieces) in
    bucket <- return_bucket E s3_creds_path bucket_name ;;
    objs <- objects_filter E bucket path ;;
    Ok (map (fun key => ("s3://" ++ bucket_str bucket ++ "/" ++ key)%string)
            objs)
  else Ok (glob E (path ++ "/*")%string).

Variable execgraph : digraph.
Variables output_dir container s3_creds_path : option string.

(** *** Scanning the DataSinks (lines 134-183) *)

(** Lines 135-138. *)
Definition execnodes : list node := filter is_datasink (nodes execgraph).

(** Lines 151-164: the directory a derivative of [datasink] goes to. *)
Definition datasink_path (datasink : node) (derivative_name : string)
  : string :=
  let datasink_output_dir :=
    match output_dir with
    | Some d => d
    | None => base_directory datasink
    end in
  let datasink_container :=
    match container with
    | Some c => c
    | None => container_of datasink
    end in
  let iterables := parameterization datasink in
  let path := Str.join "/" (EmptyString :: derivative_name :: iterables) in
  let path := Str.drop 1 (substitute E datasink path) in
  Str.join "/" [datasink_output_dir; datasink_container; path].

(** Lines 149-172: one field mapping of one incoming edge. *)
Definition scan_connection (datasink src : node) (c : connection)
  (replacements : replacements_t) : result replacements_t :=
  let '(src_field, derivative_name) := c in
  let path := datasink_path datasink derivative_name in
  files <- list_files path None ;;
  if List.length files =? 1 then
    let replacements :=
      if PyDict.contains node_eqb src replacements then replacements
      else PyDict.set node_eqb src [] replacements in
    Ok (PyDict.set node_eqb src
          (PyDict.set String.eqb src_field (hd EmptyString files)
             (get_or_empty src replacements))
          replacements)
  else Ok replacements.

(** Lines 142-172: one incoming edge. *)
Definition scan_in_edge (datasink : node) (inp : node * node)
  (replacements : replacements_t) : result replacements_t :=
  let '(src, _) := inp in
  for_each (get_edge_data execgraph (fst inp) (snd inp))
    (scan_connection datasink src) replacements.

(** Lines 176-182: every incoming edge has some field in [replacements]. *)
Definition datasink_cached (replacements : replacements_t) (datasink : node)
  : bool :=
  forallb
    (fun '(src, dst) =>
       existsb (fun '(field, _) =>
                  field_in field (get_or_empty src replacements))
         (get_edge_data execgraph src dst))
    (in_edges execgraph datasink).

(** Lines 139-183: one DataSink. *)
Definition scan_datasink (datasink : node)
  (st : replacements_t * list node) : result (replacements_t * list node) :=
  let '(replacements, deletions) := st in
  replacements <- for_each (in_edges execgraph datasink)
                    (scan_in_edge datasink) replacements ;;
  if datasink_cached replacements datasink then
    Ok (replacements, deletions ++ [datasink])
  else Ok (replacements, deletions).

Definition scan : result (replacements_t * list node) :=
  for_each execnodes scan_datasink ([], []).

(** *** Dropping partially cached producers (lines 185-193) *)

(** Lines 187-191: some outgoing field of [node] is not cached. *)
Definition has_uncached_field (node : node) (cached_fields : fields) : bool :=
  existsb
    (fun edge =>
       existsb (fun '(src_field, _) => negb (field_in src_field cached_fields))
         (get_edge_data execgraph (fst edge) (snd edge)))
    (out_edges execgraph node).

(** The loop over [replacements.items()].  [items] is what the iterator has
    still to produce and [di_used] the size the dictionary had when the
    iterator was made; each step of the iterator first compares that size
    with the current one. *)
Fixpoint validate_items (items : list (node * fields)) (di_used : nat)
  (replacements : replacements_t) : result replacements_t :=
  if negb (List.length replacements =? di_used) then
    Raise (RuntimeError "dictionary changed size during iteration")
  else
    match items with
    | [] => Ok replacements
    | (node, cached_fields) :: rest =>
        validate_items rest di_used
          (if has_uncached_field node cached_fields
           then PyDict.del node_eqb node replacements
           else replacements)
    end.

Definition validate (replacements : replacements_t) : result replacements_t :=
  validate_items replacements (List.length replacements) replacements.

(** *** Pruning the predecessors (lines 195-213) *)

(** The generator [recurse_predecessors], as the list of what it yields.
    [depth] is the number of frames the interpreter still allows; a walk
    that needs more raises [RecursionError]. *)
Fixpoint recurse_predecessors (depth : nat) (g : digraph) (cached_node : node)
  : result (list node) :=
  match depth with
  | O => Raise RecursionError
  | S depth' =>
      for_each (in_edges g cached_node)
        (fun '(node, _) yielded =>
           if existsb (fun '(_, outnode) => negb (node_eqb outnode cached_node))
                (out_edges g node)
           then Ok yielded
           else
             upstream <- recurse_predecessors depth' g node ;;
             Ok (yielded ++ node :: upstream))
        []
  end.

(** Lines 212-213. *)
Definition prune (depth : nat) (replacements : replacements_t)
  (deletions : list node) : result (list node) :=
  for_each replacements
    (fun '(node, _) deletions =>
       pruned <- recurse_predecessors depth execgraph node ;;
       Ok (deletions ++ pruned))
    deletions.

(** Lines 215-217. *)
Definition remove_nodes (deletions : list node) (g : digraph)
  : result digraph :=
  for_each deletions (fun deletion g => remove_node g deletion) g.

(** *** Rewiring the replaced producers (lines 219-258) *)

Record rewrite_state : Type := mkRewrite {
  rs_graph : digraph;
  rs_mapping : mapping_t;
  rs_input_nodes : list node;
  rs_fresh : nat
}.

(** Lines 230-256: one field mapping of one outgoing edge. *)
Definition rewire_connection (replacement : node) (cached_files : fields)
  (to_node : node) (c : connection) (st : rewrite_state)
  : result rewrite_state :=
  let '(from_field, to_field) := c in
  let mapping :=
    if PyDict.contains node_eqb replacement (rs_mapping st)
    then rs_mapping st
    else PyDict.set node_eqb replacement [] (rs_mapping st) in
  st <-
    (if field_in from_field (get_or_empty replacement mapping) then
       Ok (mkRewrite (rs_graph st) mapping (rs_input_nodes st) (rs_fresh st))
     else
       match PyDict.get String.eqb from_field cached_files with
       | None => Raise (KeyError from_field)
       | Some file_path =>
           let new_node :=
             set_hierarchy
               (create_check_for_s3_node (rs_fresh st)
                  (name replacement ++ "_" ++ from_field ++ "_input")%string
                  file_path "other" s3_creds_path)
               (hierarchy replacement) in
           Ok (mkRewrite
                 (add_node (rs_graph st) new_node)
                 (PyDict.set node_eqb replacement
                    (PyDict.set String.eqb from_field new_node
                       (get_or_empty replacement mapping))
                    mapping)
                 (rs_input_nodes st ++ [new_node])
                 (S (rs_fresh st)))
       end) ;;
  match PyDict.get String.eqb from_field
          (get_or_empty replacement (rs_mapping st)) with
  | None => Raise (KeyError from_field)
  | Some input_node =>
      Ok (mkRewrite
            (add_edge (rs_graph st) input_node to_node
               [("file"%string, to_field)])
            (rs_mapping st) (rs_input_nodes st) (rs_fresh st))
  end.

(** Lines 222-258: one replaced producer.  [out_edges_data] is read from
    the producer's own adjacency, which the loop does not change. *)
Definition rewire_replacement (item : node * fields) (st : rewrite_state)
  : result rewrite_state :=
  let '(replacement, cached_files) := item in
  out_edges <- successors (rs_graph st) replacement ;;
  let out_edges_data := rs_graph st in
  st <-
    for_each out_edges
      (fun to_node st =>
         for_each (get_edge_data out_edges_data replacement to_node)
           (rewire_connection replacement cached_files to_node) st)
      st ;;
  g <- remove_node (rs_graph st) replacement ;;
  Ok (mkRewrite g (rs_mapping st) (rs_input_nodes st) (rs_fresh st)).

(** Lines 260-264. *)
Definition drop_unused_input (node : node) (g : digraph) : result digraph :=
  out_edges <- successors g node ;;
  match out_edges with
  | [] => remove_node g node
  | _ :: _ => Ok g
  end.

(** Lines 131-264: everything the trimmer does to the execution graph. *)
Definition trim (depth : nat) : result (digraph * (mapping_t * list node)) :=
  '(replacements, deletions) <- scan ;;
  replacements <- validate replacements ;;
  deletions <- prune depth replacements deletions ;;
  g <- remove_nodes deletions execgraph ;;
  st <- for_each replacements rewire_replacement
          (mkRewrite g [] [] (fresh_uid execgraph)) ;;
  g <- for_each (rs_input_nodes st) drop_unused_input (rs_graph st) ;;
  Ok (g, (rs_mapping st, deletions)).

End Trimmer.

(** [the_trimmer] (lines 29-269).  [depth] is the recursion depth left to
    the interpreter when the function is called. *)
Definition the_trimmer (E : environment) (depth : nat) (wf : workflow)
  (output_dir container s3_creds_path : option string)
  : result (workflow * (mapping_t * list node)) :=
  let execgraph := generate_expanded_graph E (create_flat_graph E wf) in
  '(g, audit) <- trim E execgraph output_dir container s3_creds_path depth ;;
  let wf_new := mkWorkflow (wf_name wf ++ "_trimmed")%string g in
  Ok (wf_new, audit).

(** ** The pair view of the raw candidate map *)

(** [(producer, field) -> file], read off [replacements]. *)
Definition candidate (replacements : replacements_t) (producer : node)
  (field : string) : option string :=
  match PyDict.get node_eqb producer replacements with
  | Some cached_fields => PyDict.get String.eqb field cached_fields
  | None => None
  end.

(** What lines 169-172 do to the map. *)
Definition record (src : node) (src_field file : string)
  (replacements : replacements_t) : replacements_t :=
  let replacements :=
    if PyDict.contains node_eqb src replacements then replacements
    else PyDict.set node_eqb src [] replacements in
  PyDict.set node_eqb src
    (PyDict.set String.eqb src_field file (get_or_empty src replacements))
    replacements.

(** Candidates are never taken back: every pair of [r] is a pair of [r']. *)
Definition grows (r r' : replacements_t) : Prop :=
  forall p f, candidate r p f <> None -> candidate r' p f <> None.

(** A field mapping on an edge into a DataSink of the graph, from producer
    [p] and field [f], whose location lists exactly [file]. *)
Definition single_file_probe (E : environment) (g : digraph)
  (output_dir container : option string) (p : node) (f file : string) : Prop :=
  exists datasink inp c,
    In datasink (nodes g) /\ is_datasink datasink = true /\
    In inp (in_edges g datasink) /\
    In c (get_edge_data g (fst inp) (snd inp)) /\
    fst inp = p /\ fst c = f /\
    list_files E (datasink_path E output_dir container datasink (snd c)) None
    = Ok [file].

(** Every pair of [r] comes from a one-file listing. *)
Definition justified (E : environment) (g : digraph)
  (output_dir container : option string) (r : replacements_t) : Prop :=
  forall p f file,
    candidate r p f = Some file ->
    single_file_probe E g output_dir container p f file.

(** The locations the scan queries, in the order of its three loops. *)
Definition probed_paths (E : environment) (execgraph : digraph)
  (output_dir container : option string) : list string :=
  flat_map
    (fun datasink =>
       flat_map
         (fun inp =>
            map (fun c : connection =>
                   datasink_path E output_dir container datasink (snd c))
              (get_edge_data execgraph (fst inp) (snd inp)))
         (in_edges execgraph datasink))
    (execnodes execgraph).

(** The first exception [list_files] raises over a sequence of queries. *)
Fixpoint first_fault (E : environment) (paths : list string) : option exn :=
  match paths with
  | [] => None
  | p :: ps =>
      match list_files E p None with
      | Raise e => Some e
      | Ok _ => first_fault E ps
      end
  end.

(** ** Invariants of the rewriting *)

(** [d] is not a node of [g] and no edge of [g] touches it. *)
Definition absent (g : digraph) (d : node) : Prop :=
  ~ In d (nodes g) /\
  forall e, In e (edges g) -> e_src e <> d /\ e_dst e <> d.

(** No input node of the mapping is [d]. *)
Definition mapping_avoids (d : node) (mapping : mapping_t) : Prop :=
  forall p m f n, In (p, m) mapping -> In (f, n) m -> n <> d.

(** While the replaced producers are rewired, a removed node [d] stays out
    of the graph: it is older than every node still to be created and is
    not one of the input nodes. *)
Definition rewrite_inv (d : node) (st : rewrite_state) : Prop :=
  absent (rs_graph st) d /\
  uid d < rs_fresh st /\
  mapping_avoids d (rs_mapping st).

(** ** Well-formed graphs and the state of the rewiring *)

(** What networkx keeps of a [DiGraph]: a node is there once, there is one
    edge per ordered pair, and the endpoints of every edge are nodes. *)
Definition well_formed (g : digraph) : Prop :=
  NoDup (nodes g) /\
  NoDup (map fst (edges g)) /\
  forall e, In e (edges g) -> In (e_src e) (nodes g) /\ In (e_dst e) (nodes g).

(** The input node lines 238-245 make for the field [f] of the producer [p],
    cached in [file], as the object [n]. *)
Definition input_node_for (s3_creds_path : option string) (p : node)
  (f file : string) (n : node) : Prop :=
  n = set_hierarchy
        (create_check_for_s3_node (uid n)
           (name p ++ "_" ++ f ++ "_input")%string file "other" s3_creds_path)
        (hierarchy p).

(** What holds of the state all along lines 219-258, for the execution graph
    [g0] and the validated map [raw]: nodes older than [fresh_uid g0] are
    nodes of [g0] and the edges between them are edges of [g0]; the newer
    nodes are the input nodes, whose edges carry one mapping from [file] and
    go to nodes of [g0]; the mapping sends a field of a producer to the input
    node made for it. *)
Definition rewired (g0 : digraph) (raw : replacements_t)
  (s3_creds_path : option string) (st : rewrite_state) : Prop :=
  fresh_uid g0 <= rs_fresh st /\
  well_formed (rs_graph st) /\
  (forall x, In x (nodes (rs_graph st)) -> uid x < rs_fresh st) /\
  (forall x, In x (nodes (rs_graph st)) -> uid x < fresh_uid g0 ->
             In x (nodes g0)) /\
  (forall x, In x (nodes (rs_graph st)) -> fresh_uid g0 <= uid x ->
             In x (rs_input_nodes st)) /\
  (forall e, In e (edges (rs_graph st)) -> uid (e_dst e) < fresh_uid g0) /\
  (forall e, In e (edges (rs_graph st)) -> uid (e_src e) < fresh_uid g0 ->
             In e (edges g0)) /\
  (forall e, In e (edges (rs_graph st)) -> fresh_uid g0 <= uid (e_src e) ->
             exists to_field, e_connect e = [("file"%string, to_field)]) /\
  (forall x, In x (rs_input_nodes st) ->
             fresh_uid g0 <= uid x /\ uid x < rs_fresh st) /\
  (forall p m f n,
      In (p, m) (rs_mapping st) -> In (f, n) m ->
      In n (rs_input_nodes st) /\
      exists cached_files file,
        In (p, cached_files) raw /\
        PyDict.get String.eqb f cached_files = Some file /\
        input_node_for s3_creds_path p f file n).

(** Every input node made so far is the value of some field in the
    mapping. *)
Definition inputs_mapped (st : rewrite_state) : Prop :=
  forall x, In x (rs_input_nodes st) ->
            exists p m f, In (p, m) (rs_mapping st) /\ In (f, x) m.

(** Every input node made so far is a node of the graph, and was made
    once. *)
Definition inputs_present (st : rewrite_state) : Prop :=
  NoDup (rs_input_nodes st) /\
  forall x, In x (rs_input_nodes st) -> In x (nodes (rs_graph st)).

(** The mapping holds the input node [n] for the field [f] of [p]. *)
Definition mapped (mapping : mapping_t) (p : node) (f : string) (n : node)
  : Prop :=
  exists m, In (p, m) mapping /\ In (f, n) m.

(** No input node stands for two fields. *)
Definition mapping_injective (mapping : mapping_t) : Prop :=
  forall p f p' f' n,
    mapped mapping p f n -> mapped mapping p' f' n -> p = p' /\ f = f'.

(** The destination field of the last mapping from [f] in [connect]. *)
Fixpoint last_to_field (f : string) (connect : list connection)
  : option string :=
  match connect with
  | [] => None
  | (from_field, to_field) :: rest =>
      match last_to_field f rest with
      | Some later => Some later
      | None => if String.eqb from_field f then Some to_field else None
      end
  end.

(** The input node for the field [f] of [p] feeds the input [to_field] of
    the consumer [t], and no other input of [t]. *)
Definition wired (p : node) (f : string) (t : node) (to_field : string)
  (st : rewrite_state) : Prop :=
  exists n,
    mapped (rs_mapping st) p f n /\
    In (n, t, [("file"%string, to_field)]) (edges (rs_graph st)).

(** No edge leaves a DataSink. *)
Definition datasinks_are_leaves (g : digraph) : Prop :=
  forall e, In e (edges g) -> is_datasink (e_src e) = false.

(** ** The upstream walk, as a relation *)

(** [p] is a predecessor of [c] and every edge out of [p] goes to [c]. *)
Definition only_feeds (g : digraph) (p c : node) : Prop :=
  In (p, c) (in_edges g c) /\
  forall e, In e (out_edges g p) -> snd e = c.

(** [p] is reached from [c] by going upstream through nodes each of which
    only feeds the one below it. *)
Inductive walk (g : digraph) (c : node) : node -> Prop :=
| walk_pred p : only_feeds g p c -> walk g c p
| walk_up p q : only_feeds g p c -> walk g p q -> walk g c q.

(** ** Lists of nodes in the order of another *)

(** [l] lists some of the nodes of [l'], in the order [l'] has them. *)
Inductive in_order : list node -> list node -> Prop :=
| in_order_end : in_order [] []
| in_order_take x l l' : in_order l l' -> in_order (x :: l) (x :: l')
| in_order_skip x l l' : in_order l l' -> in_order l (x :: l').

(** ** Scenarios *)

Module Scenarios.

Local Open Scope string_scope.

(** A file system given as a table from glob patterns to matches. *)
Definition table_glob (fs : list (string * list string)) (pattern : string)
  : list string :=
  match PyDict.get String.eqb pattern fs with
  | Some files => files
  | None => []
  end.

(** A local run: no S3 access, no substitutions, and a workflow that is
    already flat and has no iterables to expand. *)
Definition local_env (fs : list (string * list string)) : environment :=
  mkEnv (table_glob fs)
    (fun _ _ => Raise (BackendFault "no S3 access"))
    (fun _ _ => Raise (BackendFault "no S3 access"))
    (fun _ path => path)
    wf_graph
    (fun g => g).

Definition compute (i : nat) (n : string) : node :=
  mkNode i n "wf" Node (OtherInterface "Function") [].

Definition sink (i : nat) (n : string) : node :=
  mkNode i n "wf" Node (DataSink "/out" "sub-1") [].

(** [[node1] -> [node2] -> [node3] -> [datasink to file.txt]] *)
Definition A := compute 1 "A".
Definition B := compute 2 "B".
Definition C := compute 3 "C".
Definition Sink := sink 4 "Sink".

Definition chain : digraph :=
  mkGraph [A; B; C; Sink]
    [(A, B, [("out", "in")]);
     (B, C, [("out", "in")]);
     (C, Sink, [("out", "file")])].

Definition chain_fs : list (string * list string) :=
  [("/out/sub-1/file/*", ["/out/sub-1/file/file.txt"])].

(** Case 2 of the docstring: the warped image is cached, the transforms
    are needed by an uncached branch. *)
Definition registration := compute 1 "registration".
Definition functional := compute 2 "functional".
Definition apply_transforms := compute 3 "apply_transforms".
Definition sink_warped := sink 4 "ds_warped".
Definition sink_func := sink 5 "ds_func_warped".

Definition shared_field : digraph :=
  mkGraph
    [registration; functional; apply_transforms; sink_warped; sink_func]
    [(registration, sink_warped, [("warped_image", "warped")]);
     (registration, apply_transforms, [("transforms", "transforms")]);
     (functional, apply_transforms, [("out", "in_file")]);
     (apply_transforms, sink_func, [("out", "func_warped")])].

Definition shared_field_fs : list (string * list string) :=
  [("/out/sub-1/warped/*", ["/out/sub-1/warped/warped.nii.gz"])].

(** A DataSink nothing is connected to. *)
Definition lone_sink : digraph := mkGraph [Sink] [].

(** Two cached branches below a shared ancestor. *)
Definition P := compute 1 "P".
Definition B1 := compute 2 "B1".
Definition C1 := compute 3 "C1".
Definition Sink1 := sink 4 "Sink1".
Definition B2 := compute 5 "B2".
Definition C2 := compute 6 "C2".
Definition Sink2 := sink 7 "Sink2".

Definition diamond : digraph :=
  mkGraph [P; B1; C1; Sink1; B2; C2; Sink2]
    [(P, B1, [("out", "in")]);
     (B1, C1, [("out", "in")]);
     (C1, Sink1, [("out", "file1")]);
     (P, B2, [("out", "in")]);
     (B2, C2, [("out", "in")]);
     (C2, Sink2, [("out", "file2")])].

Definition diamond_fs : list (string * list string) :=
  [("/out/sub-1/file1/*", ["/out/sub-1/file1/file1.txt"]);
   ("/out/sub-1/file2/*", ["/out/sub-1/file2/file2.txt"])].

(** One output written by two DataSinks under two derivative names, of
    which only the second is on disk. *)
Definition two_sinks : digraph :=
  mkGraph [P; Sink1; Sink2]
    [(P, Sink1, [("out", "file1")]);
     (P, Sink2, [("out", "file2")])].

Definition two_sinks_fs : list (string * list string) :=
  [("/out/sub-1/file2/*", ["/out/sub-1/file2/file2.txt"])].

(** A DataSink that feeds another one: both derivatives are on disk. *)
Definition R := compute 1 "R".
Definition chained_sinks : digraph :=
  mkGraph [R; Sink1; Sink2]
    [(R, Sink1, [("out", "file1")]);
     (Sink1, Sink2, [("out_file", "file2")])].

(** One output that feeds two inputs of the same node, and a DataSink whose
    derivative is on disk. *)
Definition Consumer := compute 2 "Consumer".
Definition double_feed : digraph :=
  mkGraph [P; Consumer; Sink1; Sink2]
    [(P, Consumer, [("out", "in_file"); ("out", "reference")]);
     (P, Sink2, [("out", "file2")]);
     (Consumer, Sink1, [("out", "file1")])].

(** An output directory in a private bucket: the bucket opens with the
    caller's credentials file and with nothing else. *)
Definition s3_env : environment :=
  mkEnv (fun _ => [])
    (fun creds bucket_name =>
       match creds with
       | Some "/home/user/creds.csv" => Ok (mkBucket bucket_name creds)
       | _ => Raise (BackendFault "Unable to locate credentials")
       end)
    (fun b prefix =>
       if String.eqb prefix "out/sub-1/file" then Ok ["out/sub-1/file/file.txt"]
       else Ok [])
    (fun _ path => path)
    wf_graph
    (fun g => g).

End Scenarios.

(** ** The trimmer over a store of objects

    The same function with the workflow and graph objects kept in a store,
    so that which object each step reads and writes is explicit.  A
    workflow object holds a reference to its graph; [deepcopy], nipype's
    [_create_flat_graph] (which flattens a deep copy of the workflow) and
    [clone] allocate new objects; [remove_node], [add_node] and [add_edge]
    update the graph object they are called on.  Node objects are values:
    the trimmer assigns no attribute of a node other than the [_hierarchy]
    of the input nodes it has just created. *)

Module Heap.

Definition loc : Type := nat.

Inductive object : Type :=
| GraphObj (g : digraph)
| WorkflowObj (name : string) (graph : loc).

Abbreviation store := (list object) (only parsing).

Definition lookup (l : loc) (h : store) : option object := nth_error h l.

Fixpoint update (l : loc) (o : object) (h : store) : store :=
  match h, l with
  | [], _ => []
  | _ :: h', O => o :: h'
  | x :: h', S l' => x :: update l' o h'
  end.

(** A step that reads and writes the store and may raise; what was
    written before an exception stays written. *)
Definition M (A : Type) : Type := store -> store * result A.

Definition ret {A : Type} (a : A) : M A := fun h => (h, Ok a).

Definition bind {A B : Type} (m : M A) (k : A -> M B) : M B :=
  fun h =>
    match m h with
    | (h', Ok a) => k a h'
    | (h', Raise e) => (h', Raise e)
    end.

Definition lift {A : Type} (r : result A) : M A := fun h => (h, r).

(** A new object, at a location no object has yet. *)
Definition new (o : object) : M loc :=
  fun h => (h ++ [o], Ok (List.length h)).

Definition read_graph (l : loc) : M digraph :=
  fun h =>
    match lookup l h with
    | Some (GraphObj g) => (h, Ok g)
    | _ => (h, Raise (AttributeError "not a graph"))
    end.

Definition read_workflow (l : loc) : M (string * loc) :=
  fun h =>
    match lookup l h with
    | Some (WorkflowObj name g) => (h, Ok (name, g))
    | _ => (h, Raise (AttributeError "not a workflow"))
    end.

(** A method call that changes the graph object [l] in place, or raises
    and leaves it as it was. *)
Definition mutate (l : loc) (f : digraph -> result digraph) : M unit :=
  fun h =>
    match lookup l h with
    | Some (GraphObj g) =>
        match f g with
        | Ok g' => (update l (GraphObj g') h, Ok tt)
        | Raise e => (h, Raise e)
        end
    | _ => (h, Raise (AttributeError "not a graph"))
    end.

(** [w._graph = g] *)
Definition set_graph (w g : loc) : M unit :=
  fun h =>
    match lookup w h with
    | Some (WorkflowObj name _) => (update w (WorkflowObj name g) h, Ok tt)
    | _ => (h, Raise (AttributeError "not a workflow"))
    end.

Fixpoint for_each {A S : Type} (xs : list A) (body : A -> S -> M S) (s : S)
  : M S :=
  match xs with
  | [] => ret s
  | x :: xs' => bind (body x s) (for_each xs' body)
  end.

(** One step of the rewiring (lines 230-256) on the graph object [l]; the
    other fields of the state are local variables of the trimmer. *)
Definition rewire_in_place (l : loc)
  (step : rewrite_state -> result rewrite_state) (st : rewrite_state)
  : M rewrite_state :=
  fun h =>
    match lookup l h with
    | Some (GraphObj g) =>
        match step (mkRewrite g (rs_mapping st) (rs_input_nodes st)
                      (rs_fresh st)) with
        | Ok st' => (update l (GraphObj (rs_graph st')) h, Ok st')
        | Raise e => (h, Raise e)
        end
    | _ => (h, Raise (AttributeError "not a graph"))
    end.

(** Lines 222-258 on the graph object [execgraph]. *)
Definition rewire_replacement (s3_creds_path : option string)
  (execgraph : loc) (item : node * fields) (st : rewrite_state)
  : M rewrite_state :=
  let '(replacement, cached_files) := item in
  bind (read_graph execgraph) (fun g =>
  bind (lift (successors g replacement)) (fun out_edges =>
  let out_edges_data := g in
  bind (for_each out_edges
          (fun to_node st =>
             for_each (get_edge_data out_edges_data replacement to_node)
               (fun c st =>
                  rewire_in_place execgraph
                    (rewire_connection s3_creds_path replacement
                       cached_files to_node c) st)
               st)
          st) (fun st =>
  bind (mutate execgraph (fun g => remove_node g replacement)) (fun _ =>
  ret st)))).

(** [the_trimmer] (lines 29-269) on the workflow object [wf]. *)
Definition the_trimmer (E : environment) (depth : nat) (wf : loc)
  (output_dir container s3_creds_path : option string)
  : M (loc * (mapping_t * list node)) :=
  (* wf._create_flat_graph() *)
  bind (read_workflow wf) (fun '(name, wf_graph_loc) =>
  bind (read_graph wf_graph_loc) (fun g0 =>
  bind (new (GraphObj (create_flat_graph E (mkWorkflow name g0))))
    (fun flat =>
  (* deepcopy(...) *)
  bind (read_graph flat) (fun gflat =>
  bind (new (GraphObj gflat)) (fun execgraph =>
  (* generate_expanded_graph(...) works on the copy *)
  bind (mutate execgraph (fun g => Ok (generate_expanded_graph E g)))
    (fun _ =>
  bind (read_graph execgraph) (fun g =>
  bind (lift (scan E g output_dir container))
    (fun '(replacements, deletions) =>
  bind (lift (validate g replacements)) (fun replacements =>
  bind (lift (prune g depth replacements deletions)) (fun deletions =>
  bind (for_each deletions
          (fun deletion _ =>
             mutate execgraph (fun g => remove_node g deletion)) tt)
    (fun _ =>
  bind (for_each replacements (rewire_replacement s3_creds_path execgraph)
          (mkRewrite g [] [] (fresh_uid g))) (fun st =>
  bind (for_each (rs_input_nodes st)
          (fun node _ => mutate execgraph (drop_unused_input node)) tt)
    (fun _ =>
  (* wf.clone(wf.name + '_trimmed') *)
  bind (new (GraphObj g0)) (fun clone_graph =>
  bind (new (WorkflowObj (name ++ "_trimmed")%string clone_graph))
    (fun wf_new =>
  (* wf_new._graph = execgraph *)
  bind (set_graph wf_new execgraph) (fun _ =>
  ret (wf_new, (rs_mapping st, deletions)))))))))))))))))).

(** [h] has every object of [h0], unchanged, and maybe more. *)
Definition extends (h0 h : store) : Prop :=
  List.length h0 <= List.length h /\
  forall l, l < List.length h0 -> lookup l h = lookup l h0.

(** From a store that extends [h0] and satisfies [P], the step [m] ends
    in a store that extends [h0], and a returned value satisfies [Q]
    with it. *)
Definition triple {A : Type} (h0 : store) (P : store -> Prop) (m : M A)
  (Q : A -> store -> Prop) : Prop :=
  forall h,
    extends h0 h -> P h ->
    extends h0 (fst (m h)) /\
    forall a, snd (m h) = Ok a -> Q a (fst (m h)).

(** The local variables of the rewiring in [st] are those of [sp], and
    the graph object [l] holds the graph of [sp]. *)
Definition tracks (l : loc) (st sp : rewrite_state) (h : store) : Prop :=
  rs_mapping st = rs_mapping sp /\
  rs_input_nodes st = rs_input_nodes sp /\
  rs_fresh st = rs_fresh sp /\
  lookup l h = Some (GraphObj (rs_graph sp)).

(** The graph object [l] holds [g]. *)
Definition holds (l : loc) (u : unit) (g : digraph) (h : store) : Prop :=
  lookup l h = Some (GraphObj g).

End Heap.

(** * Properties *)

(** ** The error monad and the loops *)

Lemma bind_Ok_inv {A B : Type} (m : result A) (k : A -> result B) (b : B) :
  bind m k = Ok b -> exists a, m = Ok a /\ k a = Ok b.
Proof.
  destruct m as [a|e]; simpl; intros H; [eauto | discriminate].
Qed.

Lemma for_each_app {A S : Type} (xs ys : list A) (body : A -> S -> result S)
  (s : S) :
  for_each (xs ++ ys) body s = (s' <- for_each xs body s ;; for_each ys body s').
Proof.
  revert s; induction xs as [|x xs IH]; intros s; simpl; [reflexivity|].
  destruct (body x s); simpl; auto.
Qed.

(** A property of the loop state that every iteration keeps holds after the
    loop. *)
Lemma for_each_invariant {A S : Type} (P : S -> Prop) (xs : list A)
  (body : A -> S -> result S) :
  (forall x s s', In x xs -> P s -> body x s = Ok s' -> P s') ->
  forall s r, P s -> for_each xs body s = Ok r -> P r.
Proof.
  induction xs as [|x xs IH]; intros Hstep s r Hs Hrun; simpl in Hrun.
  - now inversion Hrun; subst.
  - apply bind_Ok_inv in Hrun as (s' & Hb & Hrest).
    apply (IH (fun y t t' Hy => Hstep y t t' (or_intror Hy)) s' r); auto.
    apply (Hstep x s s'); simpl; auto.
Qed.

(** What an iteration establishes for its own element, and every later
    iteration keeps, holds for every element after the loop. *)
Lemma for_each_establishes {A S : Type} (Q : A -> S -> Prop) (xs : list A)
  (body : A -> S -> result S) :
  (forall x s s', In x xs -> body x s = Ok s' -> Q x s') ->
  (forall x y s s', In y xs -> Q x s -> body y s = Ok s' -> Q x s') ->
  forall s r, for_each xs body s = Ok r -> forall x, In x xs -> Q x r.
Proof.
  induction xs as [|y xs IH]; intros Hest Hkeep s r Hrun x Hx; [easy|].
  simpl in Hrun. apply bind_Ok_inv in Hrun as (s' & Hb & Hrest).
  destruct Hx as [->|Hx].
  - apply (for_each_invariant (Q x) xs body) with (s := s'); auto.
    + intros z t t' Hz; apply Hkeep; simpl; auto.
    + apply (Hest x s); simpl; auto.
  - apply (IH (fun z t t' Hz => Hest z t t' (or_intror Hz))
              (fun z w t t' Hw => Hkeep z w t t' (or_intror Hw)) s' r); auto.
Qed.

(** ** Node equality *)

Lemma node_eqb_eq (a b : node) : node_eqb a b = true <-> a = b.
Proof.
  unfold node_eqb; destruct (node_eq_dec a b); split; congruence.
Qed.

Lemma node_eqb_refl (a : node) : node_eqb a a = true.
Proof. now apply node_eqb_eq. Qed.

Lemma node_eqb_neq (a b : node) : node_eqb a b = false <-> a <> b.
Proof.
  unfold node_eqb; destruct (node_eq_dec a b); split; congruence.
Qed.

(** ** Dictionaries *)

Section DictFacts.
Variables K V : Type.
Variable eqb : K -> K -> bool.
Hypothesis eqb_eq : forall a b, eqb a b = true <-> a = b.

Lemma eqb_refl' (a : K) : eqb a a = true.
Proof. now apply eqb_eq. Qed.

Lemma eqb_neq' (a b : K) : a <> b -> eqb a b = false.
Proof.
  intros H; destruct (eqb a b) eqn:E; [|reflexivity].
  now apply eqb_eq in E.
Qed.

Lemma get_set_same (k : K) (v : V) (d : PyDict.t K V) :
  PyDict.get eqb k (PyDict.set eqb k v d) = Some v.
Proof.
  induction d as [|[k' v'] d IH]; simpl.
  - now rewrite eqb_refl'.
  - destruct (eqb k k') eqn:E; simpl; rewrite E; auto.
Qed.

Lemma get_set_other (k k' : K) (v : V) (d : PyDict.t K V) :
  k' <> k -> PyDict.get eqb k' (PyDict.set eqb k v d) = PyDict.get eqb k' d.
Proof.
  intros Hne; induction d as [|[k0 v0] d IH]; simpl.
  - now rewrite (eqb_neq' Hne).
  - destruct (eqb k k0) eqn:E; simpl.
    + apply eqb_eq in E; subst k0. now rewrite (eqb_neq' Hne).
    + now rewrite IH.
Qed.

Lemma get_In (k : K) (v : V) (d : PyDict.t K V) :
  PyDict.get eqb k d = Some v -> In (k, v) d.
Proof.
  induction d as [|[k' v'] d IH]; simpl; [discriminate|].
  destruct (eqb k k') eqn:E.
  - apply eqb_eq in E; subst; intros [= ->]; auto.
  - auto.
Qed.

Lemma In_contains (k : K) (v : V) (d : PyDict.t K V) :
  In (k, v) d -> PyDict.contains eqb k d = true.
Proof.
  unfold PyDict.contains.
  induction d as [|[k' v'] d IH]; simpl; [easy|].
  intros [[= -> ->]|H].
  - now rewrite eqb_refl'.
  - destruct (eqb k k'); auto.
Qed.

Lemma length_set_contains (k : K) (v : V) (d : PyDict.t K V) :
  PyDict.contains eqb k d = true ->
  List.length (PyDict.set eqb k v d) = List.length d.
Proof.
  unfold PyDict.contains.
  induction d as [|[k' v'] d IH]; simpl; [discriminate|].
  destruct (eqb k k'); simpl; auto.
Qed.

Lemma length_del_contains (k : K) (d : PyDict.t K V) :
  PyDict.contains eqb k d = true ->
  S (List.length (PyDict.del eqb k d)) = List.length d.
Proof.
  unfold PyDict.contains.
  induction d as [|[k' v'] d IH]; simpl; [discriminate|].
  destruct (eqb k k'); simpl; auto.
Qed.

End DictFacts.

Lemma string_eqb_eq (a b : string) : String.eqb a b = true <-> a = b.
Proof. apply String.eqb_eq. Qed.

(** ** The scan (lines 139-183) *)

Section ScanFacts.
Variable E : environment.
Variable g : digraph.
Variables output_dir container : option string.

Lemma scan_connection_eq (datasink src : node) (f d : string)
  (replacements : replacements_t) :
  scan_connection E output_dir container datasink src (f, d) replacements =
  match list_files E (datasink_path E output_dir container datasink d) None with
  | Ok files =>
      if List.length files =? 1
      then Ok (record src f (hd EmptyString files) replacements)
      else Ok replacements
  | Raise e => Raise e
  end.
Proof.
  unfold scan_connection.
  destruct (list_files E _ None); reflexivity.
Qed.

Lemma candidate_record_same (src : node) (f file : string)
  (replacements : replacements_t) :
  candidate (record src f file replacements) src f = Some file.
Proof.
  unfold candidate, record.
  rewrite (get_set_same node_eqb node_eqb_eq).
  apply (get_set_same String.eqb string_eqb_eq).
Qed.

Lemma candidate_record_other (src p : node) (f f' file : string)
  (replacements : replacements_t) :
  p <> src \/ f' <> f ->
  candidate (record src f file replacements) p f' =
  candidate replacements p f'.
Proof.
  intros Hne. unfold candidate, record.
  destruct (node_eq_dec p src) as [->|Hp].
  - destruct Hne as [Hne|Hf]; [congruence|].
    rewrite (get_set_same node_eqb node_eqb_eq).
    rewrite (get_set_other String.eqb string_eqb_eq) by assumption.
    unfold get_or_empty, PyDict.contains.
    destruct (PyDict.get node_eqb src replacements) as [cached|] eqn:Hget.
    + cbv iota. now rewrite Hget.
    + cbv iota. now rewrite (get_set_same node_eqb node_eqb_eq).
  - rewrite (get_set_other node_eqb node_eqb_eq) by assumption.
    destruct (PyDict.contains node_eqb src replacements); [reflexivity|].
    now rewrite (get_set_other node_eqb node_eqb_eq).
Qed.
End ScanFacts.

Section ScanGrowth.
Variable E : environment.
Variable g : digraph.
Variables output_dir container : option string.

Lemma grows_refl (r : replacements_t) : grows r r.
Proof. now intros p f. Qed.

Lemma record_grows (src : node) (f file : string) (r : replacements_t) :
  grows r (record src f file r).
Proof.
  intros p f' H.
  destruct (node_eq_dec p src) as [->|Hp].
  - destruct (string_dec f' f) as [->|Hf].
    + now rewrite candidate_record_same.
    + now rewrite candidate_record_other by auto.
  - now rewrite candidate_record_other by auto.
Qed.

Lemma scan_connection_grows (datasink src : node) (c : connection)
  (r r' : replacements_t) :
  scan_connection E output_dir container datasink src c r = Ok r' ->
  grows r r'.
Proof.
  destruct c as [f d]. rewrite scan_connection_eq.
  destruct (list_files E _ None) as [files|]; [|discriminate].
  destruct (List.length files =? 1); intros [= <-].
  - apply record_grows.
  - apply grows_refl.
Qed.

Lemma scan_in_edge_grows (datasink : node) (inp : node * node)
  (r r' : replacements_t) :
  scan_in_edge E g output_dir container datasink inp r = Ok r' -> grows r r'.
Proof.
  unfold scan_in_edge. destruct inp as [src dst]. intros H p f Hc.
  revert H.
  apply (for_each_invariant (fun t => candidate t p f <> None)); auto.
  intros c s s' _ Hs Hstep. eapply scan_connection_grows; eauto.
Qed.

Lemma scan_in_edges_grows (datasink : node) (inps : list (node * node))
  (r r' : replacements_t) :
  for_each inps (scan_in_edge E g output_dir container datasink) r = Ok r' ->
  grows r r'.
Proof.
  intros H p f Hc. revert H.
  apply (for_each_invariant (fun t => candidate t p f <> None)); auto.
  intros c s s' _ Hs Hstep. eapply scan_in_edge_grows; eauto.
Qed.

Lemma scan_datasink_inv (datasink : node) (r r' : replacements_t)
  (dels dels' : list node) :
  scan_datasink E g output_dir container datasink (r, dels) = Ok (r', dels') ->
  for_each (in_edges g datasink)
    (scan_in_edge E g output_dir container datasink) r = Ok r' /\
  dels' = (if datasink_cached g r' datasink then dels ++ [datasink] else dels).
Proof.
  unfold scan_datasink. intros H.
  apply bind_Ok_inv in H as (r1 & Hr1 & H).
  destruct (datasink_cached g r1 datasink) eqn:Hc;
    inversion H; subst; rewrite ?Hc; auto.
Qed.

Lemma scan_datasink_grows (datasink : node)
  (st st' : replacements_t * list node) :
  scan_datasink E g output_dir container datasink st = Ok st' ->
  grows (fst st) (fst st').
Proof.
  destruct st as [r dels], st' as [r' dels']. intros H.
  apply scan_datasink_inv in H as [H _]. now apply scan_in_edges_grows in H.
Qed.

Lemma single_file (files : list string) :
  List.length files = 1 -> files = [hd EmptyString files].
Proof. destruct files as [|x [|y l]]; simpl; congruence. Qed.

Lemma scan_datasink_justified (datasink : node)
  (st st' : replacements_t * list node) :
  In datasink (execnodes g) ->
  scan_datasink E g output_dir container datasink st = Ok st' ->
  justified E g output_dir container (fst st) ->
  justified E g output_dir container (fst st').
Proof.
  destruct st as [r dels], st' as [r' dels']. intros Hds H Hj.
  apply filter_In in Hds as [Hnode Hsink].
  apply scan_datasink_inv in H as [H _]. simpl in *. revert H.
  apply (for_each_invariant (justified E g output_dir container)); auto.
  intros inp s s' Hinp Hs. unfold scan_in_edge.
  destruct inp as [src dst] eqn:Einp. simpl fst; simpl snd.
  apply (for_each_invariant (justified E g output_dir container)); auto.
  intros [f d] t t' Hc Ht. rewrite scan_connection_eq.
  destruct (list_files E _ None) as [files|] eqn:Hfiles; [|discriminate].
  destruct (List.length files =? 1) eqn:Hlen; intros [= <-]; auto.
  apply Nat.eqb_eq in Hlen. apply single_file in Hlen.
  intros p f' file Hcand.
  destruct (node_eq_dec p src) as [->|Hp];
    [destruct (string_dec f' f) as [->|Hf]|].
  - rewrite candidate_record_same in Hcand. injection Hcand as <-.
    exists datasink, (src, dst), (f, d). simpl. rewrite Hfiles, <- Hlen.
    subst inp. repeat split; auto.
  - rewrite candidate_record_other in Hcand by auto. eauto.
  - rewrite candidate_record_other in Hcand by auto. eauto.
Qed.

End ScanGrowth.

Section ScanRecords.
Variable E : environment.
Variable g : digraph.
Variables output_dir container : option string.

Lemma scan_in_edge_records (datasink : node) (inp : node * node)
  (r r' : replacements_t) :
  scan_in_edge E g output_dir container datasink inp r = Ok r' ->
  forall c file,
    In c (get_edge_data g (fst inp) (snd inp)) ->
    list_files E (datasink_path E output_dir container datasink (snd c)) None
    = Ok [file] ->
    candidate r' (fst inp) (fst c) <> None.
Proof.
  unfold scan_in_edge. destruct inp as [src dst]. simpl fst; simpl snd.
  intros H c file Hc Hprobe. revert file Hprobe.
  apply (for_each_establishes
           (fun c t => forall file,
                list_files E
                  (datasink_path E output_dir container datasink (snd c))
                  None = Ok [file] ->
                candidate t src (fst c) <> None)
           (get_edge_data g src dst)
           (scan_connection E output_dir container datasink src))
    with (s := r); auto.
  - intros [f d] s s' _ Hstep file Hprobe. simpl fst; simpl snd in Hprobe.
    rewrite scan_connection_eq, Hprobe in Hstep. simpl in Hstep.
    injection Hstep as <-. now rewrite candidate_record_same.
  - intros x y s s' _ Hx Hstep file Hprobe.
    eapply scan_connection_grows; eauto.
Qed.

Lemma scan_datasink_records (datasink : node)
  (st st' : replacements_t * list node) :
  scan_datasink E g output_dir container datasink st = Ok st' ->
  forall inp c file,
    In inp (in_edges g datasink) ->
    In c (get_edge_data g (fst inp) (snd inp)) ->
    list_files E (datasink_path E output_dir container datasink (snd c)) None
    = Ok [file] ->
    candidate (fst st') (fst inp) (fst c) <> None.
Proof.
  destruct st as [r dels], st' as [r' dels']. intros H.
  apply scan_datasink_inv in H as [H _]. simpl.
  intros inp c file Hinp. revert c file.
  apply (for_each_establishes
           (fun inp t => forall c file,
                In c (get_edge_data g (fst inp) (snd inp)) ->
                list_files E
                  (datasink_path E output_dir container datasink (snd c))
                  None = Ok [file] ->
                candidate t (fst inp) (fst c) <> None)
           (in_edges g datasink)
           (scan_in_edge E g output_dir container datasink))
    with (s := r); auto.
  - intros x s s' _ Hstep. now apply scan_in_edge_records with (r := s).
  - intros x y s s' _ Hx Hstep c file Hc Hprobe.
    eapply scan_in_edge_grows; eauto.
Qed.

Lemma scan_records (raw : replacements_t) (dels : list node) :
  scan E g output_dir container = Ok (raw, dels) ->
  forall datasink inp c file,
    In datasink (execnodes g) ->
    In inp (in_edges g datasink) ->
    In c (get_edge_data g (fst inp) (snd inp)) ->
    list_files E (datasink_path E output_dir container datasink (snd c)) None
    = Ok [file] ->
    candidate raw (fst inp) (fst c) <> None.
Proof.
  unfold scan. intros H datasink inp c file Hds. revert inp c file.
  change raw with (fst (raw, dels)).
  apply (for_each_establishes
           (fun datasink (st : replacements_t * list node) =>
              forall inp c file,
                In inp (in_edges g datasink) ->
                In c (get_edge_data g (fst inp) (snd inp)) ->
                list_files E
                  (datasink_path E output_dir container datasink (snd c))
                  None = Ok [file] ->
                candidate (fst st) (fst inp) (fst c) <> None)
           (execnodes g)
           (scan_datasink E g output_dir container))
    with (s := ([], [])); auto.
  - intros x s s' _ Hstep. now apply scan_datasink_records with (st := s).
  - intros x y s s' _ Hx Hstep inp c file Hinp Hc Hprobe.
    eapply scan_datasink_grows; eauto.
Qed.

Lemma scan_justified (raw : replacements_t) (dels : list node) :
  scan E g output_dir container = Ok (raw, dels) ->
  justified E g output_dir container raw.
Proof.
  unfold scan. intros H. change raw with (fst (raw, dels)). revert H.
  apply (for_each_invariant
           (fun st : replacements_t * list node =>
              justified E g output_dir container (fst st))).
  - intros x s s' Hx Hs Hstep. eapply scan_datasink_justified; eauto.
  - intros p f file; discriminate.
Qed.

End ScanRecords.

(** C6.  Scanning one field mapping of an edge into a DataSink: when the
    listing of the computed location is exactly one file, the pair
    (producer, producer output field) -> that file is recorded in the raw
    candidate map and no other pair changes; when the listing is empty or
    has several files, the map is left as it is.  Over the whole scan: for
    every DataSink node of the graph, every edge into it and every field
    mapping of that edge whose listing is exactly one file, the pair is in
    the raw map; and every pair of the raw map comes from such a listing. *)
Theorem scan_records_single_file_listings (E : environment) (g : digraph)
  (output_dir container : option string) :
  (forall datasink src f d replacements files,
      list_files E (datasink_path E output_dir container datasink d) None
      = Ok files ->
      (List.length files = 1 ->
       exists replacements',
         scan_connection E output_dir container datasink src (f, d)
           replacements = Ok replacements' /\
         candidate replacements' src f = Some (hd EmptyString files) /\
         forall p f', p <> src \/ f' <> f ->
                      candidate replacements' p f' = candidate replacements p f')
      /\
      (List.length files <> 1 ->
       scan_connection E output_dir container datasink src (f, d)
         replacements = Ok replacements))
  /\
  (forall raw deletions,
      scan E g output_dir container = Ok (raw, deletions) ->
      (forall datasink inp c file,
          In datasink (nodes g) ->
          is_datasink datasink = true ->
          In inp (in_edges g datasink) ->
          In c (get_edge_data g (fst inp) (snd inp)) ->
          list_files E
            (datasink_path E output_dir container datasink (snd c)) None
          = Ok [file] ->
          candidate raw (fst inp) (fst c) <> None)
      /\
      (forall p f file,
          candidate raw p f = Some file ->
          single_file_probe E g output_dir container p f file)).
Proof.
  split.
  - intros datasink src f d replacements files Hprobe. split.
    + intros Hlen. rewrite scan_connection_eq, Hprobe.
      apply Nat.eqb_eq in Hlen. rewrite Hlen.
      eexists; split; [reflexivity|]. split.
      * apply candidate_record_same.
      * intros p f' Hne. now apply candidate_record_other.
    + intros Hlen. rewrite scan_connection_eq, Hprobe.
      apply Nat.eqb_neq in Hlen. now rewrite Hlen.
  - intros raw deletions Hscan. split.
    + intros datasink inp c file Hnode Hsink.
      apply scan_records with (dels := deletions); [assumption|].
      apply filter_In. split; assumption.
    + now apply scan_justified with (dels := deletions).
Qed.

Lemma scan_records_single_file_listings_witness :
  (exists replacements',
      scan_connection (Scenarios.local_env Scenarios.chain_fs) None None
        Scenarios.Sink Scenarios.C ("out", "file")%string []
      = Ok replacements' /\
      candidate replacements' Scenarios.C "out"
      = Some "/out/sub-1/file/file.txt"%string) /\
  exists raw deletions,
    scan (Scenarios.local_env Scenarios.chain_fs) Scenarios.chain None None
    = Ok (raw, deletions) /\
    candidate raw Scenarios.C "out" <> None /\
    single_file_probe (Scenarios.local_env Scenarios.chain_fs)
      Scenarios.chain None None Scenarios.C "out"
      "/out/sub-1/file/file.txt".
Proof.
  destruct (scan_records_single_file_listings
              (Scenarios.local_env Scenarios.chain_fs) Scenarios.chain
              None None) as [Hstep Hscan].
  split.
  - destruct (Hstep Scenarios.Sink Scenarios.C "out"%string "file"%string []
                ["/out/sub-1/file/file.txt"%string] eq_refl) as [Hone _].
    destruct (Hone eq_refl) as (r' & Hrun & Hcand & _).
    exists r'. split; assumption.
  - destruct (Hscan
                [(Scenarios.C, [("out", "/out/sub-1/file/file.txt")%string])]
                [Scenarios.Sink] eq_refl) as [Hall Hfrom].
    eexists _, _. split; [reflexivity|]. split.
    + apply (Hall Scenarios.Sink (Scenarios.C, Scenarios.Sink)
               ("out", "file")%string "/out/sub-1/file/file.txt"%string).
      * simpl. auto.
      * reflexivity.
      * simpl. auto.
      * simpl. auto.
      * reflexivity.
    + apply Hfrom. reflexivity.
Defined.

(** ** Storage faults (lines 16-26 and 167) *)

Section Faults.
Variable E : environment.

Lemma first_fault_app (ps qs : list string) :
  first_fault E (ps ++ qs) =
  match first_fault E ps with
  | Some e => Some e
  | None => first_fault E qs
  end.
Proof.
  induction ps as [|p ps IH]; simpl; [reflexivity|].
  destruct (list_files E p None); auto.
Qed.

Lemma first_fault_In (ps : list string) (e : exn) :
  first_fault E ps = Some e ->
  exists p, In p ps /\ list_files E p None = Raise e.
Proof.
  induction ps as [|p ps IH]; simpl; [discriminate|].
  destruct (list_files E p None) as [files|e'] eqn:Hp.
  - intros H. destruct (IH H) as (q & Hq & Hf). eauto.
  - intros [= ->]. eauto.
Qed.

Lemma fault_first_fault (ps : list string) (p : string) (e : exn) :
  In p ps -> list_files E p None = Raise e ->
  exists e', first_fault E ps = Some e'.
Proof.
  induction ps as [|q ps IH]; simpl; [easy|].
  intros [->|Hin] Hp.
  - rewrite Hp. eauto.
  - destruct (list_files E q None); eauto.
Qed.

(** A loop whose iterations fail exactly on the first fault of their own
    queries fails exactly on the first fault of all the queries. *)
Lemma for_each_fault {A S : Type} (probe : A -> list string)
  (body : A -> S -> result S) (xs : list A) :
  (forall x s, In x xs ->
               match first_fault E (probe x) with
               | Some e => body x s = Raise e
               | None => exists s', body x s = Ok s'
               end) ->
  forall s,
    match first_fault E (flat_map probe xs) with
    | Some e => for_each xs body s = Raise e
    | None => exists s', for_each xs body s = Ok s'
    end.
Proof.
  induction xs as [|x xs IH]; intros Hbody s; simpl.
  - eauto.
  - rewrite first_fault_app.
    pose proof (Hbody x s (or_introl eq_refl)) as Hx.
    destruct (first_fault E (probe x)) as [e|].
    + now rewrite Hx.
    + destruct Hx as (s' & ->). simpl.
      apply IH. intros y t Hy. apply Hbody. now right.
Qed.

Lemma flat_map_singleton {A B : Type} (f : A -> B) (xs : list A) :
  flat_map (fun x => [f x]) xs = map f xs.
Proof. induction xs; simpl; congruence. Qed.

Variable g : digraph.
Variables output_dir container : option string.

Lemma scan_fault :
  match first_fault E (probed_paths E g output_dir container) with
  | Some e => scan E g output_dir container = Raise e
  | None => exists st, scan E g output_dir container = Ok st
  end.
Proof.
  unfold scan, probed_paths.
  apply for_each_fault. intros datasink [r dels] _.
  unfold scan_datasink.
  pose proof (for_each_fault
                (fun inp : node * node =>
                   map (fun c : connection =>
                          datasink_path E output_dir container datasink (snd c))
                     (get_edge_data g (fst inp) (snd inp)))
                (scan_in_edge E g output_dir container datasink)
                (in_edges g datasink)) as Hin.
  match type of Hin with ?P -> _ => assert (Hb : P) end.
  { intros [src dst] s _. unfold scan_in_edge. simpl fst; simpl snd.
    rewrite <- flat_map_singleton.
    apply for_each_fault. intros [f d] t _. cbv beta.
    rewrite scan_connection_eq. simpl.
    destruct (list_files E _ None) as [files|e]; [|reflexivity].
    destruct (List.length files =? 1); eauto. }
  specialize (Hin Hb r).
  destruct (first_fault E _) as [e|].
  - now rewrite Hin.
  - destruct Hin as (r' & ->). simpl.
    destruct (datasink_cached g r' datasink); eauto.
Qed.

End Faults.

(** C7.  [list_files] returns the empty list, without raising, when the
    location matches no file (nothing under a local directory, no key under
    an S3 prefix); it raises only when the S3 backend does (opening the
    bucket or listing it); and when a listing raises during the scan, the
    exception of the first such listing is what [the_trimmer] raises: no
    workflow and no audit report come back. *)
Theorem list_files_faults_propagate (E : environment) :
  (forall path creds,
      Str.startswith "s3://" path = false ->
      glob E (path ++ "/*")%string = [] ->
      list_files E path creds = Ok [])
  /\
  (forall path creds b,
      Str.startswith "s3://" path = true ->
      return_bucket E creds
        (hd EmptyString (Str.split "/"%char (Str.drop 5 path))) = Ok b ->
      objects_filter E b
        (Str.join "/" (tl (Str.split "/"%char (Str.drop 5 path)))) = Ok [] ->
      list_files E path creds = Ok [])
  /\
  (forall path creds e,
      list_files E path creds = Raise e ->
      Str.startswith "s3://" path = true /\
      (return_bucket E creds
         (hd EmptyString (Str.split "/"%char (Str.drop 5 path))) = Raise e \/
       exists b,
         return_bucket E creds
           (hd EmptyString (Str.split "/"%char (Str.drop 5 path))) = Ok b /\
         objects_filter E b
           (Str.join "/" (tl (Str.split "/"%char (Str.drop 5 path))))
         = Raise e))
  /\
  (forall depth wf output_dir container s3_creds_path p e0,
      In p (probed_paths E (generate_expanded_graph E (create_flat_graph E wf))
              output_dir container) ->
      list_files E p None = Raise e0 ->
      exists q e,
        In q (probed_paths E
                (generate_expanded_graph E (create_flat_graph E wf))
                output_dir container) /\
        list_files E q None = Raise e /\
        the_trimmer E depth wf output_dir container s3_creds_path = Raise e).
Proof.
  repeat split.
  - intros path creds Hlocal Hglob. unfold list_files.
    now rewrite Hlocal, Hglob.
  - intros path creds b Hs3 Hb Hobjs. unfold list_files.
    rewrite Hs3, Hb. unfold bind. now rewrite Hobjs.
  - unfold list_files in H.
    destruct (Str.startswith "s3://" path); [reflexivity|discriminate].
  - unfold list_files in H.
    destruct (Str.startswith "s3://" path); [|discriminate].
    destruct (return_bucket E creds _) as [b|e'] eqn:Hb; simpl in H.
    + right. exists b. split; [reflexivity|].
      destruct (objects_filter E b _) as [objs|e'']; simpl in H; congruence.
    + left. congruence.
  - intros depth wf output_dir container s3_creds_path p e0 Hp Hfault.
    destruct (fault_first_fault E _ _ Hp Hfault) as (e & He).
    destruct (first_fault_In E _ He) as (q & Hq & Hqf).
    exists q, e. repeat split; auto.
    unfold the_trimmer, trim.
    pose proof (scan_fault E (generate_expanded_graph E (create_flat_graph E wf))
                  output_dir container) as Hscan.
    rewrite He in Hscan. now rewrite Hscan.
Qed.

Lemma list_files_faults_propagate_witness :
  list_files (Scenarios.local_env []) "/out/sub-1/file" None = Ok [] /\
  exists q e,
    In q (probed_paths Scenarios.s3_env Scenarios.chain
            (Some "s3://bucket/out"%string) None) /\
    list_files Scenarios.s3_env q None = Raise e /\
    the_trimmer Scenarios.s3_env 100 (mkWorkflow "wf" Scenarios.chain)
      (Some "s3://bucket/out"%string) None None = Raise e.
Proof.
  split.
  - destruct (list_files_faults_propagate (Scenarios.local_env []))
      as (Hlocal & _).
    apply Hlocal; reflexivity.
  - destruct (list_files_faults_propagate Scenarios.s3_env)
      as (_ & _ & _ & Hrun).
    apply (Hrun 100 (mkWorkflow "wf" Scenarios.chain)
             (Some "s3://bucket/out"%string) None None
             "s3://bucket/out/sub-1/file"%string
             (BackendFault "Unable to locate credentials")).
    + simpl. left. reflexivity.
    + reflexivity.
Defined.

(** ** Dropping partially cached producers (lines 185-193) *)

Section Validation.
Variable g : digraph.

Lemma validate_items_changed_size (items : list (node * fields)) (di_used : nat)
  (replacements : replacements_t) :
  List.length replacements <> di_used ->
  validate_items g items di_used replacements
  = Raise (RuntimeError "dictionary changed size during iteration").
Proof.
  intros H. apply Nat.eqb_neq in H.
  destruct items as [|[n cf] rest]; simpl; now rewrite H.
Qed.

Lemma validate_items_eq (items : list (node * fields))
  (replacements : replacements_t) :
  (forall n cf, In (n, cf) items ->
                PyDict.contains node_eqb n replacements = true) ->
  validate_items g items (List.length replacements) replacements =
  if existsb (fun item => has_uncached_field g (fst item) (snd item)) items
  then Raise (RuntimeError "dictionary changed size during iteration")
  else Ok replacements.
Proof.
  induction items as [|[n cf] rest IH]; intros Hkeys; simpl;
    rewrite Nat.eqb_refl; simpl; [reflexivity|].
  destruct (has_uncached_field g n cf) eqn:Hn; simpl.
  - apply validate_items_changed_size.
    pose proof (length_del_contains node_eqb n replacements
                  (Hkeys n cf (or_introl eq_refl))).
    lia.
  - apply IH. intros m cf' Hm. apply (Hkeys m cf'). now right.
Qed.

Lemma validate_eq (replacements : replacements_t) :
  validate g replacements =
  if existsb (fun item => has_uncached_field g (fst item) (snd item))
       replacements
  then Raise (RuntimeError "dictionary changed size during iteration")
  else Ok replacements.
Proof.
  unfold validate. apply validate_items_eq.
  intros n cf. apply (In_contains node_eqb node_eqb_eq).
Qed.

Lemma validate_Ok (replacements validated : replacements_t) :
  validate g replacements = Ok validated -> validated = replacements.
Proof.
  rewrite validate_eq. destruct (existsb _ _); congruence.
Qed.

End Validation.

(** C1.  What the code does at a producer whose outgoing field mappings are
    not all in the raw map: it deletes the producer's entry from the
    dictionary it is iterating, and the next step of the iteration raises
    [RuntimeError].  So validation returns the raw map unchanged when every
    producer is fully covered and raises as soon as one is not; on case 2 of
    the docstring (warped image cached, transforms needed by an uncached
    branch) [the_trimmer] raises instead of returning the trimmed workflow
    the docstring shows. *)
Theorem validate_raises_on_partially_cached_producer :
  (forall g replacements,
      validate g replacements =
      if existsb (fun item => has_uncached_field g (fst item) (snd item))
           replacements
      then Raise (RuntimeError "dictionary changed size during iteration")
      else Ok replacements)
  /\
  scan (Scenarios.local_env Scenarios.shared_field_fs) Scenarios.shared_field
    None None
  = Ok ([(Scenarios.registration,
          [("warped_image", "/out/sub-1/warped/warped.nii.gz")%string])],
        [Scenarios.sink_warped])
  /\
  the_trimmer (Scenarios.local_env Scenarios.shared_field_fs) 100
    (mkWorkflow "wf" Scenarios.shared_field) None None None
  = Raise (RuntimeError "dictionary changed size during iteration").
Proof.
  split; [exact validate_eq|]. split; vm_compute; reflexivity.
Qed.

(** C8.  The scan always lists with [s3_creds_path=None] (line 167): for an
    output directory in a bucket that opens only with the caller's
    credentials file, [list_files] with that file finds the cached output,
    yet [the_trimmer] called with that same file fails to open the bucket,
    as it does for any other value of the argument. *)
Theorem scan_lists_without_caller_credentials :
  list_files Scenarios.s3_env "s3://bucket/out/sub-1/file"
    (Some "/home/user/creds.csv"%string)
  = Ok ["s3://s3.Bucket(name='bucket')/out/sub-1/file/file.txt"%string]
  /\
  probed_paths Scenarios.s3_env Scenarios.chain
    (Some "s3://bucket/out"%string) None
  = ["s3://bucket/out/sub-1/file"%string]
  /\
  forall s3_creds_path,
    the_trimmer Scenarios.s3_env 100 (mkWorkflow "wf" Scenarios.chain)
      (Some "s3://bucket/out"%string) None s3_creds_path
    = Raise (BackendFault "Unable to locate credentials").
Proof.
  split; [vm_compute; reflexivity|]. split; [vm_compute; reflexivity|].
  intros s3_creds_path. unfold the_trimmer, trim.
  replace (scan _ _ _ _)
    with (@Raise (list (node * list (string * string)) * list node)
            (BackendFault "Unable to locate credentials"))
    by (vm_compute; reflexivity).
  reflexivity.
Qed.

(** ** Graph operations *)

Lemma has_node_In (g : digraph) (n : node) :
  has_node g n = true <-> In n (nodes g).
Proof.
  unfold has_node. rewrite existsb_exists. split.
  - intros (m & Hm & Heq). apply node_eqb_eq in Heq. now subst.
  - intros H. exists n. split; [assumption|apply node_eqb_refl].
Qed.

Lemma remove_node_Ok (g g' : digraph) (n : node) :
  remove_node g n = Ok g' ->
  In n (nodes g) /\
  nodes g' = filter (fun m => negb (node_eqb m n)) (nodes g) /\
  edges g' = filter (fun e => negb (node_eqb (e_src e) n)
                              && negb (node_eqb (e_dst e) n)) (edges g).
Proof.
  unfold remove_node. destruct (has_node g n) eqn:H; [|discriminate].
  intros [= <-]. apply has_node_In in H. auto.
Qed.

Lemma remove_node_absent (g g' : digraph) (n : node) :
  remove_node g n = Ok g' -> absent g' n.
Proof.
  intros H. apply remove_node_Ok in H as (_ & Hn & He). split.
  - rewrite Hn, filter_In. intros [_ H]. now rewrite node_eqb_refl in H.
  - intros e. rewrite He, filter_In. intros [_ H].
    apply andb_prop in H as [H1 H2].
    apply negb_true_iff in H1, H2. now apply node_eqb_neq in H1, H2.
Qed.

Lemma remove_node_keeps_absent (g g' : digraph) (n d : node) :
  absent g d -> remove_node g n = Ok g' -> absent g' d.
Proof.
  intros [Hd He] H. apply remove_node_Ok in H as (_ & Hn & Hedges). split.
  - rewrite Hn, filter_In. tauto.
  - intros e. rewrite Hedges, filter_In. intros [H _]. auto.
Qed.

Lemma add_node_absent (g : digraph) (n d : node) :
  absent g d -> n <> d -> absent (add_node g n) d.
Proof.
  intros [Hd He] Hne. unfold add_node.
  destruct (has_node g n); split; auto; simpl.
  rewrite in_app_iff. simpl. intros [H|[H|[]]]; auto.
Qed.

Lemma In_set_connect (es : list edge) (u v : node) (c : list connection)
  (e : edge) :
  In e (set_connect es u v c) -> e = (u, v, c) \/ In e es.
Proof.
  induction es as [|e0 es IH]; simpl.
  - intros [H|[]]; auto.
  - destruct (node_eqb (e_src e0) u && node_eqb (e_dst e0) v); simpl.
    + intros [H|H]; auto.
    + intros [H|H]; auto. destruct (IH H); auto.
Qed.

Lemma add_edge_absent (g : digraph) (u v d : node) (c : list connection) :
  absent g d -> u <> d -> v <> d -> absent (add_edge g u v c) d.
Proof.
  intros Ha Hu Hv.
  assert (H1 : absent (add_node (add_node g u) v) d)
    by (apply add_node_absent; [apply add_node_absent|]; assumption).
  destruct H1 as [Hn He]. unfold add_edge. split; simpl; [assumption|].
  intros e H. apply In_set_connect in H as [->|H]; auto.
Qed.

Lemma successors_Ok (g : digraph) (n : node) (l : list node) :
  successors g n = Ok l ->
  forall m, In m l -> exists e, In e (edges g) /\ e_src e = n /\ e_dst e = m.
Proof.
  unfold successors. destruct (has_node g n); [|discriminate].
  intros [= <-] m. unfold out_edges. rewrite map_map, in_map_iff.
  intros (e & <- & He). apply filter_In in He as [He Hsrc].
  apply node_eqb_eq in Hsrc. exists e. auto.
Qed.

Lemma remove_nodes_absent (deletions : list node) (g g' : digraph) :
  remove_nodes deletions g = Ok g' ->
  forall d, In d deletions -> absent g' d.
Proof.
  unfold remove_nodes.
  apply (for_each_establishes (fun d g => absent g d)).
  - intros x s s' _. apply remove_node_absent.
  - intros x y s s' _ Hx. now apply remove_node_keeps_absent.
Qed.

Lemma remove_nodes_subset (deletions : list node) (g g' : digraph) :
  remove_nodes deletions g = Ok g' ->
  forall d, In d deletions -> In d (nodes g).
Proof.
  unfold remove_nodes. revert g.
  induction deletions as [|x xs IH]; intros g Hrun d Hd; [easy|].
  simpl in Hrun. apply bind_Ok_inv in Hrun as (g1 & Hx & Hrest).
  apply remove_node_Ok in Hx as (Hin & Hn & _).
  destruct Hd as [->|Hd]; [assumption|].
  specialize (IH g1 Hrest d Hd). rewrite Hn in IH.
  now apply filter_In in IH.
Qed.

Lemma uid_lt_fresh (g : digraph) (n : node) :
  In n (nodes g) -> uid n < fresh_uid g.
Proof.
  unfold fresh_uid. induction (nodes g) as [|m l IH]; simpl; [easy|].
  intros [->|H]; [lia|]. specialize (IH H). lia.
Qed.

(** ** The rewriting keeps removed nodes out (lines 219-264) *)

Section DictMembers.
Variables K V : Type.
Variable eqb : K -> K -> bool.
Hypothesis eqb_eq : forall a b, eqb a b = true <-> a = b.

Lemma In_set (k : K) (v : V) (d : PyDict.t K V) (x : K * V) :
  In x (PyDict.set eqb k v d) -> x = (k, v) \/ In x d.
Proof.
  induction d as [|[k' v'] d IH]; simpl.
  - intros [H|[]]; auto.
  - destruct (eqb k k') eqn:Hk; simpl.
    + apply eqb_eq in Hk; subst k'. intros [H|H]; auto.
    + intros [H|H]; auto. destruct (IH H); auto.
Qed.
End DictMembers.

Lemma In_get_or_empty {V : Type} (k : node) (d : PyDict.t node (list V))
  (x : V) :
  In x (get_or_empty k d) -> exists m, In (k, m) d /\ In x m.
Proof.
  unfold get_or_empty.
  destruct (PyDict.get node_eqb k d) as [m|] eqn:H; [|easy].
  apply (get_In node_eqb node_eqb_eq) in H. eauto.
Qed.

Section RewriteInvariant.
Variable s3_creds_path : option string.
Variable d : node.

Lemma mapping_avoids_init (replacement : node) (mapping : mapping_t) :
  mapping_avoids d mapping ->
  mapping_avoids d
    (if PyDict.contains node_eqb replacement mapping then mapping
     else PyDict.set node_eqb replacement [] mapping).
Proof.
  intros H. destruct (PyDict.contains node_eqb replacement mapping); auto.
  intros p m f n Hp Hf.
  apply (In_set node_eqb node_eqb_eq) in Hp as [[= -> ->]|Hp]; [easy|].
  eapply H; eauto.
Qed.

Lemma rewire_connection_inv (replacement to_node : node)
  (cached_files : fields) (c : connection) (st st' : rewrite_state) :
  to_node <> d ->
  rewrite_inv d st ->
  rewire_connection s3_creds_path replacement cached_files to_node c st
  = Ok st' ->
  rewrite_inv d st'.
Proof.
  intros Hto (Habs & Hfresh & Hmap) Hrun.
  destruct c as [from_field to_field]. unfold rewire_connection in Hrun.
  apply bind_Ok_inv in Hrun as (st1 & Hst1 & Hrun).
  pose proof (mapping_avoids_init replacement Hmap) as Hmap1.
  assert (H1 : rewrite_inv d st1).
  { destruct (field_in from_field _) in Hst1.
    - injection Hst1 as <-. split; [|split]; simpl; auto.
    - destruct (PyDict.get String.eqb from_field cached_files)
        as [file_path|]; [|discriminate].
      injection Hst1 as <-. split; [|split]; simpl.
      + apply add_node_absent; auto.
        intros Heq. rewrite <- Heq in Hfresh. simpl in Hfresh. lia.
      + lia.
      + intros p m f n Hp Hf.
        apply (In_set node_eqb node_eqb_eq) in Hp as [[= -> ->]|Hp].
        * apply (In_set String.eqb string_eqb_eq) in Hf as [[= -> ->]|Hf].
          -- intros Heq. rewrite <- Heq in Hfresh. simpl in Hfresh. lia.
          -- apply In_get_or_empty in Hf as (m & Hm & Hf).
             eapply Hmap1; eauto.
        * eapply Hmap1; eauto. }
  destruct H1 as (Habs1 & Hfresh1 & Hmap2).
  destruct (PyDict.get String.eqb from_field
              (get_or_empty replacement (rs_mapping st1)))
    as [input_node|] eqn:Hget; [|discriminate].
  injection Hrun as <-. split; [|split]; simpl; auto.
  apply add_edge_absent; auto.
  apply (get_In String.eqb string_eqb_eq) in Hget.
  apply In_get_or_empty in Hget as (m & Hm & Hf).
  eapply Hmap2; eauto.
Qed.

Lemma rewire_replacement_inv (item : node * fields) (st st' : rewrite_state) :
  rewrite_inv d st ->
  rewire_replacement s3_creds_path item st = Ok st' ->
  rewrite_inv d st'.
Proof.
  intros Hinv Hrun. destruct item as [replacement cached_files].
  unfold rewire_replacement in Hrun.
  apply bind_Ok_inv in Hrun as (outs & Houts & Hrun).
  apply bind_Ok_inv in Hrun as (st1 & Hloop & Hrun).
  apply bind_Ok_inv in Hrun as (g1 & Hrm & Hrun).
  injection Hrun as <-.
  assert (Hto : forall m, In m outs -> m <> d).
  { intros m Hm. destruct (successors_Ok _ _ Houts m Hm) as (e & He & _ & <-).
    destruct Hinv as ((_ & Hedges) & _). now apply Hedges. }
  assert (H1 : rewrite_inv d st1).
  { revert Hloop. apply (for_each_invariant (rewrite_inv d)); auto.
    intros to_node s s' Hin Hs.
    apply (for_each_invariant (rewrite_inv d)); auto.
    intros c t t' _ Ht. apply rewire_connection_inv; auto. }
  destruct H1 as (Habs & Hfresh & Hmap). split; [|split]; simpl; auto.
  eapply remove_node_keeps_absent; eauto.
Qed.

Lemma drop_unused_input_absent (n : node) (g g' : digraph) :
  absent g d -> drop_unused_input n g = Ok g' -> absent g' d.
Proof.
  intros Habs Hrun. unfold drop_unused_input in Hrun.
  apply bind_Ok_inv in Hrun as (outs & _ & Hrun).
  destruct outs; [|now injection Hrun as <-].
  eapply remove_node_keeps_absent; eauto.
Qed.

End RewriteInvariant.

(** The steps of [trim], when it returns. *)
Lemma trim_Ok (E : environment) (g : digraph)
  (output_dir container s3_creds_path : option string) (depth : nat)
  (g' : digraph) (mapping : mapping_t) (deletions : list node) :
  trim E g output_dir container s3_creds_path depth
  = Ok (g', (mapping, deletions)) ->
  exists raw deletions0 g1 st,
    scan E g output_dir container = Ok (raw, deletions0) /\
    validate g raw = Ok raw /\
    prune g depth raw deletions0 = Ok deletions /\
    remove_nodes deletions g = Ok g1 /\
    for_each raw (rewire_replacement s3_creds_path)
      (mkRewrite g1 [] [] (fresh_uid g)) = Ok st /\
    for_each (rs_input_nodes st) drop_unused_input (rs_graph st) = Ok g' /\
    mapping = rs_mapping st.
Proof.
  unfold trim. intros H.
  apply bind_Ok_inv in H as ([raw deletions0] & Hscan & H).
  apply bind_Ok_inv in H as (validated & Hval & H).
  pose proof (validate_Ok _ _ Hval) as ->.
  apply bind_Ok_inv in H as (dels & Hprune & H).
  apply bind_Ok_inv in H as (g1 & Hrm & H).
  apply bind_Ok_inv in H as (st & Hrw & H).
  apply bind_Ok_inv in H as (g2 & Hgc & H).
  injection H as <- <- <-.
  exists raw, deletions0, g1, st. repeat split; auto.
Qed.

(** Every node listed in [deletions] is gone from the trimmed graph. *)
Lemma trim_removes_deletions (E : environment) (g : digraph)
  (output_dir container s3_creds_path : option string) (depth : nat)
  (g' : digraph) (mapping : mapping_t) (deletions : list node) :
  trim E g output_dir container s3_creds_path depth
  = Ok (g', (mapping, deletions)) ->
  forall d, In d deletions -> In d (nodes g) /\ ~ In d (nodes g').
Proof.
  intros H d Hd.
  apply trim_Ok in H
    as (raw & dels0 & g1 & st & _ & _ & _ & Hrm & Hrw & Hgc & _).
  pose proof (remove_nodes_subset _ _ Hrm d Hd) as Hin.
  split; [assumption|].
  assert (Hst : rewrite_inv d st).
  { revert Hrw. apply (for_each_invariant (rewrite_inv d)).
    - intros item s s' _ Hs. now apply rewire_replacement_inv.
    - split; [|split]; simpl.
      + eapply remove_nodes_absent; eauto.
      + now apply uid_lt_fresh.
      + intros p m f n []. }
  destruct Hst as (Habs & _).
  assert (Hfinal : absent g' d).
  { revert Hgc. apply (for_each_invariant (fun g => absent g d)); auto.
    intros n s s' _ Hs. now apply drop_unused_input_absent. }
  apply Hfinal.
Qed.

(** ** DataSinks and the deletion list *)

Section Deletions.
Variable E : environment.
Variable g : digraph.
Variables output_dir container : option string.

Lemma scan_datasink_keeps (datasink d : node)
  (st st' : replacements_t * list node) :
  scan_datasink E g output_dir container datasink st = Ok st' ->
  In d (snd st) -> In d (snd st').
Proof.
  destruct st as [r dels], st' as [r' dels']. intros H.
  apply scan_datasink_inv in H as [_ ->]. simpl.
  destruct (datasink_cached g r' datasink); auto.
  rewrite in_app_iff; auto.
Qed.

Lemma scan_deletes_unconnected (raw : replacements_t) (dels : list node)
  (datasink : node) :
  scan E g output_dir container = Ok (raw, dels) ->
  In datasink (execnodes g) ->
  in_edges g datasink = [] ->
  In datasink dels.
Proof.
  unfold scan. intros H Hds. change dels with (snd (raw, dels)). revert Hds.
  apply (for_each_establishes
           (fun x (st : replacements_t * list node) =>
              in_edges g x = [] -> In x (snd st))
           (execnodes g)
           (scan_datasink E g output_dir container))
    with (s := ([], [])); auto.
  - intros x [r ds0] [r' ds'] _ Hstep Hin.
    apply scan_datasink_inv in Hstep as [_ ->].
    unfold datasink_cached. rewrite Hin. simpl.
    rewrite in_app_iff; simpl; auto.
  - intros x y s s' _ Hx Hstep Hin.
    eapply scan_datasink_keeps; eauto.
Qed.

Lemma prune_keeps (depth : nat) (r : replacements_t) (dels dels' : list node) :
  prune g depth r dels = Ok dels' ->
  forall d, In d dels -> In d dels'.
Proof.
  unfold prune. intros H d Hd. revert H.
  apply (for_each_invariant (fun l => In d l)); auto.
  intros [n cf] s s' _ Hs Hstep.
  apply bind_Ok_inv in Hstep as (pruned & _ & [= <-]).
  rewrite in_app_iff; auto.
Qed.

End Deletions.

(** C10.  A DataSink of the execution graph that has no incoming edge is put
    on the deletion list by the scan, whatever the listings return (the
    check over its incoming edges is over an empty sequence; the scan
    completes whenever no listing raises), and whenever [the_trimmer]
    returns, that DataSink is on the returned deletion list and is not a
    node of the trimmed graph. *)
Theorem unconnected_datasink_is_deleted (E : environment) (depth : nat)
  (wf : workflow) (output_dir container s3_creds_path : option string)
  (datasink : node) :
  let execgraph := generate_expanded_graph E (create_flat_graph E wf) in
  In datasink (nodes execgraph) ->
  is_datasink datasink = true ->
  in_edges execgraph datasink = [] ->
  (first_fault E (probed_paths E execgraph output_dir container) = None ->
   exists raw deletions,
     scan E execgraph output_dir container = Ok (raw, deletions)) /\
  (forall raw deletions,
      scan E execgraph output_dir container = Ok (raw, deletions) ->
      In datasink deletions) /\
  (forall wf_new mapping deletions,
      the_trimmer E depth wf output_dir container s3_creds_path
      = Ok (wf_new, (mapping, deletions)) ->
      In datasink deletions /\ ~ In datasink (nodes (wf_graph wf_new))).
Proof.
  intros execgraph Hnode Hsink Hin.
  assert (Hexec : In datasink (execnodes execgraph))
    by (apply filter_In; auto).
  split; [|split].
  - intros Hnone. pose proof (scan_fault E execgraph output_dir container) as H.
    rewrite Hnone in H. destruct H as ([raw dels] & H). eauto.
  - intros raw dels Hscan. eapply scan_deletes_unconnected; eauto.
  - intros wf_new mapping dels Hrun. unfold the_trimmer in Hrun.
    apply bind_Ok_inv in Hrun as ([g' [m ds]] & Htrim & [= <- <- <-]).
    fold execgraph in Htrim. simpl.
    assert (Hd : In datasink ds).
    { destruct (trim_Ok _ _ _ _ _ _ Htrim)
        as (raw & dels0 & _ & _ & Hscan & _ & Hprune & _).
      eapply prune_keeps; eauto.
      eapply scan_deletes_unconnected; eauto. }
    split; [assumption|].
    now apply (trim_removes_deletions _ _ _ _ _ _ Htrim datasink).
Qed.

Lemma unconnected_datasink_is_deleted_witness :
  exists wf_new mapping deletions,
    the_trimmer (Scenarios.local_env []) 0 (mkWorkflow "wf" Scenarios.lone_sink)
      None None None = Ok (wf_new, (mapping, deletions)) /\
    In Scenarios.Sink deletions /\
    ~ In Scenarios.Sink (nodes (wf_graph wf_new)).
Proof.
  destruct (@unconnected_datasink_is_deleted (Scenarios.local_env []) 0
              (mkWorkflow "wf" Scenarios.lone_sink) None None None
              Scenarios.Sink (or_introl eq_refl) eq_refl eq_refl)
    as (_ & _ & Hrun).
  exists (mkWorkflow "wf_trimmed" (mkGraph [] [])), [], [Scenarios.Sink].
  split; [reflexivity|].
  exact (Hrun (mkWorkflow "wf_trimmed" (mkGraph [] [])) [] [Scenarios.Sink]
           eq_refl).
Defined.

(** ** Nothing cached, nothing trimmed *)

Lemma for_each_unchanged {A S : Type} (xs : list A) (body : A -> S -> result S)
  (s : S) :
  (forall x, In x xs -> body x s = Ok s) -> for_each xs body s = Ok s.
Proof.
  induction xs as [|x xs IH]; intros H; simpl; [reflexivity|].
  rewrite (H x (or_introl eq_refl)). simpl. apply IH.
  intros y Hy. apply H. now right.
Qed.

Lemma In_probed_paths (E : environment) (g : digraph)
  (output_dir container : option string) (datasink : node)
  (inp : node * node) (c : connection) :
  In datasink (execnodes g) ->
  In inp (in_edges g datasink) ->
  In c (get_edge_data g (fst inp) (snd inp)) ->
  In (datasink_path E output_dir container datasink (snd c))
     (probed_paths E g output_dir container).
Proof.
  intros Hds Hinp Hc. unfold probed_paths.
  apply in_flat_map. exists datasink. split; [assumption|].
  apply in_flat_map. exists inp. split; [assumption|].
  apply in_map_iff. exists c. auto.
Qed.

Lemma datasink_cached_empty (g : digraph) (datasink : node) :
  in_edges g datasink <> [] -> datasink_cached g [] datasink = false.
Proof.
  unfold datasink_cached. destruct (in_edges g datasink) as [|[src dst] l];
    [congruence|].
  intros _. simpl.
  replace (existsb _ (get_edge_data g src dst)) with false; [reflexivity|].
  symmetry. induction (get_edge_data g src dst) as [|[f d] cs IH]; auto.
Qed.

Lemma scan_nothing_cached (E : environment) (g : digraph)
  (output_dir container : option string) :
  (forall p, In p (probed_paths E g output_dir container) ->
             exists files, list_files E p None = Ok files /\
                           List.length files <> 1) ->
  (forall datasink, In datasink (execnodes g) -> in_edges g datasink <> []) ->
  scan E g output_dir container = Ok ([], []).
Proof.
  intros Hprobe Hedges. unfold scan.
  apply for_each_unchanged. intros datasink Hds. unfold scan_datasink.
  rewrite for_each_unchanged.
  - simpl. now rewrite datasink_cached_empty by auto.
  - intros [src dst] Hinp. unfold scan_in_edge.
    apply for_each_unchanged. intros [f d] Hc.
    rewrite scan_connection_eq.
    destruct (Hprobe _ (In_probed_paths E g output_dir container
                          datasink (src, dst) (f, d) Hds Hinp Hc))
      as (files & Hfiles & Hlen).
    simpl in Hfiles. rewrite Hfiles.
    apply Nat.eqb_neq in Hlen. now rewrite Hlen.
Qed.

(** C4 (amended).  If no location the scan queries lists exactly one file
    and every DataSink of the execution graph has at least one incoming
    edge, [the_trimmer] returns the execution graph as it is, with an empty
    replacement mapping and an empty deletion list. *)
Theorem nothing_cached_nothing_trimmed (E : environment) (depth : nat)
  (wf : workflow) (output_dir container s3_creds_path : option string) :
  let execgraph := generate_expanded_graph E (create_flat_graph E wf) in
  (forall p, In p (probed_paths E execgraph output_dir container) ->
             exists files, list_files E p None = Ok files /\
                           List.length files <> 1) ->
  (forall datasink,
      In datasink (execnodes execgraph) -> in_edges execgraph datasink <> []) ->
  the_trimmer E depth wf output_dir container s3_creds_path
  = Ok (mkWorkflow (wf_name wf ++ "_trimmed") execgraph, ([], [])).
Proof.
  intros execgraph Hprobe Hedges. unfold the_trimmer, trim.
  fold execgraph. rewrite (scan_nothing_cached _ _ _ _ Hprobe Hedges).
  reflexivity.
Qed.

Lemma nothing_cached_nothing_trimmed_witness :
  the_trimmer (Scenarios.local_env []) 100 (mkWorkflow "wf" Scenarios.chain)
    None None None
  = Ok (mkWorkflow "wf_trimmed" Scenarios.chain, ([], [])).
Proof.
  apply (@nothing_cached_nothing_trimmed (Scenarios.local_env []) 100
           (mkWorkflow "wf" Scenarios.chain) None None None).
  - simpl. intros p [<-|[]]. exists []. split; [reflexivity|simpl; lia].
  - simpl. intros datasink [<-|[]]. simpl. discriminate.
Defined.

(** C4 fails as stated: with nothing on disk, a DataSink that nothing is
    connected to is removed from the graph. *)
Lemma unconnected_datasink_breaks_no_op :
  (forall derivative_name,
      list_files (Scenarios.local_env [])
        (datasink_path (Scenarios.local_env []) None None Scenarios.Sink
           derivative_name) None = Ok []) /\
  (forall p files,
      In p (probed_paths (Scenarios.local_env []) Scenarios.lone_sink None None) ->
      list_files (Scenarios.local_env []) p None = Ok files ->
      List.length files <> 1) /\
  the_trimmer (Scenarios.local_env []) 100
    (mkWorkflow "wf" Scenarios.lone_sink) None None None
  = Ok (mkWorkflow "wf_trimmed" (mkGraph [] []), ([], [Scenarios.Sink])) /\
  List.length (nodes (mkGraph [] [])) <> List.length (nodes Scenarios.lone_sink).
Proof.
  split; [intros derivative_name; reflexivity|].
  split; [intros p files []|]. split; [reflexivity|]. simpl. lia.
Qed.

(** ** The upstream walk (lines 195-213) *)

Section Walk.
Variable g : digraph.

Lemma in_edges_In (p c c' : node) :
  In (p, c') (in_edges g c) <->
  c' = c /\ exists e, In e (edges g) /\ e_src e = p /\ e_dst e = c.
Proof.
  unfold in_edges. rewrite in_map_iff. split.
  - intros ([[u v] cs] & Heq & He). apply filter_In in He as [He Hd].
    apply node_eqb_eq in Hd. simpl in *. injection Heq as <- <-.
    split; [assumption|]. exists (u, v, cs). auto.
  - intros [-> ([[u v] cs] & He & Hu & Hv)]. unfold e_src, e_dst in *.
    simpl in *. subst. exists (p, c, cs). split; [reflexivity|].
    apply filter_In. split; [assumption|]. apply node_eqb_refl.
Qed.

Lemma only_consumer_spec (p c : node) :
  existsb (fun '(_, outnode) => negb (node_eqb outnode c)) (out_edges g p)
  = false <->
  forall e, In e (out_edges g p) -> snd e = c.
Proof.
  split.
  - intros H [u v] He. simpl.
    destruct (node_eq_dec v c) as [|Hne]; [assumption|].
    assert (Ht : existsb (fun '(_, outnode) => negb (node_eqb outnode c))
                   (out_edges g p) = true).
    { apply existsb_exists. exists (u, v). split; [assumption|].
      apply negb_true_iff. now apply node_eqb_neq. }
    congruence.
  - intros H. apply not_true_is_false. intros Ht.
    apply existsb_exists in Ht as ([u v] & He & Hv).
    apply negb_true_iff, node_eqb_neq in Hv. now apply H in He.
Qed.

Lemma walk_unfold (c q : node) :
  walk g c q <->
  exists p, only_feeds g p c /\ (q = p \/ walk g p q).
Proof.
  split.
  - intros H. destruct H as [p Hp|p q Hp Hq]; eauto.
  - intros (p & Hp & [->|Hq]).
    + now apply walk_pred.
    + now apply walk_up with p.
Qed.

Variable rank : node -> nat.
Hypothesis rank_increases :
  forall e, In e (edges g) -> rank (e_src e) < rank (e_dst e).

Lemma recurse_predecessors_walk (depth : nat) :
  forall c, rank c < depth ->
  exists l, recurse_predecessors depth g c = Ok l /\
            forall q, In q l <-> walk g c q.
Proof.
  induction depth as [|d IH]; intros c Hc; [lia|]. simpl.
  assert (Hloop : forall inps yielded,
             (forall x, In x inps -> In x (in_edges g c)) ->
             exists l,
               for_each inps
                 (fun '(node, _) yielded =>
                    if existsb (fun '(_, outnode) =>
                                  negb (node_eqb outnode c))
                         (out_edges g node)
                    then Ok yielded
                    else
                      upstream <- recurse_predecessors d g node ;;
                      Ok (yielded ++ node :: upstream))
                 yielded = Ok l /\
               forall q, In q l <->
                         In q yielded \/
                         exists p, In (p, c) inps /\
                                   (forall e, In e (out_edges g p) -> snd e = c) /\
                                   (q = p \/ walk g p q)).
  { induction inps as [|[p c'] inps IHl]; intros yielded Hsub; simpl.
    - exists yielded. split; [reflexivity|]. intros q. split; auto.
      intros [H|(p & [] & _)]; assumption.
    - assert (Hpc : In (p, c') (in_edges g c)) by (apply Hsub; now left).
      pose proof Hpc as Hpc'.
      apply in_edges_In in Hpc' as [-> (e & He & Hsrc & Hdst)].
      assert (Hrank : rank p < d).
      { specialize (rank_increases e He). rewrite Hsrc, Hdst in *. lia. }
      assert (Hsub' : forall x, In x inps -> In x (in_edges g c))
        by (intros x Hx; apply Hsub; now right).
      destruct (existsb _ (out_edges g p)) eqn:Hout; simpl.
      + destruct (IHl yielded Hsub') as (l & Hl & Hiff).
        exists l. split; [assumption|]. intros q. rewrite Hiff.
        split; intros [H|(p' & Hin & Hall & Hq)]; auto.
        * right. exists p'. auto.
        * destruct Hin as [[= ->]|Hin].
          -- pose proof (proj2 (only_consumer_spec p' c) Hall). congruence.
          -- right. exists p'. auto.
      + destruct (IH p Hrank) as (up & -> & Hup). simpl.
        destruct (IHl (yielded ++ p :: up) Hsub') as (l & Hl & Hiff).
        exists l. split; [assumption|]. intros q. rewrite Hiff.
        rewrite in_app_iff. simpl. rewrite Hup.
        pose proof (proj1 (only_consumer_spec p c) Hout) as Hp.
        split.
        * intros [[H|[H|H]]|(p' & Hin & Hall & Hq)]; auto.
          -- right. exists p. auto.
          -- right. exists p. auto.
          -- right. exists p'. auto.
        * intros [H|(p' & [[= ->]|Hin] & Hall & [Hq|Hq])]; auto.
          -- right. exists p'. auto.
          -- right. exists p'. auto. }
  destruct (Hloop (in_edges g c) [] (fun x H => H)) as (l & Hl & Hiff).
  exists l. split; [assumption|]. intros q.
  rewrite Hiff, walk_unfold. unfold only_feeds. split.
  - intros [[]|(p & Hin & Hall & Hq)]. exists p. auto.
  - intros (p & [Hin Hall] & Hq). right. exists p. auto.
Qed.

Lemma prune_walk (depth : nat) (replacements : replacements_t) :
  forall deletions,
    (forall item, In item replacements -> rank (fst item) < depth) ->
    exists deletions',
      prune g depth replacements deletions = Ok deletions' /\
      forall q, In q deletions' <->
                In q deletions \/
                exists item, In item replacements /\ walk g (fst item) q.
Proof.
  unfold prune.
  induction replacements as [|[n cf] rest IH]; intros dels Hrank; simpl.
  - exists dels. split; [reflexivity|]. intros q. split; auto.
    intros [H|(item & [] & _)]; assumption.
  - assert (Hn : rank n < depth) by apply (Hrank (n, cf) (or_introl eq_refl)).
    destruct (recurse_predecessors_walk Hn) as (pruned & -> & Hpruned).
    simpl.
    destruct (IH (dels ++ pruned)
                (fun item H => Hrank item (or_intror H)))
      as (dels' & Hrun & Hiff).
    exists dels'. split; [assumption|]. intros q.
    rewrite Hiff, in_app_iff, Hpruned. split.
    + intros [[H|H]|(item & Hin & Hw)]; auto.
      * right. exists (n, cf). auto.
      * right. exists item. auto.
    + intros [H|(item & [<-|Hin] & Hw)]; auto.
      right. exists item. auto.
Qed.

Lemma walk_single_consumer (c q : node) :
  walk g c q -> exists t, forall e, In e (out_edges g q) -> snd e = t.
Proof.
  induction 1 as [c p [_ Hp]|c p q _ _ IH]; eauto.
Qed.

End Walk.

(** C3 (amended).  In a graph whose edges go up a ranking and within the
    recursion depth, the walk from a node [c] yields exactly the nodes
    reached from [c] by going upstream through predecessors each of which
    has all its outgoing edges on the one node the walk came from; the
    deletion list after pruning is the list before it plus the walks from
    the validated producers; and so every pruned node has a single
    consumer: a node feeding two distinct nodes is never pruned. *)
Theorem pruning_walk_follows_single_consumers (g : digraph)
  (rank : node -> nat) (depth : nat) :
  (forall e, In e (edges g) -> rank (e_src e) < rank (e_dst e)) ->
  (forall c, rank c < depth ->
             exists l, recurse_predecessors depth g c = Ok l /\
                       forall q, In q l <-> walk g c q)
  /\
  (forall replacements deletions,
      (forall item : node * fields,
          In item replacements -> rank (fst item) < depth) ->
      exists deletions',
        prune g depth replacements deletions = Ok deletions' /\
        forall q, In q deletions' <->
                  In q deletions \/
                  exists item, In item replacements /\ walk g (fst item) q)
  /\
  (forall c q, walk g c q ->
               exists t, forall e, In e (out_edges g q) -> snd e = t).
Proof.
  intros Hrank. split; [|split].
  - intros c Hc. now apply recurse_predecessors_walk with (rank := rank).
  - intros replacements deletions Hr.
    now apply prune_walk with (rank := rank).
  - apply walk_single_consumer.
Qed.

Lemma pruning_walk_follows_single_consumers_witness :
  exists l, recurse_predecessors 100 Scenarios.chain Scenarios.C = Ok l /\
            forall q, In q l <-> walk Scenarios.chain Scenarios.C q.
Proof.
  assert (Hrank : forall e, In e (edges Scenarios.chain) ->
                            uid (e_src e) < uid (e_dst e)).
  { intros e [<-|[<-|[<-|[]]]]; simpl; lia. }
  destruct (@pruning_walk_follows_single_consumers Scenarios.chain uid 100 Hrank)
    as (Hwalk & _).
  apply Hwalk. simpl. lia.
Defined.

(** C3 fails as stated: [P] feeds [B1] and [B2], both of which are pruned,
    and has no other consumer, yet [P] is not pruned and stays in the
    trimmed graph. *)
Lemma shared_ancestor_of_pruned_nodes_is_kept :
  exists wf_new mapping deletions,
    the_trimmer (Scenarios.local_env Scenarios.diamond_fs) 100
      (mkWorkflow "wf" Scenarios.diamond) None None None
    = Ok (wf_new, (mapping, deletions)) /\
    out_edges Scenarios.diamond Scenarios.P
    = [(Scenarios.P, Scenarios.B1); (Scenarios.P, Scenarios.B2)] /\
    Scenarios.B1 <> Scenarios.B2 /\
    In Scenarios.B1 deletions /\ In Scenarios.B2 deletions /\
    ~ In Scenarios.P deletions /\
    In Scenarios.P (nodes (wf_graph wf_new)).
Proof.
  exists (mkWorkflow "wf_trimmed" (mkGraph [Scenarios.P] [])), [],
    [Scenarios.Sink1; Scenarios.Sink2; Scenarios.B1; Scenarios.B2].
  split; [vm_compute; reflexivity|].
  split; [vm_compute; reflexivity|].
  split; [discriminate|].
  split; [simpl; auto|]. split; [simpl; auto|].
  split; [|simpl; auto].
  intros [H|[H|[H|[H|[]]]]]; discriminate H.
Qed.

(** ** When a DataSink is deleted (lines 174-183) *)



Lemma candidate_contains (r : replacements_t) (src : node) (f : string) :
  candidate r src f <> None -> PyDict.contains node_eqb src r = true.
Proof.
  unfold candidate, PyDict.contains.
  destruct (PyDict.get node_eqb src r); congruence.
Qed.







(** ** The chain of the docstring *)

Section Chain.
Variable E : environment.
Variables a b c s : node.
Variables ab bc : list connection.
Variables f d file : string.
Variables output_dir container s3_creds_path : option string.
Hypothesis Hab : a <> b.
Hypothesis Hac : a <> c.
Hypothesis Has : a <> s.
Hypothesis Hbc : b <> c.
Hypothesis Hbs : b <> s.
Hypothesis Hcs : c <> s.
Hypothesis Ha : is_datasink a = false.
Hypothesis Hb : is_datasink b = false.
Hypothesis Hc : is_datasink c = false.
Hypothesis Hs : is_datasink s = true.
Hypothesis Hfile :
  list_files E (datasink_path E output_dir container s d) None = Ok [file].

Local Arguments node_eqb : simpl never.
Local Arguments datasink_path : simpl never.
Local Arguments list_files : simpl never.
Local Arguments String.eqb : simpl never.

Ltac eqb :=
  repeat first
    [ rewrite node_eqb_refl
    | rewrite (proj2 (node_eqb_neq _ _) Hab)
    | rewrite (proj2 (node_eqb_neq _ _) Hac)
    | rewrite (proj2 (node_eqb_neq _ _) Has)
    | rewrite (proj2 (node_eqb_neq _ _) Hbc)
    | rewrite (proj2 (node_eqb_neq _ _) Hbs)
    | rewrite (proj2 (node_eqb_neq _ _) Hcs)
    | rewrite (proj2 (node_eqb_neq _ _) (not_eq_sym Hab))
    | rewrite (proj2 (node_eqb_neq _ _) (not_eq_sym Hac))
    | rewrite (proj2 (node_eqb_neq _ _) (not_eq_sym Has))
    | rewrite (proj2 (node_eqb_neq _ _) (not_eq_sym Hbc))
    | rewrite (proj2 (node_eqb_neq _ _) (not_eq_sym Hbs))
    | rewrite (proj2 (node_eqb_neq _ _) (not_eq_sym Hcs))
    | rewrite String.eqb_refl
    | rewrite Ha | rewrite Hb | rewrite Hc | rewrite Hs | rewrite Hfile
    | progress cbn ].


End Chain.

(** ** The shape of the deletion list (lines 183 and 212-213) *)

Lemma in_order_none (l : list node) : in_order [] l.
Proof. induction l; constructor; assumption. Qed.








(** ** The store *)

Section Store.

Lemma lookup_update_same (l : Heap.loc) (o : Heap.object)
  (h : list Heap.object) :
  l < List.length h -> Heap.lookup l (Heap.update l o h) = Some o.
Proof.
  unfold Heap.lookup. revert l.
  induction h as [|x h IH]; intros [|l] Hl; simpl in *; try lia; auto.
  apply IH. lia.
Qed.

Lemma lookup_update_other (l l' : Heap.loc) (o : Heap.object)
  (h : list Heap.object) :
  l' <> l -> Heap.lookup l' (Heap.update l o h) = Heap.lookup l' h.
Proof.
  unfold Heap.lookup. revert l l'.
  induction h as [|x h IH]; intros [|l] [|l'] Hne; simpl; auto; try lia.
Qed.

Lemma length_update (l : Heap.loc) (o : Heap.object) (h : list Heap.object) :
  List.length (Heap.update l o h) = List.length h.
Proof.
  revert l. induction h as [|x h IH]; intros [|l]; simpl; auto.
Qed.

Lemma lookup_Some_lt (l : Heap.loc) (o : Heap.object) (h : list Heap.object) :
  Heap.lookup l h = Some o -> l < List.length h.
Proof.
  unfold Heap.lookup. intros H. apply nth_error_Some. congruence.
Qed.

Lemma lookup_app_old (l : Heap.loc) (o : Heap.object) (h : list Heap.object) :
  l < List.length h -> Heap.lookup l (h ++ [o]) = Heap.lookup l h.
Proof. unfold Heap.lookup. intros H. now apply nth_error_app1. Qed.

Lemma lookup_app_new (o : Heap.object) (h : list Heap.object) :
  Heap.lookup (List.length h) (h ++ [o]) = Some o.
Proof.
  unfold Heap.lookup. rewrite nth_error_app2 by lia.
  now rewrite Nat.sub_diag.
Qed.

Lemma extends_refl (h : list Heap.object) : Heap.extends h h.
Proof. split; auto. Qed.

Lemma extends_app (h0 h : list Heap.object) (o : Heap.object) :
  Heap.extends h0 h -> Heap.extends h0 (h ++ [o]).
Proof.
  intros [Hlen Hsame]. split.
  - rewrite length_app. lia.
  - intros l Hl. rewrite lookup_app_old by lia. auto.
Qed.

Lemma extends_update (h0 h : list Heap.object) (l : Heap.loc)
  (o : Heap.object) :
  List.length h0 <= l -> Heap.extends h0 h ->
  Heap.extends h0 (Heap.update l o h).
Proof.
  intros Hl [Hlen Hsame]. split.
  - now rewrite length_update.
  - intros l' Hl'. rewrite lookup_update_other by lia. auto.
Qed.

End Store.

(** ** Rules for the steps over the store *)

Section Triples.
Variable h0 : list Heap.object.

Lemma triple_ret {A : Type} (P : list Heap.object -> Prop) (a : A) :
  Heap.triple h0 P (Heap.ret a) (fun b h => b = a /\ P h).
Proof.
  intros h Hext HP. simpl. split; [assumption|].
  intros b [= <-]. auto.
Qed.

Lemma triple_bind {A B : Type} (P : list Heap.object -> Prop)
  (Q : A -> list Heap.object -> Prop) (R : B -> list Heap.object -> Prop)
  (m : Heap.M A) (k : A -> Heap.M B) :
  Heap.triple h0 P m Q ->
  (forall a, Heap.triple h0 (Q a) (k a) R) ->
  Heap.triple h0 P (Heap.bind m k) R.
Proof.
  intros Hm Hk h Hext HP. unfold Heap.bind.
  destruct (Hm h Hext HP) as [Hext1 HQ].
  destruct (m h) as [h1 [a|e]]; simpl in *.
  - apply Hk; auto.
  - split; [assumption|discriminate].
Qed.

Lemma triple_weaken {A : Type} (P P' : list Heap.object -> Prop)
  (Q Q' : A -> list Heap.object -> Prop) (m : Heap.M A) :
  Heap.triple h0 P m Q ->
  (forall h, P' h -> P h) ->
  (forall a h, Q a h -> Q' a h) ->
  Heap.triple h0 P' m Q'.
Proof.
  intros Hm HP HQ h Hext HP'.
  destruct (Hm h Hext (HP h HP')) as [Hext1 H]. split; auto.
Qed.

Lemma triple_post {A : Type} (P : list Heap.object -> Prop)
  (Q Q' : A -> list Heap.object -> Prop) (m : Heap.M A) :
  Heap.triple h0 P m Q ->
  (forall a h, Q a h -> Q' a h) ->
  Heap.triple h0 P m Q'.
Proof. intros Hm HQ. eapply triple_weaken; eauto. Qed.

Lemma triple_lift {A : Type} (P : list Heap.object -> Prop) (r : result A) :
  Heap.triple h0 P (Heap.lift r) (fun a h => r = Ok a /\ P h).
Proof.
  intros h Hext HP. simpl. split; [assumption|]. intros a ->. auto.
Qed.

Lemma triple_new (P : list Heap.object -> Prop) (o : Heap.object) :
  Heap.triple h0 P (Heap.new o)
    (fun l h => exists h1, P h1 /\ Heap.extends h0 h1 /\
                           h = h1 ++ [o] /\ l = List.length h1).
Proof.
  intros h Hext HP. simpl. split; [now apply extends_app|].
  intros l [= <-]. exists h. auto.
Qed.

Lemma triple_read_graph (P : list Heap.object -> Prop) (l : Heap.loc) :
  Heap.triple h0 P (Heap.read_graph l)
    (fun g h => Heap.lookup l h = Some (Heap.GraphObj g) /\ P h).
Proof.
  intros h Hext HP. unfold Heap.read_graph.
  destruct (Heap.lookup l h) as [[g|name gl]|] eqn:Hl; simpl;
    (split; [assumption|]); try discriminate.
  intros a [= <-]. auto.
Qed.

Lemma triple_read_workflow (P : list Heap.object -> Prop) (l : Heap.loc) :
  Heap.triple h0 P (Heap.read_workflow l)
    (fun w h => Heap.lookup l h = Some (Heap.WorkflowObj (fst w) (snd w)) /\
                P h).
Proof.
  intros h Hext HP. unfold Heap.read_workflow.
  destruct (Heap.lookup l h) as [[g|name gl]|] eqn:Hl; simpl;
    (split; [assumption|]); try discriminate.
  intros a [= <-]. auto.
Qed.

Lemma triple_mutate (P : list Heap.object -> Prop) (l : Heap.loc)
  (f : digraph -> result digraph) :
  List.length h0 <= l ->
  Heap.triple h0 P (Heap.mutate l f)
    (fun _ h => exists h1 g g',
         P h1 /\ Heap.lookup l h1 = Some (Heap.GraphObj g) /\
         f g = Ok g' /\ h = Heap.update l (Heap.GraphObj g') h1).
Proof.
  intros Hl h Hext HP. unfold Heap.mutate.
  destruct (Heap.lookup l h) as [[g|name gl]|] eqn:Hlook; simpl;
    try (split; [assumption|discriminate]).
  destruct (f g) as [g'|e] eqn:Hf; simpl.
  - split; [now apply extends_update|]. intros _ _. exists h, g, g'. auto.
  - split; [assumption|discriminate].
Qed.

Lemma triple_set_graph (P : list Heap.object -> Prop) (w g : Heap.loc) :
  List.length h0 <= w ->
  Heap.triple h0 P (Heap.set_graph w g)
    (fun _ h => exists h1 name old,
         P h1 /\ Heap.lookup w h1 = Some (Heap.WorkflowObj name old) /\
         h = Heap.update w (Heap.WorkflowObj name g) h1).
Proof.
  intros Hw h Hext HP. unfold Heap.set_graph.
  destruct (Heap.lookup w h) as [[gr|name old]|] eqn:Hlook; simpl;
    try (split; [assumption|discriminate]).
  split; [now apply extends_update|]. intros _ _. exists h, name, old. auto.
Qed.

Lemma triple_rewire_in_place (P : list Heap.object -> Prop) (l : Heap.loc)
  (step : rewrite_state -> result rewrite_state) (st : rewrite_state) :
  List.length h0 <= l ->
  Heap.triple h0 P (Heap.rewire_in_place l step st)
    (fun st' h => exists h1 g,
         P h1 /\ Heap.lookup l h1 = Some (Heap.GraphObj g) /\
         step (mkRewrite g (rs_mapping st) (rs_input_nodes st) (rs_fresh st))
         = Ok st' /\
         h = Heap.update l (Heap.GraphObj (rs_graph st')) h1).
Proof.
  intros Hl h Hext HP. unfold Heap.rewire_in_place.
  destruct (Heap.lookup l h) as [[g|name gl]|] eqn:Hlook; simpl;
    try (split; [assumption|discriminate]).
  destruct (step _) as [st'|e] eqn:Hstep; simpl.
  - split; [now apply extends_update|]. intros a [= <-]. exists h, g. auto.
  - split; [assumption|discriminate].
Qed.

(** A loop keeps what each of its iterations keeps. *)
Lemma triple_for_each {A S : Type} (I : S -> list Heap.object -> Prop)
  (xs : list A) (body : A -> S -> Heap.M S) :
  (forall x s, In x xs -> Heap.triple h0 (I s) (body x s) I) ->
  forall s, Heap.triple h0 (I s) (Heap.for_each xs body s) I.
Proof.
  induction xs as [|x xs IH]; intros Hbody s; simpl.
  - apply triple_weaken with (P := I s) (Q := fun b h => b = s /\ I s h);
      [apply triple_ret|auto|].
    intros a h [-> H]. exact H.
  - eapply triple_bind.
    + apply Hbody. now left.
    + intros s'. apply IH. intros y t Hy. apply Hbody. now right.
Qed.

End Triples.

(** ** The store steps follow the steps on graphs *)

Section Simulation.
Variable h0 : list Heap.object.

(** Facts that do not depend on the store move out of a precondition. *)
Lemma triple_pre {A : Type} (P P' : list Heap.object -> Prop) (F : Prop)
  (Q : A -> list Heap.object -> Prop) (m : Heap.M A) :
  (forall h, Heap.extends h0 h -> P h -> F /\ P' h) ->
  (F -> Heap.triple h0 P' m Q) ->
  Heap.triple h0 P m Q.
Proof.
  intros Hpre Hm h Hext HP. destruct (Hpre h Hext HP) as [HF HP'].
  now apply Hm.
Qed.

Lemma triple_exists {A X : Type} (P : X -> list Heap.object -> Prop)
  (Q : A -> list Heap.object -> Prop) (m : Heap.M A) :
  (forall x, Heap.triple h0 (P x) m Q) ->
  Heap.triple h0 (fun h => exists x, P x h) m Q.
Proof. intros Hm h Hext [x HP]. now apply (Hm x). Qed.

(** A loop over the store follows the loop on values when each iteration
    does. *)
Lemma triple_for_each_sim {A S T : Type}
  (R : S -> T -> list Heap.object -> Prop) (xs : list A)
  (body : A -> S -> Heap.M S) (pure : A -> T -> result T) :
  (forall x s t,
      In x xs ->
      Heap.triple h0 (R s t) (body x s)
        (fun s' h => exists t', pure x t = Ok t' /\ R s' t' h)) ->
  forall s t,
    Heap.triple h0 (R s t) (Heap.for_each xs body s)
      (fun s' h => exists t', for_each xs pure t = Ok t' /\ R s' t' h).
Proof.
  induction xs as [|x xs IH]; intros Hbody s t; simpl.
  - apply triple_weaken with (P := R s t) (Q := fun b h => b = s /\ R s t h);
      [apply triple_ret|auto|].
    intros a h [-> H]. eauto.
  - eapply triple_bind; [apply Hbody; now left|].
    intros s'. apply triple_exists. intros t'.
    apply triple_pre with (F := pure x t = Ok t') (P' := R s' t');
      [tauto|].
    intros ->. simpl. apply IH. intros y u v Hy. apply Hbody. now right.
Qed.

Variable l : Heap.loc.
Hypothesis l_fresh : List.length h0 <= l.

Lemma sim_mutate (f : digraph -> result digraph) (g : digraph) :
  Heap.triple h0 (Heap.holds l tt g) (Heap.mutate l f)
    (fun u h => exists g', f g = Ok g' /\ Heap.holds l u g' h).
Proof.
  eapply triple_post; [apply triple_mutate; assumption|].
  intros [] h (h1 & g1 & g' & Hh1 & Hl & Hf & ->).
  unfold Heap.holds in *. rewrite Hh1 in Hl. injection Hl as <-.
  exists g'. split; [assumption|].
  apply lookup_update_same. eapply lookup_Some_lt; eauto.
Qed.

Lemma sim_mutate_loop {A : Type} (f : A -> digraph -> result digraph)
  (xs : list A) (g : digraph) :
  Heap.triple h0 (Heap.holds l tt g)
    (Heap.for_each xs (fun x _ => Heap.mutate l (f x)) tt)
    (fun u h => exists g', for_each xs f g = Ok g' /\ Heap.holds l u g' h).
Proof.
  apply (triple_for_each_sim (Heap.holds l) xs
           (fun x _ => Heap.mutate l (f x)) f).
  intros x [] t _. apply sim_mutate.
Qed.

Lemma rewrite_state_eta (st sp : rewrite_state) :
  rs_mapping st = rs_mapping sp ->
  rs_input_nodes st = rs_input_nodes sp ->
  rs_fresh st = rs_fresh sp ->
  mkRewrite (rs_graph sp) (rs_mapping st) (rs_input_nodes st) (rs_fresh st)
  = sp.
Proof. destruct sp; simpl; intros -> -> ->; reflexivity. Qed.

Lemma sim_rewire_in_place (step : rewrite_state -> result rewrite_state)
  (st sp : rewrite_state) :
  Heap.triple h0 (Heap.tracks l st sp) (Heap.rewire_in_place l step st)
    (fun st' h => exists sp', step sp = Ok sp' /\ Heap.tracks l st' sp' h).
Proof.
  eapply triple_post; [apply triple_rewire_in_place; assumption|].
  intros st' h (h1 & g & (Hm & Hi & Hf & Hl) & Hg & Hstep & ->).
  rewrite Hl in Hg. injection Hg as <-.
  rewrite (rewrite_state_eta _ _ Hm Hi Hf) in Hstep.
  exists st'. split; [assumption|]. repeat split.
  apply lookup_update_same. eapply lookup_Some_lt; eauto.
Qed.

Lemma sim_rewire_replacement (s3_creds_path : option string)
  (item : node * fields) (st sp : rewrite_state) :
  Heap.triple h0 (Heap.tracks l st sp)
    (Heap.rewire_replacement s3_creds_path l item st)
    (fun st' h => exists sp',
         rewire_replacement s3_creds_path item sp = Ok sp' /\
         Heap.tracks l st' sp' h).
Proof.
  destruct item as [replacement cached_files].
  unfold Heap.rewire_replacement, rewire_replacement.
  eapply triple_bind; [apply triple_read_graph|]. intros g.
  apply triple_pre with (F := g = rs_graph sp) (P' := Heap.tracks l st sp).
  { intros h _ [Hl Ht]. split; [|assumption].
    destruct Ht as (_ & _ & _ & Hg). rewrite Hg in Hl. congruence. }
  intros ->.
  eapply triple_bind; [apply triple_lift|]. intros outs.
  apply triple_pre
    with (F := successors (rs_graph sp) replacement = Ok outs)
         (P' := Heap.tracks l st sp); [tauto|].
  intros ->. simpl.
  eapply triple_bind.
  { apply (triple_for_each_sim (Heap.tracks l) outs
             (fun to_node st =>
                Heap.for_each
                  (get_edge_data (rs_graph sp) replacement to_node)
                  (fun c st =>
                     Heap.rewire_in_place l
                       (rewire_connection s3_creds_path replacement
                          cached_files to_node c) st)
                  st)
             (fun to_node st =>
                for_each (get_edge_data (rs_graph sp) replacement to_node)
                  (rewire_connection s3_creds_path replacement cached_files
                     to_node) st)).
    intros to_node s t _.
    apply (triple_for_each_sim (Heap.tracks l)
             (get_edge_data (rs_graph sp) replacement to_node)
             (fun c st =>
                Heap.rewire_in_place l
                  (rewire_connection s3_creds_path replacement
                     cached_files to_node c) st)
             (rewire_connection s3_creds_path replacement cached_files
                to_node)).
    intros c s1 t1 _. apply sim_rewire_in_place. }
  intros st1. apply triple_exists. intros sp1.
  match goal with
  | |- Heap.triple _ (fun h => ?F1 /\ _) _ _ =>
      apply triple_pre
        with (F := F1 /\ rs_mapping st1 = rs_mapping sp1 /\
                   rs_input_nodes st1 = rs_input_nodes sp1 /\
                   rs_fresh st1 = rs_fresh sp1)
             (P' := Heap.holds l tt (rs_graph sp1))
  end.
  { intros h _ (H1 & Hm & Hi & Hf & Hl). repeat split; assumption. }
  intros (-> & Hm & Hi & Hf). simpl.
  eapply triple_bind; [apply sim_mutate|].
  intros u. apply triple_exists. intros g'.
  apply triple_pre
    with (F := remove_node (rs_graph sp1) replacement = Ok g')
         (P' := Heap.holds l u g'); [tauto|].
  intros ->. simpl.
  eapply triple_post; [apply triple_ret|].
  intros a h [-> H]. eexists. split; [reflexivity|].
  unfold Heap.tracks. simpl. auto.
Qed.

End Simulation.

(** [Heap.the_trimmer] touches no object of the store it is started in, and
    what it returns is what [the_trimmer] computes from the workflow. *)
Lemma the_trimmer_triple (E : environment) (depth : nat) (wf : Heap.loc)
  (output_dir container s3_creds_path : option string)
  (h0 : list Heap.object) :
  Heap.triple h0 (fun h => h = h0)
    (Heap.the_trimmer E depth wf output_dir container s3_creds_path)
    (fun res h =>
       exists name gl g0 eg g',
         Heap.lookup wf h0 = Some (Heap.WorkflowObj name gl) /\
         Heap.lookup gl h0 = Some (Heap.GraphObj g0) /\
         List.length h0 <= fst res /\
         List.length h0 <= eg /\
         Heap.lookup (fst res) h
         = Some (Heap.WorkflowObj (name ++ "_trimmed") eg) /\
         Heap.lookup eg h = Some (Heap.GraphObj g') /\
         the_trimmer E depth (mkWorkflow name g0) output_dir container
           s3_creds_path
         = Ok (mkWorkflow (name ++ "_trimmed") g', snd res)).
Proof.
  unfold Heap.the_trimmer.
  (* wf._create_flat_graph() *)
  eapply triple_bind; [apply triple_read_workflow|]. intros [name gl].
  apply triple_pre
    with (F := Heap.lookup wf h0 = Some (Heap.WorkflowObj name gl))
         (P' := fun h => h = h0).
  { intros h _ [H ->]. auto. }
  intros Hwf.
  eapply triple_bind; [apply triple_read_graph|]. intros g0.
  apply triple_pre
    with (F := Heap.lookup gl h0 = Some (Heap.GraphObj g0))
         (P' := fun h => h = h0).
  { intros h _ [H ->]. auto. }
  intros Hgl.
  set (flatg := create_flat_graph E (mkWorkflow name g0)).
  eapply triple_bind; [apply triple_new|]. intros flat.
  apply triple_pre
    with (F := flat = List.length h0)
         (P' := fun h => h = h0 ++ [Heap.GraphObj flatg]).
  { intros h _ (h1 & -> & _ & -> & ->). auto. }
  intros ->.
  (* deepcopy *)
  eapply triple_bind; [apply triple_read_graph|]. intros gflat.
  apply triple_pre
    with (F := gflat = flatg)
         (P' := fun h => h = h0 ++ [Heap.GraphObj flatg]).
  { intros h _ [H ->]. rewrite lookup_app_new in H. split; congruence. }
  intros ->.
  eapply triple_bind; [apply triple_new|]. intros eg.
  apply triple_pre
    with (F := List.length h0 <= eg)
         (P' := Heap.holds eg tt flatg).
  { intros h _ (h1 & -> & _ & -> & ->). split.
    - rewrite length_app. lia.
    - apply lookup_app_new. }
  intros Hfresh.
  (* generate_expanded_graph *)
  eapply triple_bind; [apply (sim_mutate Hfresh)|]. intros [].
  apply triple_exists. intros g.
  apply triple_pre
    with (F := g = generate_expanded_graph E flatg)
         (P' := Heap.holds eg tt g).
  { intros h _ [H1 H2]. split; congruence. }
  intros Hg.
  eapply triple_bind; [apply triple_read_graph|]. intros g_read.
  apply triple_pre with (F := g_read = g) (P' := Heap.holds eg tt g).
  { intros h _ [H1 H2]. unfold Heap.holds in H2. split; congruence. }
  intros ->.
  (* scan, validation, pruning *)
  eapply triple_bind; [apply triple_lift|]. intros [raw dels0].
  apply triple_pre
    with (F := scan E g output_dir container = Ok (raw, dels0))
         (P' := Heap.holds eg tt g); [tauto|].
  intros Hscan.
  eapply triple_bind; [apply triple_lift|]. intros validated.
  apply triple_pre
    with (F := validate g raw = Ok validated)
         (P' := Heap.holds eg tt g); [tauto|].
  intros Hval.
  eapply triple_bind; [apply triple_lift|]. intros dels.
  apply triple_pre
    with (F := prune g depth validated dels0 = Ok dels)
         (P' := Heap.holds eg tt g); [tauto|].
  intros Hprune.
  (* removal of the deletions *)
  eapply triple_bind.
  { apply (sim_mutate_loop Hfresh (fun deletion g => remove_node g deletion)). }
  intros []. apply triple_exists. intros g1.
  apply triple_pre
    with (F := remove_nodes dels g = Ok g1)
         (P' := Heap.tracks eg (mkRewrite g [] [] (fresh_uid g))
                  (mkRewrite g1 [] [] (fresh_uid g))).
  { intros h _ [H1 H2]. split; [exact H1|]. repeat split. exact H2. }
  intros Hrm.
  (* rewiring *)
  eapply triple_bind.
  { apply (triple_for_each_sim (Heap.tracks eg) validated
             (Heap.rewire_replacement s3_creds_path eg)
             (rewire_replacement s3_creds_path)).
    intros item s t _. now apply sim_rewire_replacement. }
  intros st. apply triple_exists. intros sp.
  apply triple_pre
    with (F := for_each validated (rewire_replacement s3_creds_path)
                 (mkRewrite g1 [] [] (fresh_uid g)) = Ok sp /\
               rs_mapping st = rs_mapping sp /\
               rs_input_nodes st = rs_input_nodes sp)
         (P' := Heap.holds eg tt (rs_graph sp)).
  { intros h _ (H1 & Hm & Hi & _ & Hl). auto. }
  intros (Hrw & Hm & Hi).
  (* unused input nodes *)
  eapply triple_bind.
  { apply (sim_mutate_loop Hfresh drop_unused_input). }
  intros []. apply triple_exists. intros g'.
  apply triple_pre
    with (F := for_each (rs_input_nodes st) drop_unused_input (rs_graph sp)
               = Ok g')
         (P' := Heap.holds eg tt g'); [tauto|].
  intros Hgc.
  (* wf.clone *)
  eapply triple_bind; [apply triple_new|]. intros clone_graph.
  apply triple_pre with (F := True) (P' := Heap.holds eg tt g').
  { intros h _ (h1 & Hh & _ & -> & _). split; [exact I|].
    unfold Heap.holds in *. rewrite lookup_app_old; [assumption|].
    eapply lookup_Some_lt; eauto. }
  intros _.
  eapply triple_bind; [apply triple_new|]. intros wf_new.
  apply triple_pre
    with (F := List.length h0 <= wf_new /\ wf_new <> eg)
         (P' := fun h =>
                  Heap.holds eg tt g' h /\
                  Heap.lookup wf_new h
                  = Some (Heap.WorkflowObj (name ++ "_trimmed") clone_graph)).
  { intros h _ (h1 & Hh & [Hlen _] & -> & ->).
    pose proof (lookup_Some_lt _ _ Hh) as Hlt.
    repeat split; try lia.
    - unfold Heap.holds in *. now rewrite lookup_app_old.
    - apply lookup_app_new. }
  intros [Hnew Hne].
  eapply triple_bind; [apply (triple_set_graph _ _ Hnew)|]. intros [].
  apply triple_pre
    with (F := True)
         (P' := fun h =>
                  Heap.lookup eg h = Some (Heap.GraphObj g') /\
                  Heap.lookup wf_new h
                  = Some (Heap.WorkflowObj (name ++ "_trimmed") eg)).
  { intros h _ (h1 & nm & old & [Hh Hw] & Hw' & ->).
    rewrite Hw in Hw'. injection Hw' as <- <-.
    split; [exact I|]. split.
    - rewrite lookup_update_other by auto. exact Hh.
    - apply lookup_update_same. eapply lookup_Some_lt; eauto. }
  intros _.
  eapply triple_post; [apply triple_ret|].
  intros res h [-> [Heg Hw]]. simpl.
  exists name, gl, g0, eg, g'. repeat split; auto.
  unfold the_trimmer, trim. fold flatg. rewrite <- Hg.
  rewrite Hscan. simpl. rewrite Hval. simpl. rewrite Hprune. simpl.
  rewrite Hrm. simpl. rewrite Hrw. simpl. rewrite <- Hi, Hgc. simpl.
  now rewrite Hm.
Qed.

(** C9.  Run on any store of objects, [the_trimmer] leaves every object
    that existed before the call as it was, the caller's workflow and its
    graph among them: the scan reads, and the removals and rewiring write,
    a graph object allocated during the call (the deep copy of the flat
    graph).  When it returns, the workflow it returns is an object that did
    not exist before, distinct from the caller's, whose graph is that new
    graph object, holding the trimmed graph [the_trimmer] computes. *)
Theorem the_trimmer_leaves_the_workflow_unchanged (E : environment)
  (depth : nat) (wf : Heap.loc)
  (output_dir container s3_creds_path : option string)
  (h : list Heap.object) :
  let run :=
    Heap.the_trimmer E depth wf output_dir container s3_creds_path h in
  (forall l, l < List.length h -> Heap.lookup l (fst run) = Heap.lookup l h)
  /\
  (forall wf_new audit,
      snd run = Ok (wf_new, audit) ->
      wf_new <> wf /\
      exists name gl g0 eg g',
        Heap.lookup wf h = Some (Heap.WorkflowObj name gl) /\
        Heap.lookup gl h = Some (Heap.GraphObj g0) /\
        Heap.lookup wf (fst run) = Some (Heap.WorkflowObj name gl) /\
        Heap.lookup gl (fst run) = Some (Heap.GraphObj g0) /\
        List.length h <= wf_new /\
        List.length h <= eg /\
        eg <> gl /\
        Heap.lookup wf_new (fst run)
        = Some (Heap.WorkflowObj (name ++ "_trimmed") eg) /\
        Heap.lookup eg (fst run) = Some (Heap.GraphObj g') /\
        the_trimmer E depth (mkWorkflow name g0) output_dir container
          s3_creds_path
        = Ok (mkWorkflow (name ++ "_trimmed") g', audit)).
Proof.
  intros run.
  destruct (@the_trimmer_triple E depth wf output_dir container s3_creds_path
              h h (extends_refl h) eq_refl) as [[_ Hframe] Hres].
  fold run in Hframe, Hres. split; [exact Hframe|].
  intros wf_new audit Hrun.
  destruct (Hres _ Hrun)
    as (name & gl & g0 & eg & g' & Hwf & Hgl & Hnew & Heg & Hw & Hg & Hpure).
  simpl in Hnew, Hw, Hpure.
  pose proof (lookup_Some_lt _ _ Hwf) as Hwf_lt.
  pose proof (lookup_Some_lt _ _ Hgl) as Hgl_lt.
  split; [lia|].
  exists name, gl, g0, eg, g'.
  rewrite !Hframe by assumption.
  repeat split; auto. lia.
Qed.

Lemma the_trimmer_leaves_the_workflow_unchanged_witness :
  let h := [Heap.GraphObj Scenarios.chain; Heap.WorkflowObj "wf" 0] in
  let run :=
    Heap.the_trimmer (Scenarios.local_env Scenarios.chain_fs) 100 1
      None None None h in
  snd run = Ok (5, ([], [Scenarios.Sink; Scenarios.B; Scenarios.A])) /\
  Heap.lookup 1 (fst run) = Some (Heap.WorkflowObj "wf" 0) /\
  Heap.lookup 0 (fst run) = Some (Heap.GraphObj Scenarios.chain) /\
  Heap.lookup 5 (fst run) = Some (Heap.WorkflowObj "wf_trimmed" 3) /\
  Heap.lookup 3 (fst run) = Some (Heap.GraphObj (mkGraph [] [])).
Proof.
  intros h run.
  destruct (the_trimmer_leaves_the_workflow_unchanged
              (Scenarios.local_env Scenarios.chain_fs) 100 1 None None None h)
    as [Hframe _].
  fold run in Hframe.
  split; [vm_compute; reflexivity|].
  split; [rewrite Hframe by (simpl; lia); reflexivity|].
  split; [rewrite Hframe by (simpl; lia); reflexivity|].
  split; vm_compute; reflexivity.
Defined.

(** ** Well-formed graphs under the graph operations *)

Lemma edge_matches (e : edge) (u v : node) :
  node_eqb (e_src e) u && node_eqb (e_dst e) v = true <-> fst e = (u, v).
Proof.
  destruct e as [[a b] c]. unfold e_src, e_dst. simpl.
  rewrite andb_true_iff, !node_eqb_eq. split.
  - intros [-> ->]. reflexivity.
  - intros [= -> ->]. auto.
Qed.

Lemma set_connect_pairs (es : list edge) (u v : node) (c : list connection) :
  map fst (set_connect es u v c) =
  if existsb (fun e => node_eqb (e_src e) u && node_eqb (e_dst e) v) es
  then map fst es
  else map fst es ++ [(u, v)].
Proof.
  induction es as [|e es IH]; simpl; [reflexivity|].
  destruct (node_eqb (e_src e) u && node_eqb (e_dst e) v) eqn:He; simpl.
  - apply edge_matches in He. now rewrite He.
  - rewrite IH. destruct (existsb _ es); reflexivity.
Qed.

Lemma wf_remove_node (g g' : digraph) (n : node) :
  well_formed g -> remove_node g n = Ok g' -> well_formed g'.
Proof.
  intros (Hn & Hp & He) Hrm.
  apply remove_node_Ok in Hrm as (_ & Hnodes & Hedges).
  split; [|split].
  - rewrite Hnodes. now apply NoDup_filter.
  - rewrite Hedges. clear -Hp. induction (edges g) as [|e es IH]; simpl.
    + constructor.
    + inversion Hp as [|? ? Hnotin Hrest]; subst.
      destruct (negb _ && negb _); simpl; auto.
      constructor; auto. intros Hin. apply Hnotin.
      apply in_map_iff in Hin as (e' & Heq & Hin).
      apply filter_In in Hin as [Hin _]. apply in_map_iff. eauto.
  - intros e. rewrite Hedges, Hnodes, !filter_In.
    intros [Hin Hkeep]. apply andb_prop in Hkeep as [H1 H2].
    destruct (He e Hin). auto.
Qed.

Lemma In_add_node (g : digraph) (n x : node) :
  In x (nodes (add_node g n)) <-> In x (nodes g) \/ x = n.
Proof.
  unfold add_node. destruct (has_node g n) eqn:Hn; simpl.
  - apply has_node_In in Hn. split; auto. intros [H| ->]; auto.
  - rewrite in_app_iff. simpl. intuition.
Qed.

Lemma wf_add_node (g : digraph) (n : node) :
  well_formed g -> well_formed (add_node g n).
Proof.
  intros (Hn & Hp & He). split; [|split].
  - unfold add_node. destruct (has_node g n) eqn:Hhas; simpl; auto.
    apply NoDup_app; auto.
    + repeat constructor. intros [].
    + intros x Hx [<-|[]]. apply has_node_In in Hx. congruence.
  - unfold add_node. destruct (has_node g n); assumption.
  - intros e Hin.
    assert (Hin' : In e (edges g))
      by (unfold add_node in Hin; destruct (has_node g n); assumption).
    destruct (He e Hin'). rewrite !In_add_node. auto.
Qed.

Lemma wf_add_edge (g : digraph) (u v : node) (c : list connection) :
  well_formed g -> well_formed (add_edge g u v c).
Proof.
  intros Hwf.
  assert (H1 : well_formed (add_node (add_node g u) v))
    by (apply wf_add_node, wf_add_node, Hwf).
  destruct H1 as (Hn & Hp & He). unfold add_edge.
  split; [|split]; simpl; [assumption| |].
  - rewrite set_connect_pairs.
    destruct (existsb _ _) eqn:Hex; [assumption|].
    apply NoDup_app; auto.
    + repeat constructor. intros [].
    + intros x Hx [<-|[]]. apply in_map_iff in Hx as (e & Heq & Hin).
      assert (existsb (fun e => node_eqb (e_src e) u && node_eqb (e_dst e) v)
                (edges (add_node (add_node g u) v)) = true).
      { apply existsb_exists. exists e. split; [assumption|].
        now apply edge_matches. }
      congruence.
  - intros e Hin. apply In_set_connect in Hin as [->|Hin]; auto.
    unfold e_src, e_dst. simpl. rewrite !In_add_node. auto.
Qed.

Lemma connect_of_In (es : list edge) (u v : node) :
  connect_of es u v = [] \/
  exists e, In e es /\ fst e = (u, v) /\ connect_of es u v = e_connect e.
Proof.
  induction es as [|e es IH]; simpl; [now left|].
  destruct (node_eqb (e_src e) u && node_eqb (e_dst e) v) eqn:He.
  - right. exists e. apply edge_matches in He. auto.
  - destruct IH as [H|(e' & Hin & Hf & Hc)]; [now left|].
    right. exists e'. auto.
Qed.

Lemma connect_of_unique (es : list edge) (e : edge) :
  NoDup (map fst es) -> In e es ->
  connect_of es (e_src e) (e_dst e) = e_connect e.
Proof.
  induction es as [|e0 es IH]; intros Hnd Hin; [easy|]. simpl.
  inversion Hnd as [|? ? Hnotin Hrest]; subst.
  destruct (node_eqb (e_src e0) (e_src e) && node_eqb (e_dst e0) (e_dst e))
    eqn:He.
  - destruct Hin as [->|Hin]; [reflexivity|].
    apply edge_matches in He. exfalso. apply Hnotin.
    rewrite He. apply in_map_iff. exists e. split; [|assumption].
    destruct e as [[a b] c]. reflexivity.
  - destruct Hin as [->|Hin]; [|auto].
    assert (node_eqb (e_src e) (e_src e) && node_eqb (e_dst e) (e_dst e) = true)
      by (now rewrite !node_eqb_refl).
    congruence.
Qed.

(** ** The state of the rewiring (lines 219-258) *)

Lemma edges_add_node (g : digraph) (n : node) :
  edges (add_node g n) = edges g.
Proof. unfold add_node. destruct (has_node g n); reflexivity. Qed.

Lemma In_nodes_add_edge (g : digraph) (u v x : node) (c : list connection) :
  In x (nodes (add_edge g u v c)) <-> In x (nodes g) \/ x = u \/ x = v.
Proof.
  unfold add_edge. simpl. rewrite !In_add_node. tauto.
Qed.

Lemma In_edges_add_edge (g : digraph) (u v : node) (c : list connection)
  (e : edge) :
  In e (edges (add_edge g u v c)) -> e = (u, v, c) \/ In e (edges g).
Proof.
  unfold add_edge. simpl. rewrite !edges_add_node. apply In_set_connect.
Qed.

Section Rewired.
Variable g0 : digraph.
Variable raw : replacements_t.
Variable s3_creds_path : option string.

Lemma rewire_connection_rewired (replacement to_node : node)
  (cached_files : fields) (c : connection) (st st' : rewrite_state) :
  In (replacement, cached_files) raw ->
  In to_node (nodes (rs_graph st)) ->
  uid to_node < fresh_uid g0 ->
  rewired g0 raw s3_creds_path st ->
  rewire_connection s3_creds_path replacement cached_files to_node c st
  = Ok st' ->
  rewired g0 raw s3_creds_path st' /\
  forall x, In x (nodes (rs_graph st)) -> In x (nodes (rs_graph st')).
Proof.
  intros Hitem Hto Hto_old Hinv Hrun.
  destruct c as [from_field to_field]. unfold rewire_connection in Hrun.
  apply bind_Ok_inv in Hrun as (st1 & Hst1 & Hrun).
  destruct Hinv as (HF & Hwf & Hlt & Hold & Hnew & Hdst & Hsrc & Hfile & Hinp
                    & Hmap).
  set (mapping1 :=
         if PyDict.contains node_eqb replacement (rs_mapping st)
         then rs_mapping st
         else PyDict.set node_eqb replacement [] (rs_mapping st)) in *.
  assert (Hmap1 : forall p m f n,
             In (p, m) mapping1 -> In (f, n) m ->
             In n (rs_input_nodes st) /\
             exists cached_files file,
               In (p, cached_files) raw /\
               PyDict.get String.eqb f cached_files = Some file /\
               input_node_for s3_creds_path p f file n).
  { intros p m f n Hp Hf. unfold mapping1 in Hp.
    destruct (PyDict.contains node_eqb replacement (rs_mapping st));
      [eapply Hmap; eauto|].
    apply (In_set node_eqb node_eqb_eq) in Hp as [[= -> ->]|Hp]; [easy|].
    eapply Hmap; eauto. }
  assert (H1 : rewired g0 raw s3_creds_path st1 /\
               forall x, In x (nodes (rs_graph st)) ->
                         In x (nodes (rs_graph st1))).
  { destruct (field_in from_field (get_or_empty replacement mapping1)).
    - injection Hst1 as <-. split; [|auto].
      repeat split; simpl; auto; try apply Hwf; try apply Hinp; auto;
        try (eapply Hmap1; eauto).
    - destruct (PyDict.get String.eqb from_field cached_files)
        as [file_path|] eqn:Hget; [|discriminate].
      injection Hst1 as <-. split;
        [|intros x Hx; simpl; apply In_add_node; auto].
      split; [simpl; lia|]. split; [simpl; now apply wf_add_node|].
      split.
      { simpl. intros x Hx. apply In_add_node in Hx as [Hx| ->].
        - specialize (Hlt x Hx). lia.
        - simpl. lia. }
      split.
      { simpl. intros x Hx Hux. apply In_add_node in Hx as [Hx| ->]; auto.
        simpl in Hux. lia. }
      split.
      { simpl. intros x Hx Hux. rewrite in_app_iff.
        apply In_add_node in Hx as [Hx| ->]; [left; auto|right; now left]. }
      split; [simpl; rewrite edges_add_node; exact Hdst|].
      split; [simpl; rewrite edges_add_node; exact Hsrc|].
      split; [simpl; rewrite edges_add_node; exact Hfile|].
      split.
      { simpl. intros x Hx. apply in_app_iff in Hx as [Hx|[<-|[]]].
        - destruct (Hinp x Hx). lia.
        - simpl. lia. }
      simpl. intros p m f n Hp Hf. rewrite in_app_iff.
      apply (In_set node_eqb node_eqb_eq) in Hp as [[= -> ->]|Hp].
      + apply (In_set String.eqb string_eqb_eq) in Hf as [[= -> ->]|Hf].
        * split; [right; now left|].
          exists cached_files, file_path. repeat split; auto.
        * apply In_get_or_empty in Hf as (m & Hm & Hf).
          destruct (Hmap1 _ _ _ _ Hm Hf) as [Hin Hex]. auto.
      + destruct (Hmap1 _ _ _ _ Hp Hf) as [Hin Hex]. auto. }
  destruct H1 as [Hinv1 Hmono1].
  destruct (PyDict.get String.eqb from_field
              (get_or_empty replacement (rs_mapping st1)))
    as [input_node|] eqn:Hget; [|discriminate].
  injection Hrun as <-.
  destruct Hinv1 as (HF1 & Hwf1 & Hlt1 & Hold1 & Hnew1 & Hdst1 & Hsrc1 & Hfile1
                     & Hinp1 & Hmap2).
  apply (get_In String.eqb string_eqb_eq) in Hget.
  apply In_get_or_empty in Hget as (m & Hm & Hf).
  destruct (Hmap2 _ _ _ _ Hm Hf) as [Hin_inp _].
  destruct (Hinp1 _ Hin_inp) as [Hinp_new Hinp_lt].
  pose proof (Hmono1 _ Hto) as Hto1.
  split; [|intros x Hx; simpl; apply In_nodes_add_edge; auto].
  split; [simpl; lia|]. split; [simpl; now apply wf_add_edge|].
  split.
  { simpl. intros x Hx. apply In_nodes_add_edge in Hx as [Hx|[->| ->]]; auto. }
  split.
  { simpl. intros x Hx Hux.
    apply In_nodes_add_edge in Hx as [Hx|[->| ->]]; auto; lia. }
  split.
  { simpl. intros x Hx Hux.
    apply In_nodes_add_edge in Hx as [Hx|[->| ->]]; auto; lia. }
  split.
  { simpl. intros e He. apply In_edges_add_edge in He as [->|He]; auto. }
  split.
  { simpl. intros e He Hu. apply In_edges_add_edge in He as [->|He]; auto.
    unfold e_src in Hu. simpl in Hu. lia. }
  split.
  { simpl. intros e He Hu. apply In_edges_add_edge in He as [->|He]; auto.
    exists to_field. reflexivity. }
  split; assumption.
Qed.

End Rewired.

Section RewiredSteps.
Variable g0 : digraph.
Variable raw : replacements_t.
Variable s3_creds_path : option string.

Lemma rewired_remove_node (st : rewrite_state) (n : node) (g : digraph) :
  rewired g0 raw s3_creds_path st ->
  remove_node (rs_graph st) n = Ok g ->
  rewired g0 raw s3_creds_path
    (mkRewrite g (rs_mapping st) (rs_input_nodes st) (rs_fresh st)).
Proof.
  intros (HF & Hwf & Hlt & Hold & Hnew & Hdst & Hsrc & Hfile & Hinp & Hmap) Hrm.
  assert (Hwf' : well_formed g) by (eapply wf_remove_node; eauto).
  apply remove_node_Ok in Hrm as (_ & Hnodes & Hedges).
  assert (Hn : forall x, In x (nodes g) -> In x (nodes (rs_graph st)))
    by (intros x; rewrite Hnodes, filter_In; tauto).
  assert (He : forall e, In e (edges g) -> In e (edges (rs_graph st)))
    by (intros e; rewrite Hedges, filter_In; tauto).
  split; [exact HF|]. split; [exact Hwf'|]. simpl.
  split; [intros x Hx; auto|].
  split; [intros x Hx; auto|].
  split; [intros x Hx; auto|].
  split; [intros e Hin; auto|].
  split; [intros e Hin; auto|].
  split; [intros e Hin; auto|].
  split; assumption.
Qed.

Lemma rewired_initial :
  well_formed g0 ->
  rewired g0 raw s3_creds_path (mkRewrite g0 [] [] (fresh_uid g0)).
Proof.
  intros Hwf. pose proof Hwf as (_ & _ & Hends).
  repeat split; simpl; auto; try apply Hwf; try easy.
  - intros x Hx. now apply uid_lt_fresh.
  - intros x Hx Hux. apply uid_lt_fresh in Hx. lia.
  - intros e He. apply uid_lt_fresh. now apply Hends.
  - intros e He Hu. destruct (Hends e He) as [Hs _].
    apply uid_lt_fresh in Hs. lia.
Qed.

Lemma rewired_remove_nodes (deletions : list node) (g1 : digraph) :
  well_formed g0 ->
  remove_nodes deletions g0 = Ok g1 ->
  rewired g0 raw s3_creds_path (mkRewrite g1 [] [] (fresh_uid g0)).
Proof.
  intros Hwf Hrm. unfold remove_nodes in Hrm. revert Hrm.
  apply (for_each_invariant
           (fun g => rewired g0 raw s3_creds_path
                       (mkRewrite g [] [] (fresh_uid g0)))).
  - intros d g g' _ Hinv Hstep.
    apply rewired_remove_node
      with (st := mkRewrite g [] [] (fresh_uid g0)) (n := d); assumption.
  - now apply rewired_initial.
Qed.

Lemma successors_rewired (st : rewrite_state) (n : node) (outs : list node) :
  rewired g0 raw s3_creds_path st ->
  successors (rs_graph st) n = Ok outs ->
  forall to_node, In to_node outs ->
                  In to_node (nodes (rs_graph st)) /\
                  uid to_node < fresh_uid g0.
Proof.
  intros (_ & (_ & _ & Hends) & _ & _ & _ & Hdst & _) Hs to_node Hto.
  destruct (successors_Ok _ _ Hs to_node Hto) as (e & He & _ & <-).
  split; [now apply Hends|now apply Hdst].
Qed.

Lemma rewire_replacement_rewired (item : node * fields)
  (st st' : rewrite_state) :
  In item raw ->
  rewired g0 raw s3_creds_path st ->
  rewire_replacement s3_creds_path item st = Ok st' ->
  rewired g0 raw s3_creds_path st' /\
  absent (rs_graph st') (fst item) /\
  forall x, In x (nodes (rs_graph st)) -> x <> fst item ->
            In x (nodes (rs_graph st')).
Proof.
  intros Hitem Hinv Hrun. destruct item as [replacement cached_files].
  unfold rewire_replacement in Hrun.
  apply bind_Ok_inv in Hrun as (outs & Houts & Hrun).
  apply bind_Ok_inv in Hrun as (st1 & Hloop & Hrun).
  apply bind_Ok_inv in Hrun as (g1 & Hrm & Hrun).
  injection Hrun as <-.
  assert (Hto : forall to_node,
             In to_node outs ->
             In to_node (nodes (rs_graph st)) /\ uid to_node < fresh_uid g0)
    by (eapply successors_rewired; eauto).
  assert (H1 : rewired g0 raw s3_creds_path st1 /\
               forall x, In x (nodes (rs_graph st)) ->
                         In x (nodes (rs_graph st1))).
  { revert Hloop.
    apply (for_each_invariant
             (fun s => rewired g0 raw s3_creds_path s /\
                       forall x, In x (nodes (rs_graph st)) ->
                                 In x (nodes (rs_graph s)))); [|auto].
    intros to_node s s' Hin Hs.
    apply (for_each_invariant
             (fun s => rewired g0 raw s3_creds_path s /\
                       forall x, In x (nodes (rs_graph st)) ->
                                 In x (nodes (rs_graph s)))); [|auto].
    intros c t t' _ [Ht Hmono] Hstep.
    destruct (Hto to_node Hin) as [Hnode Hold].
    assert (H : rewired g0 raw s3_creds_path t' /\
                forall x, In x (nodes (rs_graph t)) ->
                          In x (nodes (rs_graph t')))
      by (eapply rewire_connection_rewired; eauto).
    destruct H as [Ht' Hmono']. split; auto. }
  destruct H1 as [Hinv1 Hmono1].
  split; [now apply rewired_remove_node with (st := st1) (n := replacement)|].
  simpl. split; [eapply remove_node_absent; eauto|].
  intros x Hx Hne. apply remove_node_Ok in Hrm as (_ & -> & _).
  apply filter_In. split; [auto|].
  apply negb_true_iff. now apply node_eqb_neq.
Qed.

Lemma drop_unused_input_rewired (n : node) (st : rewrite_state) (g : digraph) :
  rewired g0 raw s3_creds_path st ->
  drop_unused_input n (rs_graph st) = Ok g ->
  rewired g0 raw s3_creds_path
    (mkRewrite g (rs_mapping st) (rs_input_nodes st) (rs_fresh st)).
Proof.
  intros Hinv Hrun. unfold drop_unused_input in Hrun.
  apply bind_Ok_inv in Hrun as (outs & _ & Hrun).
  destruct outs.
  - now apply rewired_remove_node with (st := st) (n := n).
  - injection Hrun as <-. destruct st; exact Hinv.
Qed.

End RewiredSteps.

(** ** More on loops *)

(** An invariant of the loop state, together with what each iteration
    establishes for its own element under that invariant. *)
Lemma for_each_establishes_under {A S : Type} (I : S -> Prop)
  (Q : A -> S -> Prop) (xs : list A) (body : A -> S -> result S) :
  (forall x s s', In x xs -> I s -> body x s = Ok s' -> I s' /\ Q x s') ->
  (forall x y s s', In y xs -> I s -> Q x s -> body y s = Ok s' -> Q x s') ->
  forall s r, I s -> for_each xs body s = Ok r ->
              I r /\ forall x, In x xs -> Q x r.
Proof.
  induction xs as [|y xs IH]; intros Hest Hkeep s r Hs Hrun; simpl in Hrun.
  - injection Hrun as <-. split; [assumption|easy].
  - apply bind_Ok_inv in Hrun as (s' & Hb & Hrest).
    destruct (Hest y s s' (or_introl eq_refl) Hs Hb) as [Hs' Hy].
    destruct (IH (fun z t t' Hz => Hest z t t' (or_intror Hz))
                 (fun z w t t' Hw => Hkeep z w t t' (or_intror Hw))
                 s' r Hs' Hrest) as [Hr Hall].
    split; [assumption|]. intros x [<-|Hx]; [|auto].
    assert (H : I r /\ Q y r); [|tauto].
    revert Hrest.
    apply (for_each_invariant (fun t => I t /\ Q y t)); [|auto].
    intros z t t' Hz [Ht Hq] Hstep. split.
    + apply (Hest z t t'); simpl; auto.
    + apply (Hkeep y z t t'); simpl; auto.
Qed.

(** When a loop raises, one of its iterations did, from a state the
    invariant holds of. *)
Lemma for_each_Raise {A S : Type} (I : S -> Prop) (xs : list A)
  (body : A -> S -> result S) :
  (forall x s s', In x xs -> I s -> body x s = Ok s' -> I s') ->
  forall s e, I s -> for_each xs body s = Raise e ->
              exists x s0, In x xs /\ I s0 /\ body x s0 = Raise e.
Proof.
  induction xs as [|y xs IH]; intros Hstep s e Hs Hrun; simpl in Hrun;
    [discriminate|].
  destruct (body y s) as [s'|e'] eqn:Hb; simpl in Hrun.
  - destruct (IH (fun z t t' Hz => Hstep z t t' (or_intror Hz)) s' e)
      as (x & s0 & Hx & Hs0 & Hraise); auto.
    + apply (Hstep y s s'); simpl; auto.
    + exists x, s0. simpl. auto.
  - injection Hrun as <-. exists y, s. simpl. auto.
Qed.

(** ** The producers in the raw map *)

Lemma record_entries (src p : node) (f file : string) (cf : fields)
  (r : replacements_t) :
  In (p, cf) (record src f file r) -> p = src \/ In (p, cf) r.
Proof.
  unfold record. intros H.
  apply (In_set node_eqb node_eqb_eq) in H as [[= -> _]|H]; [now left|].
  destruct (PyDict.contains node_eqb src r); [now right|].
  apply (In_set node_eqb node_eqb_eq) in H as [[= -> _]|H]; auto.
Qed.

(** Every key of the raw map is the source of an edge into a DataSink. *)
Lemma scan_keys_feed_datasinks (E : environment) (g : digraph)
  (output_dir container : option string) (raw : replacements_t)
  (dels : list node) :
  scan E g output_dir container = Ok (raw, dels) ->
  forall p cf, In (p, cf) raw ->
               exists datasink, In datasink (execnodes g) /\
                                In (p, datasink) (in_edges g datasink).
Proof.
  unfold scan. intros H. change raw with (fst (raw, dels)). revert H.
  apply (for_each_invariant
           (fun st : replacements_t * list node =>
              forall p cf, In (p, cf) (fst st) ->
                           exists datasink,
                             In datasink (execnodes g) /\
                             In (p, datasink) (in_edges g datasink)));
    [|intros p cf []].
  intros datasink [r ds0] [r' ds'] Hds Hinv Hstep. simpl in Hinv |- *.
  apply scan_datasink_inv in Hstep as [Hstep _]. revert Hstep.
  apply (for_each_invariant
           (fun r => forall p cf, In (p, cf) r ->
                                  exists datasink,
                                    In datasink (execnodes g) /\
                                    In (p, datasink) (in_edges g datasink)));
    [|assumption].
  intros [src dst] s s' Hinp Hs. unfold scan_in_edge. simpl fst; simpl snd.
  apply (for_each_invariant
           (fun r => forall p cf, In (p, cf) r ->
                                  exists datasink,
                                    In datasink (execnodes g) /\
                                    In (p, datasink) (in_edges g datasink)));
    [|assumption].
  intros [f d] t t' _ Ht. rewrite scan_connection_eq.
  destruct (list_files E _ None) as [files|]; [|discriminate].
  destruct (List.length files =? 1); intros [= <-]; [|assumption].
  intros p cf Hp. apply record_entries in Hp as [->|Hp]; [|eauto].
  exists datasink. split; [assumption|].
  pose proof Hinp as Hinp'. apply in_edges_In in Hinp' as [-> _]. assumption.
Qed.

Lemma scan_keys_are_nodes (E : environment) (g : digraph)
  (output_dir container : option string) (raw : replacements_t)
  (dels : list node) :
  well_formed g ->
  scan E g output_dir container = Ok (raw, dels) ->
  forall p cf, In (p, cf) raw -> In p (nodes g).
Proof.
  intros (_ & _ & Hends) Hscan p cf Hp.
  destruct (scan_keys_feed_datasinks _ _ _ _ Hscan p cf Hp)
    as (datasink & _ & Hin).
  apply in_edges_In in Hin as [_ (e & He & <- & _)]. now apply Hends.
Qed.

(** ** Input nodes and the mapping *)

Section DictKeeps.
Variables K V : Type.
Variable eqb : K -> K -> bool.
Hypothesis eqb_eq : forall a b, eqb a b = true <-> a = b.

Lemma In_set_cases (k k' : K) (v v' : V) (d : PyDict.t K V) :
  In (k', v') d ->
  In (k', v') (PyDict.set eqb k v d) \/
  (k' = k /\ PyDict.get eqb k d = Some v').
Proof.
  induction d as [|[k0 v0] d IH]; simpl; [easy|].
  destruct (eqb k k0) eqn:Hk.
  - apply eqb_eq in Hk. subst k0. intros [[= <- <-]|H].
    + right. auto.
    + left. simpl. auto.
  - intros [[= <- <-]|H].
    + left. simpl. auto.
    + destruct (IH H) as [Hin|Hget]; [left; simpl; auto|right; assumption].
Qed.

Lemma In_set_absent (k : K) (v : V) (d : PyDict.t K V) (x : K * V) :
  PyDict.get eqb k d = None -> In x d -> In x (PyDict.set eqb k v d).
Proof.
  intros Hget Hx. destruct x as [k' v'].
  destruct (@In_set_cases k k' v v' d Hx) as [H|[_ H]];
    [assumption|congruence].
Qed.

Lemma In_set_new (k : K) (v : V) (d : PyDict.t K V) :
  In (k, v) (PyDict.set eqb k v d).
Proof. apply (get_In eqb eqb_eq). apply (get_set_same eqb eqb_eq). Qed.

End DictKeeps.

Lemma rewire_connection_inputs_mapped (s3_creds_path : option string)
  (replacement to_node : node) (cached_files : fields) (c : connection)
  (st st' : rewrite_state) :
  inputs_mapped st ->
  rewire_connection s3_creds_path replacement cached_files to_node c st
  = Ok st' ->
  inputs_mapped st'.
Proof.
  intros Hinv Hrun. destruct c as [from_field to_field].
  unfold rewire_connection in Hrun.
  apply bind_Ok_inv in Hrun as (st1 & Hst1 & Hrun).
  set (mapping1 :=
         if PyDict.contains node_eqb replacement (rs_mapping st)
         then rs_mapping st
         else PyDict.set node_eqb replacement [] (rs_mapping st)) in *.
  assert (Hsub : forall e, In e (rs_mapping st) -> In e mapping1).
  { intros e He. unfold mapping1, PyDict.contains.
    destruct (PyDict.get node_eqb replacement (rs_mapping st)) eqn:Hget;
      [assumption|].
    now apply (In_set_absent node_eqb node_eqb_eq). }
  assert (H1 : inputs_mapped st1).
  { destruct (field_in from_field (get_or_empty replacement mapping1)) eqn:Hf.
    - injection Hst1 as <-. intros x Hx. simpl in *.
      destruct (Hinv x Hx) as (p & m & f & Hp & Hfx). eauto 6.
    - destruct (PyDict.get String.eqb from_field cached_files)
        as [file_path|]; [|discriminate].
      injection Hst1 as <-. intros x Hx. simpl in *.
      apply in_app_iff in Hx as [Hx|[<-|[]]].
      + destruct (Hinv x Hx) as (p & m & f & Hp & Hfx).
        apply Hsub in Hp.
        apply (In_set_cases node_eqb node_eqb_eq)
          with (k := replacement)
               (v := PyDict.set String.eqb from_field
                       (set_hierarchy
                          (create_check_for_s3_node (rs_fresh st)
                             (name replacement ++ "_" ++ from_field ++ "_input")
                             file_path "other" s3_creds_path)
                          (hierarchy replacement))
                       (get_or_empty replacement mapping1))
          in Hp.
        destruct Hp as [Hin|[-> Hget]].
        * eauto 6.
        * exists replacement. eexists. exists f.
          split; [apply (In_set_new node_eqb node_eqb_eq)|].
          apply (In_set_absent String.eqb string_eqb_eq).
          -- unfold field_in, PyDict.contains in Hf.
             destruct (PyDict.get String.eqb from_field
                         (get_or_empty replacement mapping1)); congruence.
          -- unfold get_or_empty. now rewrite Hget.
      + exists replacement. eexists. exists from_field.
        split; [apply (In_set_new node_eqb node_eqb_eq)|].
        apply (In_set_new String.eqb string_eqb_eq). }
  destruct (PyDict.get String.eqb from_field
              (get_or_empty replacement (rs_mapping st1)));
    [|discriminate].
  injection Hrun as <-. exact H1.
Qed.

Lemma rewire_replacement_inputs_mapped (s3_creds_path : option string)
  (item : node * fields) (st st' : rewrite_state) :
  inputs_mapped st ->
  rewire_replacement s3_creds_path item st = Ok st' ->
  inputs_mapped st'.
Proof.
  intros Hinv Hrun. destruct item as [replacement cached_files].
  unfold rewire_replacement in Hrun.
  apply bind_Ok_inv in Hrun as (outs & _ & Hrun).
  apply bind_Ok_inv in Hrun as (st1 & Hloop & Hrun).
  apply bind_Ok_inv in Hrun as (g1 & _ & Hrun).
  injection Hrun as <-.
  assert (H1 : inputs_mapped st1); [|exact H1].
  revert Hloop. apply (for_each_invariant inputs_mapped); [|assumption].
  intros to_node s s' _ Hs.
  apply (for_each_invariant inputs_mapped); [|assumption].
  intros c t t' _ Ht. now apply rewire_connection_inputs_mapped.
Qed.

(** The phases of a run of [trim] that returns, with what holds between
    them. *)
Lemma trim_states (E : environment) (g0 : digraph)
  (output_dir container s3_creds_path : option string)
  (depth : nat) (g' : digraph) (mapping : mapping_t) (deletions : list node) :
  well_formed g0 ->
  trim E g0 output_dir container s3_creds_path depth
  = Ok (g', (mapping, deletions)) ->
  exists validated deletions0 g1 st,
    scan E g0 output_dir container = Ok (validated, deletions0) /\
    validate g0 validated = Ok validated /\
    prune g0 depth validated deletions0 = Ok deletions /\
    remove_nodes deletions g0 = Ok g1 /\
    for_each validated (rewire_replacement s3_creds_path)
      (mkRewrite g1 [] [] (fresh_uid g0)) = Ok st /\
    for_each (rs_input_nodes st) drop_unused_input (rs_graph st) = Ok g' /\
    mapping = rs_mapping st /\
    rewired g0 validated s3_creds_path st /\
    inputs_mapped st /\
    rewired g0 validated s3_creds_path
      (mkRewrite g' (rs_mapping st) (rs_input_nodes st) (rs_fresh st)).
Proof.
  intros Hwf Hrun.
  destruct (trim_Ok _ _ _ _ _ _ Hrun)
    as (v & dels0 & g1 & st & Hscan & Hval & Hprune & Hrm & Hrw & Hgc & ->).
  exists v, dels0, g1, st.
  assert (Hst : rewired g0 v s3_creds_path st).
  { revert Hrw. apply (for_each_invariant (rewired g0 v s3_creds_path)).
    - intros item s s' Hin Hs Hstep.
      eapply rewire_replacement_rewired in Hstep; eauto. apply Hstep.
    - eapply rewired_remove_nodes; eauto. }
  assert (Hmapped : inputs_mapped st).
  { revert Hrw. apply (for_each_invariant inputs_mapped).
    - intros item s s' _ Hs Hstep.
      eapply rewire_replacement_inputs_mapped; eauto.
    - intros x []. }
  assert (Hfinal : rewired g0 v s3_creds_path
                     (mkRewrite g' (rs_mapping st) (rs_input_nodes st)
                        (rs_fresh st))).
  { revert Hgc.
    apply (for_each_invariant
             (fun g => rewired g0 v s3_creds_path
                         (mkRewrite g (rs_mapping st) (rs_input_nodes st)
                            (rs_fresh st)))).
    - intros n g g2 _ Hg Hstep.
      apply drop_unused_input_rewired
        with (n := n)
             (st := mkRewrite g (rs_mapping st) (rs_input_nodes st)
                      (rs_fresh st)); assumption.
    - destruct st; exact Hst. }
  split; [exact Hscan|]. split; [exact Hval|]. split; [exact Hprune|].
  split; [exact Hrm|]. split; [exact Hrw|]. split; [exact Hgc|].
  split; [reflexivity|]. split; [exact Hst|]. split; assumption.
Qed.

Lemma the_trimmer_Ok (E : environment) (depth : nat) (wf : workflow)
  (output_dir container s3_creds_path : option string) (wf_new : workflow)
  (mapping : mapping_t) (deletions : list node) :
  the_trimmer E depth wf output_dir container s3_creds_path
  = Ok (wf_new, (mapping, deletions)) ->
  trim E (generate_expanded_graph E (create_flat_graph E wf)) output_dir
    container s3_creds_path depth
  = Ok (wf_graph wf_new, (mapping, deletions)) /\
  wf_name wf_new = (wf_name wf ++ "_trimmed")%string.
Proof.
  unfold the_trimmer. intros Hrun.
  apply bind_Ok_inv in Hrun as ([g' [m ds]] & Htrim & [= <- <- <-]).
  auto.
Qed.

(** X2.  Every entry of the returned replacement mapping sends a field of a
    validated producer to the input node made for it: the node is called
    [<producer name>_<field>_input], carries the producer's hierarchy, reads
    the one file the scan found cached for that field, with the
    credentials the caller passed, and is an object that was not in the
    execution graph. *)
Theorem replacement_mapping_holds_input_nodes (E : environment) (depth : nat)
  (wf : workflow) (output_dir container s3_creds_path : option string)
  (wf_new : workflow) (mapping : mapping_t) (deletions : list node) :
  well_formed (generate_expanded_graph E (create_flat_graph E wf)) ->
  the_trimmer E depth wf output_dir container s3_creds_path
  = Ok (wf_new, (mapping, deletions)) ->
  exists validated deletions0,
    scan E (generate_expanded_graph E (create_flat_graph E wf))
      output_dir container = Ok (validated, deletions0) /\
    forall p m f n,
      In (p, m) mapping -> In (f, n) m ->
      exists cached_files file,
        In (p, cached_files) validated /\
        PyDict.get String.eqb f cached_files = Some file /\
        name n = (name p ++ "_" ++ f ++ "_input")%string /\
        hierarchy n = hierarchy p /\
        iface n = CheckForS3 file "other" s3_creds_path /\
        ~ In n (nodes (generate_expanded_graph E (create_flat_graph E wf))).
Proof.
  intros Hwf Hrun. apply the_trimmer_Ok in Hrun as [Htrim _].
  apply trim_states in Htrim
    as (v & dels0 & g1 & st & Hscan & _ & _ & _ & _ & _ & -> & _ & _ & Hfinal);
    [|assumption].
  exists v, dels0. split; [assumption|].
  intros p m f n Hp Hf.
  destruct Hfinal as (_ & _ & _ & _ & _ & _ & _ & _ & Hinp & Hmap).
  simpl in Hinp, Hmap.
  destruct (Hmap p m f n Hp Hf) as (Hin & cf & file & Hcf & Hget & Hnode).
  exists cf, file. split; [assumption|]. split; [assumption|].
  unfold input_node_for in Hnode.
  split; [rewrite Hnode; reflexivity|].
  split; [rewrite Hnode; reflexivity|].
  split; [rewrite Hnode; reflexivity|].
  intros Hold. apply uid_lt_fresh in Hold. destruct (Hinp n Hin). lia.
Qed.

(** X3.  Every edge of the trimmed graph ends on a node of the execution
    graph, and is either an edge of the execution graph, with its field
    mappings as they were, or an edge out of an input node carrying the
    single field mapping [('file', to_field)]. *)
Theorem trimmed_edges_are_old_or_from_input_nodes (E : environment)
  (depth : nat) (wf : workflow)
  (output_dir container s3_creds_path : option string)
  (wf_new : workflow) (mapping : mapping_t) (deletions : list node) :
  well_formed (generate_expanded_graph E (create_flat_graph E wf)) ->
  the_trimmer E depth wf output_dir container s3_creds_path
  = Ok (wf_new, (mapping, deletions)) ->
  forall e,
    In e (edges (wf_graph wf_new)) ->
    In (e_dst e) (nodes (generate_expanded_graph E (create_flat_graph E wf))) /\
    (In e (edges (generate_expanded_graph E (create_flat_graph E wf))) \/
     (~ In (e_src e)
         (nodes (generate_expanded_graph E (create_flat_graph E wf))) /\
      (exists p m f, In (p, m) mapping /\ In (f, e_src e) m) /\
      exists to_field, e_connect e = [("file"%string, to_field)])).
Proof.
  intros Hwf Hrun e He. apply the_trimmer_Ok in Hrun as [Htrim _].
  apply trim_states in Htrim
    as (v & dels0 & g1 & st & _ & _ & _ & _ & _ & _ & -> & _ & Hmapped
        & Hfinal); [|assumption].
  destruct Hfinal as (_ & (_ & _ & Hends) & _ & Hold & Hnew & Hdst & Hsrc
                      & Hfile & _ & _).
  simpl in *. destruct (Hends e He) as [Hs Hd].
  split; [apply Hold; auto|].
  destruct (Nat.lt_ge_cases (uid (e_src e))
              (fresh_uid (generate_expanded_graph E (create_flat_graph E wf))))
    as [Hlt|Hge].
  - left. auto.
  - right. split; [|split].
    + intros Hin. apply uid_lt_fresh in Hin. lia.
    + apply Hmapped. auto.
    + auto.
Qed.

(** ** Which nodes are left *)

Lemma remove_nodes_keeps (deletions : list node) (g g' : digraph) (x : node) :
  remove_nodes deletions g = Ok g' ->
  In x (nodes g) -> ~ In x deletions -> In x (nodes g').
Proof.
  unfold remove_nodes. revert g.
  induction deletions as [|d ds IH]; intros g Hrun Hx Hnot; simpl in Hrun.
  - now injection Hrun as <-.
  - apply bind_Ok_inv in Hrun as (g1 & Hd & Hrest).
    apply (IH g1 Hrest); [|intros H; apply Hnot; now right].
    apply remove_node_Ok in Hd as (_ & -> & _). apply filter_In.
    split; [assumption|]. apply negb_true_iff, node_eqb_neq.
    intros ->. apply Hnot. now left.
Qed.

Lemma rewired_avoids (g0 : digraph) (raw : replacements_t)
  (s3_creds_path : option string) (st : rewrite_state) (p : node) :
  rewired g0 raw s3_creds_path st ->
  uid p < fresh_uid g0 ->
  uid p < rs_fresh st /\ mapping_avoids p (rs_mapping st).
Proof.
  intros (HF & _ & _ & _ & _ & _ & _ & _ & Hinp & Hmap) Hp.
  split; [lia|]. intros q m f n Hq Hf ->.
  destruct (Hmap q m f p Hq Hf) as [Hin _]. destruct (Hinp p Hin). lia.
Qed.

Lemma rewiring_removes_replaced (g0 g1 : digraph) (raw : replacements_t)
  (s3_creds_path : option string) (deletions : list node)
  (st : rewrite_state) :
  well_formed g0 ->
  (forall p cf, In (p, cf) raw -> In p (nodes g0)) ->
  remove_nodes deletions g0 = Ok g1 ->
  for_each raw (rewire_replacement s3_creds_path)
    (mkRewrite g1 [] [] (fresh_uid g0)) = Ok st ->
  forall item, In item raw -> rewrite_inv (fst item) st.
Proof.
  intros Hwf Hkeys Hrm Hrw.
  assert (H : rewired g0 raw s3_creds_path st /\
              forall item, In item raw -> rewrite_inv (fst item) st);
    [|apply H].
  revert Hrw.
  apply (for_each_establishes_under (rewired g0 raw s3_creds_path)
           (fun item s => rewrite_inv (fst item) s) raw
           (rewire_replacement s3_creds_path)).
  - intros [p cf] s s' Hin Hs Hstep.
    eapply rewire_replacement_rewired in Hstep as (Hs' & Habs & _); eauto.
    split; [assumption|]. simpl in *.
    assert (Hp : uid p < fresh_uid g0)
      by (apply uid_lt_fresh; eapply Hkeys; eauto).
    destruct (rewired_avoids p Hs' Hp) as [Hlt Hav].
    split; [exact Habs|]. split; assumption.
  - intros x y s s' _ _ Hx Hstep. eapply rewire_replacement_inv; eauto.
  - eapply rewired_remove_nodes; eauto.
Qed.

Lemma rewiring_keeps_nodes (g0 : digraph) (raw : replacements_t)
  (s3_creds_path : option string) (s st : rewrite_state) (x : node) :
  rewired g0 raw s3_creds_path s ->
  for_each raw (rewire_replacement s3_creds_path) s = Ok st ->
  In x (nodes (rs_graph s)) ->
  ~ In x (PyDict.keys raw) ->
  In x (nodes (rs_graph st)).
Proof.
  intros Hs Hrw Hx Hnot.
  assert (H : rewired g0 raw s3_creds_path st /\ In x (nodes (rs_graph st)));
    [|tauto].
  revert Hrw.
  apply (for_each_invariant
           (fun t => rewired g0 raw s3_creds_path t /\
                     In x (nodes (rs_graph t)))); [|auto].
  intros [p cf] t t' Hin [Ht Hxt] Hstep.
  eapply rewire_replacement_rewired in Hstep as (Ht' & _ & Hmono); eauto.
  split; [assumption|]. apply Hmono; [assumption|].
  simpl. intros ->. apply Hnot. unfold PyDict.keys.
  apply in_map_iff. exists (p, cf). auto.
Qed.

Lemma drop_unused_inputs_keep (inputs : list node) (g g' : digraph)
  (x : node) :
  for_each inputs drop_unused_input g = Ok g' ->
  In x (nodes g) -> ~ In x inputs -> In x (nodes g').
Proof.
  revert g. induction inputs as [|n ns IH]; intros g Hrun Hx Hnot;
    simpl in Hrun.
  - now injection Hrun as <-.
  - apply bind_Ok_inv in Hrun as (g1 & Hn & Hrest).
    apply (IH g1 Hrest); [|intros H; apply Hnot; now right].
    unfold drop_unused_input in Hn.
    apply bind_Ok_inv in Hn as (outs & _ & Hn).
    destruct outs; [|now injection Hn as <-].
    apply remove_node_Ok in Hn as (_ & -> & _). apply filter_In.
    split; [assumption|]. apply negb_true_iff, node_eqb_neq.
    intros ->. apply Hnot. now left.
Qed.

(** X4.  Which nodes the trimmed graph has: a node of the execution graph
    is kept exactly when it is neither on the deletion list nor a producer
    of the validated map, and every other node of the trimmed graph is an
    input node of the returned replacement mapping. *)
Theorem trimmed_nodes_are_survivors_and_input_nodes (E : environment)
  (depth : nat) (wf : workflow)
  (output_dir container s3_creds_path : option string)
  (wf_new : workflow) (mapping : mapping_t) (deletions : list node) :
  well_formed (generate_expanded_graph E (create_flat_graph E wf)) ->
  the_trimmer E depth wf output_dir container s3_creds_path
  = Ok (wf_new, (mapping, deletions)) ->
  exists validated deletions0,
    scan E (generate_expanded_graph E (create_flat_graph E wf))
      output_dir container = Ok (validated, deletions0) /\
    (forall x,
        In x (nodes (generate_expanded_graph E (create_flat_graph E wf))) ->
        (In x (nodes (wf_graph wf_new)) <->
         ~ In x deletions /\ ~ In x (PyDict.keys validated))) /\
    (forall x,
        In x (nodes (wf_graph wf_new)) ->
        ~ In x (nodes (generate_expanded_graph E (create_flat_graph E wf))) ->
        exists p m f, In (p, m) mapping /\ In (f, x) m).
Proof.
  intros Hwf Hrun. apply the_trimmer_Ok in Hrun as [Htrim _].
  set (g0 := generate_expanded_graph E (create_flat_graph E wf)) in *.
  pose proof (trim_removes_deletions _ _ _ _ _ _ Htrim) as Hdel.
  apply trim_states in Htrim
    as (v & dels0 & g1 & st & Hscan & _ & _ & Hrm & Hrw & Hgc & -> & Hst
        & Hmapped & Hfinal); [|assumption].
  exists v, dels0. split; [assumption|].
  assert (Hkeys : forall p cf, In (p, cf) v -> In p (nodes g0))
    by (eapply scan_keys_are_nodes; eauto).
  assert (Hrep : forall item, In item v -> rewrite_inv (fst item) st)
    by (eapply rewiring_removes_replaced; eauto).
  split.
  - intros x Hx. split.
    + intros Hin. split.
      * intros Hd. now apply (Hdel x Hd).
      * intros Hk. unfold PyDict.keys in Hk.
        apply in_map_iff in Hk as ([p cf] & <- & Hitem).
        destruct (Hrep (p, cf) Hitem) as (Habs & _). simpl in Habs.
        assert (Hfin : absent (wf_graph wf_new) p).
        { revert Hgc.
          apply (for_each_invariant (fun g => absent g p)); [|assumption].
          intros n s s' _ Hs. now apply drop_unused_input_absent. }
        now apply Hfin.
    + intros [Hnd Hnk].
      eapply drop_unused_inputs_keep; [exact Hgc| |].
      * eapply rewiring_keeps_nodes
          with (s := mkRewrite g1 [] [] (fresh_uid g0)); [| exact Hrw | |].
        -- eapply rewired_remove_nodes; eauto.
        -- simpl. eapply remove_nodes_keeps; eauto.
        -- exact Hnk.
      * intros Hin.
        destruct Hst as (_ & _ & _ & _ & _ & _ & _ & _ & Hinp & _).
        destruct (Hinp x Hin). apply uid_lt_fresh in Hx. fold g0 in H. lia.
  - intros x Hin Hnot.
    destruct Hfinal as (_ & _ & _ & Hold & Hnew & _). simpl in *.
    apply Hmapped. apply Hnew; [assumption|].
    destruct (Nat.lt_ge_cases (uid x) (fresh_uid g0)) as [Hlt|Hge];
      [|assumption].
    exfalso. apply Hnot. auto.
Qed.

Lemma two_sinks_well_formed :
  well_formed
    (generate_expanded_graph (Scenarios.local_env Scenarios.two_sinks_fs)
       (create_flat_graph (Scenarios.local_env Scenarios.two_sinks_fs)
          (mkWorkflow "wf" Scenarios.two_sinks))).
Proof.
  split; [|split].
  - repeat constructor; simpl; intuition discriminate.
  - repeat constructor; simpl; intuition discriminate.
  - intros e [<-|[<-|[]]]; simpl; auto.
Qed.

Lemma replacement_mapping_holds_input_nodes_witness :
  exists wf_new mapping deletions n,
    the_trimmer (Scenarios.local_env Scenarios.two_sinks_fs) 100
      (mkWorkflow "wf" Scenarios.two_sinks) None None None
    = Ok (wf_new, (mapping, deletions)) /\
    mapping = [(Scenarios.P, [("out"%string, n)])] /\
    name n = "P_out_input"%string /\
    iface n = CheckForS3 "/out/sub-1/file2/file2.txt" "other" None.
Proof.
  eexists _, _, _, _. split; [vm_compute; reflexivity|].
  split; [reflexivity|].
  destruct (@replacement_mapping_holds_input_nodes
              (Scenarios.local_env Scenarios.two_sinks_fs) 100
              (mkWorkflow "wf" Scenarios.two_sinks) None None None
              _ _ _ two_sinks_well_formed eq_refl)
    as (validated & deletions0 & Hscan & Hall).
  vm_compute in Hscan. injection Hscan as <- _.
  destruct (Hall Scenarios.P _ "out"%string _
              (or_introl eq_refl) (or_introl eq_refl))
    as (cf & file & Hcf & Hget & Hname & _ & Hiface & _).
  destruct Hcf as [[= <-]|[]]. injection Hget as <-.
  split; [exact Hname|exact Hiface].
Defined.

Lemma trimmed_edges_are_old_or_from_input_nodes_witness :
  exists wf_new mapping deletions e,
    the_trimmer (Scenarios.local_env Scenarios.two_sinks_fs) 100
      (mkWorkflow "wf" Scenarios.two_sinks) None None None
    = Ok (wf_new, (mapping, deletions)) /\
    edges (wf_graph wf_new) = [e] /\
    e_dst e = Scenarios.Sink1 /\
    (In e (edges Scenarios.two_sinks) \/
     exists to_field, e_connect e = [("file"%string, to_field)]).
Proof.
  eexists _, _, _, _. split; [vm_compute; reflexivity|].
  split; [reflexivity|]. split; [reflexivity|].
  destruct (@trimmed_edges_are_old_or_from_input_nodes
              (Scenarios.local_env Scenarios.two_sinks_fs) 100
              (mkWorkflow "wf" Scenarios.two_sinks) None None None
              _ _ _ two_sinks_well_formed eq_refl _ (or_introl eq_refl))
    as [_ [Hold|(_ & _ & Hfile)]].
  - left. exact Hold.
  - right. exact Hfile.
Defined.

Lemma trimmed_nodes_are_survivors_and_input_nodes_witness :
  exists wf_new mapping deletions,
    the_trimmer (Scenarios.local_env Scenarios.two_sinks_fs) 100
      (mkWorkflow "wf" Scenarios.two_sinks) None None None
    = Ok (wf_new, (mapping, deletions)) /\
    In Scenarios.Sink1 (nodes (wf_graph wf_new)) /\
    ~ In Scenarios.P (nodes (wf_graph wf_new)).
Proof.
  eexists _, _, _. split; [vm_compute; reflexivity|].
  destruct (@trimmed_nodes_are_survivors_and_input_nodes
              (Scenarios.local_env Scenarios.two_sinks_fs) 100
              (mkWorkflow "wf" Scenarios.two_sinks) None None None
              _ _ _ two_sinks_well_formed eq_refl)
    as (validated & deletions0 & Hscan & Hold & _).
  vm_compute in Hscan. injection Hscan as <- _.
  split.
  - apply (Hold Scenarios.Sink1); [simpl; auto|]. split.
    + intros [H|[]]; discriminate H.
    + intros [H|[]]; discriminate H.
  - intros Hin.
    apply (Hold Scenarios.P) in Hin as [_ Hk]; [|simpl; auto].
    apply Hk. simpl. auto.
Defined.

(** ** Unused input nodes (lines 260-264) *)

Lemma drop_unused_input_cases (n : node) (g g' : digraph) :
  drop_unused_input n g = Ok g' ->
  (g' = g /\ exists e, In e (edges g) /\ e_src e = n) \/
  remove_node g n = Ok g'.
Proof.
  unfold drop_unused_input. intros H.
  apply bind_Ok_inv in H as (outs & Houts & H).
  destruct outs as [|o outs]; [now right|].
  injection H as <-. left. split; [reflexivity|].
  destruct (successors_Ok _ _ Houts o (or_introl eq_refl)) as (e & He & Hs & _).
  eauto.
Qed.

(** X5.  After the last loop, every node of the trimmed graph that is not a
    node of the execution graph, that is every input node left, has an
    outgoing edge: an input node whose consumers were all removed is
    removed too. *)
Theorem input_nodes_left_have_a_consumer (E : environment)
  (depth : nat) (wf : workflow)
  (output_dir container s3_creds_path : option string)
  (wf_new : workflow) (mapping : mapping_t) (deletions : list node) :
  well_formed (generate_expanded_graph E (create_flat_graph E wf)) ->
  the_trimmer E depth wf output_dir container s3_creds_path
  = Ok (wf_new, (mapping, deletions)) ->
  forall x,
    In x (nodes (wf_graph wf_new)) ->
    ~ In x (nodes (generate_expanded_graph E (create_flat_graph E wf))) ->
    exists e, In e (edges (wf_graph wf_new)) /\ e_src e = x.
Proof.
  intros Hwf Hrun x Hx Hnew_node. apply the_trimmer_Ok in Hrun as [Htrim _].
  set (g0 := generate_expanded_graph E (create_flat_graph E wf)) in *.
  apply trim_states in Htrim
    as (v & dels0 & g1 & st & _ & _ & _ & _ & _ & Hgc & -> & Hst & _ & _);
    [|assumption].
  assert (H : rewired g0 v s3_creds_path
                (mkRewrite (wf_graph wf_new) (rs_mapping st)
                   (rs_input_nodes st) (rs_fresh st)) /\
              forall y, In y (rs_input_nodes st) ->
                        In y (nodes (wf_graph wf_new)) ->
                        exists e, In e (edges (wf_graph wf_new)) /\
                                  e_src e = y).
  { revert Hgc.
    apply (for_each_establishes_under
             (fun g => rewired g0 v s3_creds_path
                         (mkRewrite g (rs_mapping st) (rs_input_nodes st)
                            (rs_fresh st)))
             (fun y g => In y (nodes g) ->
                         exists e, In e (edges g) /\ e_src e = y)).
    - intros y g g' Hy Hg Hstep. split.
      + apply drop_unused_input_rewired
          with (n := y)
               (st := mkRewrite g (rs_mapping st) (rs_input_nodes st)
                        (rs_fresh st)); assumption.
      + destruct (drop_unused_input_cases _ _ Hstep) as [[-> He]|Hrm];
          [auto|].
        intros Hin. apply remove_node_absent in Hrm as [Hnot _]. tauto.
    - intros y z g g' Hz Hg Hy Hstep Hin.
      destruct (drop_unused_input_cases _ _ Hstep) as [[-> _]|Hrm]; [auto|].
      pose proof (remove_node_absent _ _ Hrm) as [Hz_gone _].
      apply remove_node_Ok in Hrm as (_ & Hnodes & Hedges).
      assert (Hin_g : In y (nodes g))
        by (rewrite Hnodes in Hin; now apply filter_In in Hin).
      destruct (Hy Hin_g) as (e & He & Hsrc).
      exists e. split; [|assumption].
      rewrite Hedges. apply filter_In. split; [assumption|].
      destruct Hg as (_ & _ & _ & _ & _ & Hdst & _ & _ & Hinp & _).
      simpl in Hdst, Hinp.
      apply andb_true_intro. split; apply negb_true_iff, node_eqb_neq.
      * rewrite Hsrc. intros ->. contradiction.
      * intros Heq. specialize (Hdst e He). destruct (Hinp z Hz).
        rewrite Heq in Hdst. lia.
    - destruct st; exact Hst. }
  destruct H as [Hfinal Hall].
  apply Hall; [|assumption].
  destruct Hfinal as (_ & _ & _ & Hold & Hnew & _). simpl in *.
  apply Hnew; [assumption|].
  destruct (Nat.lt_ge_cases (uid x) (fresh_uid g0)) as [Hlt|Hge];
    [|assumption].
  exfalso. apply Hnew_node. auto.
Qed.

Lemma input_nodes_left_have_a_consumer_witness :
  exists wf_new mapping deletions x e,
    the_trimmer (Scenarios.local_env Scenarios.two_sinks_fs) 100
      (mkWorkflow "wf" Scenarios.two_sinks) None None None
    = Ok (wf_new, (mapping, deletions)) /\
    nodes (wf_graph wf_new) = [Scenarios.Sink1; x] /\
    In e (edges (wf_graph wf_new)) /\ e_src e = x.
Proof.
  eexists _, _, _, _. 
  destruct (@input_nodes_left_have_a_consumer
              (Scenarios.local_env Scenarios.two_sinks_fs) 100
              (mkWorkflow "wf" Scenarios.two_sinks) None None None
              _ _ _ two_sinks_well_formed eq_refl
              (mkNode 8 "P_out_input" "wf" Node
                 (CheckForS3 "/out/sub-1/file2/file2.txt" "other" None) []))
    as (e & He & Hsrc).
  - simpl. auto.
  - intros [H|[H|[H|[]]]]; discriminate H.
  - exists e. split; [vm_compute; reflexivity|].
    split; [reflexivity|]. split; assumption.
Defined.

(** ** What the trimmer can raise *)

Lemma recurse_predecessors_raises (depth : nat) (g : digraph) (c : node)
  (e : exn) :
  recurse_predecessors depth g c = Raise e -> e = RecursionError.
Proof.
  revert c. induction depth as [|d IH]; intros c Hrun; simpl in Hrun.
  - congruence.
  - apply (for_each_Raise (fun _ => True)) in Hrun
      as ([p c'] & s0 & _ & _ & Hbody); auto.
    destruct (existsb _ (out_edges g p)); [discriminate|].
    destruct (recurse_predecessors d g p) as [up|e'] eqn:Hup;
      simpl in Hbody; [discriminate|].
    injection Hbody as <-. eauto.
Qed.

Lemma prune_raises (g : digraph) (depth : nat) (r : replacements_t)
  (dels : list node) (e : exn) :
  prune g depth r dels = Raise e -> e = RecursionError.
Proof.
  unfold prune. intros Hrun.
  apply (for_each_Raise (fun _ => True)) in Hrun
    as ([n cf] & s0 & _ & _ & Hbody); auto.
  destruct (recurse_predecessors depth g n) as [up|e'] eqn:Hup;
    simpl in Hbody; [discriminate|].
  injection Hbody as <-. eapply recurse_predecessors_raises; eauto.
Qed.

Lemma remove_node_raises (g : digraph) (n : node) (e : exn) :
  remove_node g n = Raise e ->
  ~ In n (nodes g) /\ exists msg, e = NetworkXError msg.
Proof.
  unfold remove_node. destruct (has_node g n) eqn:Hn; [discriminate|].
  intros [= <-]. split; [|eauto].
  intros Hin. apply has_node_In in Hin. congruence.
Qed.

Lemma successors_raises (g : digraph) (n : node) (e : exn) :
  successors g n = Raise e ->
  ~ In n (nodes g) /\ exists msg, e = NetworkXError msg.
Proof.
  unfold successors. destruct (has_node g n) eqn:Hn; [discriminate|].
  intros [= <-]. split; [|eauto].
  intros Hin. apply has_node_In in Hin. congruence.
Qed.

Lemma drop_unused_input_raises (n : node) (g : digraph) (e : exn) :
  drop_unused_input n g = Raise e ->
  ~ In n (nodes g) /\ exists msg, e = NetworkXError msg.
Proof.
  unfold drop_unused_input.
  destruct (successors g n) as [outs|e'] eqn:Hs; simpl.
  - destruct outs; [apply remove_node_raises|discriminate].
  - intros [= <-]. now apply successors_raises.
Qed.

Lemma for_each_total {A S : Type} (xs : list A) (body : A -> S -> result S) :
  (forall x s, In x xs -> exists s', body x s = Ok s') ->
  forall s, exists s', for_each xs body s = Ok s'.
Proof.
  induction xs as [|x xs IH]; intros Hbody s; simpl; [eauto|].
  destruct (Hbody x s (or_introl eq_refl)) as (s' & ->). simpl.
  apply IH. intros y t Hy. apply Hbody. now right.
Qed.

Lemma get_or_empty_set {V : Type} (k : node) (v : list V)
  (d : PyDict.t node (list V)) :
  get_or_empty k (PyDict.set node_eqb k v d) = v.
Proof.
  unfold get_or_empty. now rewrite (get_set_same node_eqb node_eqb_eq).
Qed.

Lemma field_in_get {V : Type} (f : string) (d : PyDict.t string V) :
  field_in f d = true -> exists v, PyDict.get String.eqb f d = Some v.
Proof.
  unfold field_in, PyDict.contains.
  destruct (PyDict.get String.eqb f d); [eauto|discriminate].
Qed.

(** Lines 236-256 raise nothing when the field is among the cached ones. *)
Lemma rewire_connection_total (s3_creds_path : option string)
  (replacement to_node : node) (cached_files : fields) (c : connection)
  (st : rewrite_state) :
  field_in (fst c) cached_files = true ->
  exists st',
    rewire_connection s3_creds_path replacement cached_files to_node c st
    = Ok st'.
Proof.
  destruct c as [from_field to_field]. simpl. intros Hf.
  unfold rewire_connection.
  set (mapping1 :=
         if PyDict.contains node_eqb replacement (rs_mapping st)
         then rs_mapping st
         else PyDict.set node_eqb replacement [] (rs_mapping st)).
  destruct (field_in from_field (get_or_empty replacement mapping1)) eqn:Hm.
  - simpl. apply field_in_get in Hm as (n & ->). eauto.
  - apply field_in_get in Hf as (file & ->). simpl.
    rewrite get_or_empty_set.
    rewrite (get_set_same String.eqb string_eqb_eq). eauto.
Qed.

(** After validation every field on an edge out of a producer of the map is
    among its cached fields. *)
Lemma validated_fields_cached (g0 : digraph) (raw : replacements_t)
  (s3_creds_path : option string) (st : rewrite_state) (replacement : node)
  (cached_files : fields) :
  well_formed g0 ->
  rewired g0 raw s3_creds_path st ->
  uid replacement < fresh_uid g0 ->
  has_uncached_field g0 replacement cached_files = false ->
  forall to_node c,
    In c (get_edge_data (rs_graph st) replacement to_node) ->
    field_in (fst c) cached_files = true.
Proof.
  intros (_ & Hpairs & _) (_ & _ & _ & _ & _ & _ & Hsrc & _) Hold Hval
    to_node c Hc.
  unfold get_edge_data in Hc.
  destruct (connect_of_In (edges (rs_graph st)) replacement to_node)
    as [Hnil|(e & He & Hfst & Hconn)]; [rewrite Hnil in Hc; easy|].
  rewrite Hconn in Hc.
  assert (Hs : e_src e = replacement) by (unfold e_src; now rewrite Hfst).
  assert (Hd : e_dst e = to_node) by (unfold e_dst; now rewrite Hfst).
  assert (He0 : In e (edges g0)) by (apply Hsrc; [assumption|now rewrite Hs]).
  unfold has_uncached_field in Hval.
  destruct (field_in (fst c) cached_files) eqn:Hf; [reflexivity|].
  exfalso.
  assert (Ht : existsb
                 (fun edge : node * node =>
                    existsb (fun '(src_field, _) =>
                               negb (field_in src_field cached_files))
                      (get_edge_data g0 (fst edge) (snd edge)))
                 (out_edges g0 replacement) = true); [|congruence].
  apply existsb_exists. exists (replacement, to_node). split.
  - unfold out_edges. apply in_map_iff. exists e. split; [assumption|].
    apply filter_In. split; [assumption|]. rewrite Hs. apply node_eqb_refl.
  - simpl. apply existsb_exists. exists c. split.
    + unfold get_edge_data. rewrite <- Hs, <- Hd.
      now rewrite (connect_of_unique _ _ Hpairs He0).
    + destruct c as [f t]. simpl in *. now rewrite Hf.
Qed.

Lemma validate_Ok_covered (g : digraph) (raw : replacements_t) :
  validate g raw = Ok raw ->
  forall item, In item raw ->
               has_uncached_field g (fst item) (snd item) = false.
Proof.
  rewrite validate_eq.
  destruct (existsb _ raw) eqn:Hex; [discriminate|]. intros _ item Hin.
  destruct (has_uncached_field g (fst item) (snd item)) eqn:Hf;
    [|reflexivity].
  assert (existsb (fun item => has_uncached_field g (fst item) (snd item))
            raw = true)
    by (apply existsb_exists; eauto).
  congruence.
Qed.

Lemma rewire_connection_keeps_nodes (s3_creds_path : option string)
  (replacement to_node : node) (cached_files : fields) (c : connection)
  (st st' : rewrite_state) (x : node) :
  rewire_connection s3_creds_path replacement cached_files to_node c st
  = Ok st' ->
  In x (nodes (rs_graph st)) -> In x (nodes (rs_graph st')).
Proof.
  destruct c as [ff tf]. unfold rewire_connection. intros Hstep Hx.
  apply bind_Ok_inv in Hstep as (t1 & Ht1 & Hstep).
  set (mapping1 :=
         if PyDict.contains node_eqb replacement (rs_mapping st)
         then rs_mapping st
         else PyDict.set node_eqb replacement [] (rs_mapping st)) in *.
  assert (H1 : In x (nodes (rs_graph t1))).
  { revert Ht1. destruct (field_in ff (get_or_empty replacement mapping1)).
    - intros [= <-]. exact Hx.
    - destruct (PyDict.get String.eqb ff cached_files); [|discriminate].
      intros [= <-]. cbn [rs_graph].
      apply (proj2 (In_add_node _ _ _)). left. exact Hx. }
  revert Hstep.
  destruct (PyDict.get String.eqb ff
              (get_or_empty replacement (rs_mapping t1)));
    [|discriminate].
  intros [= <-]. cbn [rs_graph].
  apply (proj2 (In_nodes_add_edge _ _ _ _ _)). left. exact H1.
Qed.

Lemma rewire_replacement_raises (g0 : digraph) (raw : replacements_t)
  (s3_creds_path : option string) (item : node * fields)
  (st : rewrite_state) (e : exn) :
  well_formed g0 ->
  rewired g0 raw s3_creds_path st ->
  uid (fst item) < fresh_uid g0 ->
  has_uncached_field g0 (fst item) (snd item) = false ->
  rewire_replacement s3_creds_path item st = Raise e ->
  ~ In (fst item) (nodes (rs_graph st)) /\ exists msg, e = NetworkXError msg.
Proof.
  intros Hwf Hst Hold Hval Hrun. destruct item as [replacement cached_files].
  simpl in *. unfold rewire_replacement in Hrun.
  destruct (successors (rs_graph st) replacement) as [outs|e'] eqn:Houts;
    simpl in Hrun; [|injection Hrun as <-; now apply successors_raises].
  destruct (for_each_total outs
              (fun to_node st0 =>
                 for_each (get_edge_data (rs_graph st) replacement to_node)
                   (rewire_connection s3_creds_path replacement cached_files
                      to_node) st0)) with (s := st) as (st1 & Hloop).
  { intros to_node s _. apply for_each_total. intros c t Hc.
    apply rewire_connection_total.
    eapply validated_fields_cached; eauto. }
  rewrite Hloop in Hrun. simpl in Hrun.
  destruct (remove_node (rs_graph st1) replacement) as [g1|e'] eqn:Hrm;
    simpl in Hrun; [discriminate|].
  injection Hrun as <-. apply remove_node_raises in Hrm as [Hnot Hmsg].
  split; [|assumption]. intros Hin. apply Hnot.
  assert (H : forall x, In x (nodes (rs_graph st)) ->
                        In x (nodes (rs_graph st1)));
    [|apply H; exact Hin].
  revert Hloop.
  apply (for_each_invariant
           (fun s => forall x, In x (nodes (rs_graph st)) ->
                               In x (nodes (rs_graph s)))); [|auto].
  intros to_node s s' _ Hs.
  apply (for_each_invariant
           (fun s => forall x, In x (nodes (rs_graph st)) ->
                               In x (nodes (rs_graph s)))); [|auto].
  intros c t t' _ Ht Hstep x Hx.
  eapply rewire_connection_keeps_nodes; eauto.
Qed.

Lemma rewiring_raises (g0 : digraph) (raw : replacements_t)
  (s3_creds_path : option string) (g1 : digraph) (deletions : list node)
  (e : exn) :
  well_formed g0 ->
  (forall p cf, In (p, cf) raw -> In p (nodes g0)) ->
  validate g0 raw = Ok raw ->
  remove_nodes deletions g0 = Ok g1 ->
  for_each raw (rewire_replacement s3_creds_path)
    (mkRewrite g1 [] [] (fresh_uid g0)) = Raise e ->
  exists msg, e = NetworkXError msg.
Proof.
  intros Hwf Hkeys Hval Hrm Hrun.
  apply (for_each_Raise (rewired g0 raw s3_creds_path)) in Hrun
    as (item & s0 & Hitem & Hs0 & Hbody).
  - eapply rewire_replacement_raises in Hbody; eauto.
    + apply Hbody.
    + apply uid_lt_fresh. destruct item as [p cf]. eapply Hkeys; eauto.
    + eapply validate_Ok_covered; eauto.
  - intros item s s' Hin Hs Hstep.
    eapply rewire_replacement_rewired in Hstep; eauto. apply Hstep.
  - eapply rewired_remove_nodes; eauto.
Qed.

(** X6.  What a run of the trimmer on a well-formed execution graph can
    raise: whatever the scan of the data sinks raised (lines 139-183), the
    [RuntimeError] of the validation loop that deletes from the dictionary it
    iterates (lines 185-193), a [RecursionError] of the walk over the
    predecessors (lines 195-213), or a [NetworkXError] of a node operation
    on a node that is no longer in the graph (lines 215-264).  In
    particular the look-ups [cached_files[from_field]] and
    [replacement_mapping[replacement][from_field]] of the rewiring never
    raise [KeyError]. *)
Theorem the_trimmer_raises_only (E : environment) (depth : nat)
  (wf : workflow) (output_dir container s3_creds_path : option string)
  (e : exn) :
  well_formed (generate_expanded_graph E (create_flat_graph E wf)) ->
  the_trimmer E depth wf output_dir container s3_creds_path = Raise e ->
  scan E (generate_expanded_graph E (create_flat_graph E wf))
    output_dir container = Raise e \/
  e = RuntimeError "dictionary changed size during iteration" \/
  e = RecursionError \/
  exists msg, e = NetworkXError msg.
Proof.
  intros Hwf. unfold the_trimmer, trim.
  set (g0 := generate_expanded_graph E (create_flat_graph E wf)) in *.
  destruct (scan E g0 output_dir container) as [[raw dels0]|e0] eqn:Hscan;
    simpl; [|intros [= <-]; now left].
  intros Hrun. right. revert Hrun.
  destruct (validate g0 raw) as [v|e0] eqn:Hval; simpl.
  - pose proof (validate_Ok _ _ Hval) as ->.
    destruct (prune g0 depth raw dels0) as [dels|e0] eqn:Hprune; simpl.
    + destruct (remove_nodes dels g0) as [g1|e0] eqn:Hrm; simpl.
      * destruct (for_each raw (rewire_replacement s3_creds_path)
                    (mkRewrite g1 [] [] (fresh_uid g0))) as [st|e0] eqn:Hrw;
          simpl.
        -- destruct (for_each (rs_input_nodes st) drop_unused_input
                       (rs_graph st)) as [g2|e0] eqn:Hgc; simpl;
             [discriminate|].
           intros [= <-]. right. right.
           apply (for_each_Raise (fun _ => True)) in Hgc
             as (n & g & _ & _ & Hbody); auto.
           now apply drop_unused_input_raises in Hbody.
        -- intros [= <-]. right. right.
           eapply rewiring_raises; eauto.
           eapply scan_keys_are_nodes; eauto.
      * intros [= <-]. right. right. unfold remove_nodes in Hrm.
        apply (for_each_Raise (fun _ => True)) in Hrm
          as (n & g & _ & _ & Hbody); auto.
        now apply remove_node_raises in Hbody.
    + intros [= <-]. right. left. eapply prune_raises; eauto.
  - intros [= <-]. left. rewrite validate_eq in Hval.
    destruct (existsb _ raw); congruence.
Qed.

Lemma shared_field_well_formed :
  well_formed
    (generate_expanded_graph
       (Scenarios.local_env Scenarios.shared_field_fs)
       (create_flat_graph (Scenarios.local_env Scenarios.shared_field_fs)
          (mkWorkflow "wf" Scenarios.shared_field))).
Proof.
  split; [|split].
  - repeat constructor; simpl; intuition discriminate.
  - repeat constructor; simpl; intuition discriminate.
  - intros e [<-|[<-|[<-|[<-|[]]]]]; simpl; auto 10.
Qed.

Lemma the_trimmer_raises_only_witness :
  exists e,
    the_trimmer (Scenarios.local_env Scenarios.shared_field_fs) 100
      (mkWorkflow "wf" Scenarios.shared_field) None None None = Raise e /\
    (scan (Scenarios.local_env Scenarios.shared_field_fs)
       Scenarios.shared_field None None = Raise e \/
     e = RuntimeError "dictionary changed size during iteration" \/
     e = RecursionError \/
     exists msg, e = NetworkXError msg).
Proof.
  eexists. split; [vm_compute; reflexivity|].
  exact (@the_trimmer_raises_only
           (Scenarios.local_env Scenarios.shared_field_fs) 100
           (mkWorkflow "wf" Scenarios.shared_field) None None None _
           shared_field_well_formed eq_refl).
Defined.

(** ** The walk over the predecessors on any graph (lines 195-208) *)

Lemma for_each_raises_at {A S : Type} (xs : list A)
  (body : A -> S -> result S) (x : A) :
  In x xs -> (forall s, exists e, body x s = Raise e) ->
  forall s, exists e, for_each xs body s = Raise e.
Proof.
  induction xs as [|y xs IH]; intros Hx Hraise s; simpl; [easy|].
  destruct (body y s) as [s'|e] eqn:Hb; simpl; [|eauto].
  destruct Hx as [->|Hx]; [|now apply IH].
  destruct (Hraise s) as (e & He). congruence.
Qed.

(** The pairs [g.in_edges(c)] lists are distinct. *)
Lemma in_edges_NoDup (g : digraph) (c : node) :
  NoDup (map fst (edges g)) -> NoDup (in_edges g c).
Proof.
  unfold in_edges. induction (edges g) as [|e es IH]; simpl; intros Hes.
  - constructor.
  - inversion Hes as [|? ? Hfirst Hrest]; subst.
    destruct (node_eqb (e_dst e) c); simpl; [|now apply IH].
    constructor; [|now apply IH]. intros Hin. apply Hfirst.
    apply in_map_iff in Hin as (e' & Heq & Hin).
    apply filter_In in Hin as [Hin _]. apply in_map_iff. eauto.
Qed.

Section WalkAny.
Variable g : digraph.

Lemma in_out_edges (p c : node) :
  In (p, c) (in_edges g c) -> In (p, c) (out_edges g p).
Proof.
  intros H. apply in_edges_In in H as [_ ([[u v] cs] & He & Hu & Hv)].
  unfold e_src, e_dst in *. simpl in *. subst.
  unfold out_edges. apply in_map_iff. exists (p, c, cs).
  split; [reflexivity|]. apply filter_In. split; [assumption|].
  apply node_eqb_refl.
Qed.

Lemma only_feeds_next (y s s' : node) :
  only_feeds g y s -> only_feeds g y s' -> s = s'.
Proof.
  intros [Hin _] [_ Hall]. apply in_out_edges in Hin.
  apply (Hall _ Hin).
Qed.

Lemma only_feeds_edge (y s : node) :
  only_feeds g y s ->
  exists e, In e (edges g) /\ e_src e = y /\ e_dst e = s.
Proof.
  intros [Hin _]. now apply in_edges_In in Hin as [_ H].
Qed.

Lemma walk_snoc (c p q : node) :
  walk g c p -> only_feeds g q p -> walk g c q.
Proof.
  induction 1 as [c p Hp|c p q' Hp Hw IH]; intros Hq.
  - apply walk_up with p; [assumption|now apply walk_pred].
  - apply walk_up with p; auto.
Qed.

(** The node a walked node feeds is the start of the walk or walked. *)
Lemma walk_next (c y : node) :
  walk g c y -> exists s, only_feeds g y s /\ (s = c \/ walk g c s).
Proof.
  induction 1 as [c y Hy|c p y Hp Hw (s & Hs & IH)].
  - exists c. auto.
  - exists s. split; [assumption|]. right.
    destruct IH as [->|IH]; [now apply walk_pred|now apply walk_up with p].
Qed.

Lemma walk_linear (p p' y : node) :
  walk g p y -> walk g p' y -> p = p' \/ walk g p p' \/ walk g p' p.
Proof.
  intros H. revert p'. induction H as [p y Hy|p m y Hm Hw IH]; intros p' H'.
  - destruct (walk_next H') as (s & Hs & Hcase).
    rewrite (only_feeds_next Hy Hs). destruct Hcase as [->|Hcase]; auto.
  - destruct (IH p' H') as [<-|[Hmp|Hpm]].
    + right. left. now apply walk_pred.
    + right. left. now apply walk_up with m.
    + destruct (walk_next Hpm) as (s & Hs & Hcase).
      rewrite (only_feeds_next Hm Hs). destruct Hcase as [->|Hcase]; auto.
Qed.

(** Two predecessors of [c] through which the same node is walked are one,
    unless [c] is walked from itself. *)
Lemma hop_unique (c p p' y : node) :
  only_feeds g p c -> only_feeds g p' c ->
  y = p \/ walk g p y -> y = p' \/ walk g p' y ->
  p = p' \/ walk g c c.
Proof.
  intros Hp Hp' Hy Hy'.
  assert (Hup : forall a b, only_feeds g a c -> only_feeds g b c ->
                            walk g a b -> walk g c c).
  { intros a b Ha Hb Hab. destruct (walk_next Hab) as (s & Hs & Hcase).
    rewrite <- (only_feeds_next Hb Hs) in Hcase.
    destruct Hcase as [<-|Hcase].
    - now apply walk_pred.
    - now apply walk_up with a. }
  destruct Hy as [->|Hy], Hy' as [->|Hy']; auto.
  - right. now apply (Hup p' p).
  - right. now apply (Hup p p').
  - destruct (walk_linear Hy Hy') as [|[H|H]]; auto.
    + right. now apply (Hup p p').
    + right. now apply (Hup p' p).
Qed.

(** A node that is walked from itself exhausts every recursion limit. *)
Lemma cycle_raises (depth : nat) (c : node) :
  walk g c c -> recurse_predecessors depth g c = Raise RecursionError.
Proof.
  revert c. induction depth as [|d IH]; intros c Hc; [reflexivity|].
  assert (H : exists e, recurse_predecessors (S d) g c = Raise e).
  { simpl. apply walk_unfold in Hc as (p & Hp & Hcase).
    assert (Hpp : walk g p p).
    { destruct Hcase as [->|Hw]; [now apply walk_pred|].
      now apply walk_snoc with c. }
    apply for_each_raises_at with (x := (p, c)); [apply Hp|].
    intros s. destruct Hp as [_ Hall].
    rewrite (proj2 (only_consumer_spec g p c) Hall).
    rewrite (IH p Hpp). simpl. eauto. }
  destruct H as (e & He). rewrite He. f_equal.
  now apply recurse_predecessors_raises in He.
Qed.

(** Whenever the walk returns it has yielded the walked nodes, and each of
    them once when the graph has one edge per ordered pair. *)
Lemma recurse_predecessors_Ok (depth : nat) :
  forall c l,
    recurse_predecessors depth g c = Ok l ->
    (forall q, In q l <-> walk g c q) /\
    (NoDup (map fst (edges g)) -> NoDup l).
Proof.
  induction depth as [|d IH]; intros c l Hrun; [discriminate|].
  assert (Hacyc : ~ walk g c c).
  { intros Hc. rewrite (cycle_raises (S d) Hc) in Hrun. discriminate. }
  simpl in Hrun.
  assert (Hloop : forall inps yielded l,
             (forall x, In x inps -> In x (in_edges g c)) ->
             for_each inps
               (fun '(node, _) yielded =>
                  if existsb (fun '(_, outnode) =>
                                negb (node_eqb outnode c))
                       (out_edges g node)
                  then Ok yielded
                  else
                    upstream <- recurse_predecessors d g node ;;
                    Ok (yielded ++ node :: upstream))
               yielded = Ok l ->
             exists parts,
               l = yielded ++ parts /\
               (forall q, In q parts <->
                          exists p, In (p, c) inps /\ only_feeds g p c /\
                                    (q = p \/ walk g p q)) /\
               (NoDup (map fst (edges g)) -> NoDup inps -> NoDup parts)).
  { clear Hrun l.
    induction inps as [|[p c'] inps IHl]; intros yielded l Hsub Hrun;
      simpl in Hrun.
    - injection Hrun as <-. exists []. rewrite app_nil_r.
      split; [reflexivity|]. split; [|constructor].
      intros q. split; [easy|]. intros (p & [] & _).
    - assert (Hpc : In (p, c') (in_edges g c)) by (apply Hsub; now left).
      pose proof Hpc as Hpc'.
      apply in_edges_In in Hpc' as [-> _].
      assert (Hsub' : forall x, In x inps -> In x (in_edges g c))
        by (intros x Hx; apply Hsub; now right).
      destruct (existsb _ (out_edges g p)) eqn:Hout; simpl in Hrun.
      + destruct (IHl yielded l Hsub' Hrun) as (parts & -> & Hiff & Hnd).
        exists parts. split; [reflexivity|]. split.
        * intros q. rewrite Hiff.
          split; intros (p' & Hin & Hfeeds & Hq).
          -- exists p'. simpl. auto.
          -- destruct Hin as [[= ->]|Hin]; [|eauto].
             destruct Hfeeds as [_ Hall].
             pose proof (proj2 (only_consumer_spec g p' c) Hall).
             congruence.
        * intros Hpairs Hinps. apply Hnd; [assumption|].
          now inversion Hinps.
      + apply bind_Ok_inv in Hrun as (s' & Hb & Hrun).
        apply bind_Ok_inv in Hb as (up & Hup & [= <-]).
        destruct (IH p up Hup) as [Hupiff Hupnd].
        destruct (IHl _ l Hsub' Hrun) as (parts & -> & Hiff & Hnd).
        pose proof (proj1 (only_consumer_spec g p c) Hout) as Hall.
        assert (Hp : only_feeds g p c) by (split; assumption).
        exists (p :: up ++ parts). split.
        { rewrite <- app_assoc. reflexivity. }
        split.
        * intros q. simpl. rewrite in_app_iff, Hupiff, Hiff. split.
          -- intros [<-|[Hw|(p' & Hin & Hfeeds & Hq)]].
             ++ exists p. auto.
             ++ exists p. auto.
             ++ exists p'. auto.
          -- intros (p' & [[= <-]|Hin] & Hfeeds & [->|Hq]); auto.
             ++ right. right. exists p'. auto.
             ++ right. right. exists p'. auto.
        * intros Hpairs Hinps. inversion Hinps as [|? ? Hfirst Hrest]; subst.
          assert (Hother : forall q, q = p \/ walk g p q -> ~ In q parts).
          { intros q Hq Hin. apply Hiff in Hin as (p' & Hin & Hfeeds & Hq').
            destruct (hop_unique Hp Hfeeds Hq Hq') as [<-|Hc]; auto. }
          constructor.
          -- rewrite in_app_iff, Hupiff. intros [Hw|Hin].
             ++ rewrite (cycle_raises d Hw) in Hup. discriminate.
             ++ apply (Hother p); auto.
          -- apply NoDup_app; auto.
             intros q Hq. apply Hother. right. now apply Hupiff. }
  destruct (Hloop (in_edges g c) [] l (fun x H => H) Hrun)
    as (parts & -> & Hiff & Hnd).
  simpl. split.
  - intros q. rewrite Hiff, walk_unfold. split.
    + intros (p & _ & Hp & Hq). eauto.
    + intros (p & Hp & Hq). exists p. split; [apply Hp|auto].
  - intros Hpairs. apply Hnd; [assumption|].
    now apply in_edges_NoDup.
Qed.

End WalkAny.

(** X8.  Whenever the walk over the predecessors of [c] returns, on any
    graph with one edge per ordered pair and at any recursion limit, it has
    yielded exactly the nodes reached from [c] by going upstream through
    nodes that feed nothing but the node below them, and each of them
    once. *)
Theorem walk_yields_each_walked_node_once (g : digraph) (depth : nat)
  (c : node) (l : list node) :
  NoDup (map fst (edges g)) ->
  recurse_predecessors depth g c = Ok l ->
  NoDup l /\ forall q, In q l <-> walk g c q.
Proof.
  intros Hpairs Hrun.
  destruct (recurse_predecessors_Ok _ _ _ Hrun) as [Hiff Hnd]. auto.
Qed.

Lemma walk_yields_each_walked_node_once_witness :
  recurse_predecessors 10 Scenarios.diamond Scenarios.C1
  = Ok [Scenarios.B1] /\
  NoDup [Scenarios.B1] /\
  forall q, In q [Scenarios.B1] <-> walk Scenarios.diamond Scenarios.C1 q.
Proof.
  split; [reflexivity|].
  apply (@walk_yields_each_walked_node_once Scenarios.diamond 10
           Scenarios.C1 [Scenarios.B1]); [|reflexivity].
  repeat constructor; simpl; intuition discriminate.
Defined.

(** ** When the graph surgery returns (lines 215-264) *)

Section DictKeys.
Variables K V : Type.
Variable eqb : K -> K -> bool.
Hypothesis eqb_eq : forall a b, eqb a b = true <-> a = b.

Lemma set_keys_NoDup (k : K) (v : V) (d : PyDict.t K V) :
  NoDup (map fst d) -> NoDup (map fst (PyDict.set eqb k v d)).
Proof.
  induction d as [|[k' v'] d IH]; simpl; intros Hd.
  - constructor; [easy|constructor].
  - inversion Hd as [|? ? Hnot Hrest]; subst.
    destruct (eqb k k') eqn:Hk; simpl; [constructor; assumption|].
    constructor; [|auto]. intros Hin.
    apply in_map_iff in Hin as ([k0 v0] & Hfst & Hin). simpl in Hfst.
    subst k0. apply (In_set eqb eqb_eq) in Hin as [[= <- <-]|Hin].
    + rewrite (eqb_refl' eqb eqb_eq) in Hk. discriminate.
    + apply Hnot. apply in_map_iff. exists (k', v0). auto.
Qed.

End DictKeys.

Lemma record_keys_NoDup (src : node) (f file : string) (r : replacements_t) :
  NoDup (map fst r) -> NoDup (map fst (record src f file r)).
Proof.
  intros Hr. unfold record. apply (set_keys_NoDup node_eqb node_eqb_eq).
  destruct (PyDict.contains node_eqb src r); [assumption|].
  now apply (set_keys_NoDup node_eqb node_eqb_eq).
Qed.

(** The raw map has one entry per producer. *)
Lemma scan_keys_NoDup (E : environment) (g : digraph)
  (output_dir container : option string) (raw : replacements_t)
  (dels : list node) :
  scan E g output_dir container = Ok (raw, dels) ->
  NoDup (map fst raw).
Proof.
  unfold scan. intros H. change raw with (fst (raw, dels)). revert H.
  apply (for_each_invariant
           (fun st : replacements_t * list node => NoDup (map fst (fst st))));
    [|constructor].
  intros datasink [r ds] [r' ds'] _ Hr Hstep. simpl in *.
  apply scan_datasink_inv in Hstep as [Hstep _]. revert Hstep.
  apply (for_each_invariant
           (fun r : replacements_t => NoDup (map fst r))); [|assumption].
  intros [src dst] s s' _ Hs. unfold scan_in_edge.
  apply (for_each_invariant
           (fun r : replacements_t => NoDup (map fst r))); [|assumption].
  intros [f d] t t' _ Ht. rewrite scan_connection_eq.
  destruct (list_files E _ None) as [files|]; [|discriminate].
  destruct (List.length files =? 1); intros [= <-]; [|assumption].
  now apply record_keys_NoDup.
Qed.

(** The DataSinks the scan marks for deletion are DataSinks of the graph,
    each marked once. *)
Lemma scan_deletions (E : environment) (g : digraph)
  (output_dir container : option string) (raw : replacements_t)
  (dels : list node) :
  NoDup (nodes g) ->
  scan E g output_dir container = Ok (raw, dels) ->
  NoDup dels /\
  forall d, In d dels -> In d (nodes g) /\ is_datasink d = true.
Proof.
  intros Hnodes Hscan. unfold scan in Hscan.
  assert (Hloop : forall xs st st',
             for_each xs (scan_datasink E g output_dir container) st
             = Ok st' ->
             exists new, snd st' = snd st ++ new /\
                         (forall d, In d new -> In d xs) /\
                         (NoDup xs -> NoDup new)).
  { induction xs as [|x xs IH]; intros st st' Hrun; simpl in Hrun.
    - injection Hrun as <-. exists []. rewrite app_nil_r.
      split; [reflexivity|]. split; [easy|constructor].
    - apply bind_Ok_inv in Hrun as ([r1 ds1] & Hx & Hrest).
      destruct st as [r ds].
      apply scan_datasink_inv in Hx as [_ Hds].
      destruct (IH _ _ Hrest) as (new & Hnew & Hin & Hnd).
      simpl in *. rewrite Hnew, Hds.
      destruct (datasink_cached g r1 x).
      + exists (x :: new). rewrite <- app_assoc. split; [reflexivity|].
        split.
        * intros d [->|Hd]; auto.
        * intros Hxs. inversion Hxs as [|? ? Hnot Hrest']; subst.
          constructor; auto.
      + exists new. split; [reflexivity|]. split.
        * intros d Hd; auto.
        * intros Hxs. inversion Hxs; auto. }
  destruct (Hloop _ _ _ Hscan) as (new & Hnew & Hin & Hnd).
  simpl in Hnew. subst dels.
  assert (Hex : NoDup (execnodes g)) by (now apply NoDup_filter).
  split; [auto|]. intros d Hd. apply Hin in Hd.
  unfold execnodes in Hd. now apply filter_In in Hd.
Qed.

(** What the pruning adds to the deletions: the nodes walked from the
    producers of the map, each once when no producer is walked from
    another. *)
Lemma prune_Ok (g : digraph) (depth : nat) (raw : replacements_t) :
  forall dels0 dels,
    prune g depth raw dels0 = Ok dels ->
    exists pruned,
      dels = dels0 ++ pruned /\
      (forall q, In q pruned <->
                 exists item, In item raw /\ walk g (fst item) q) /\
      (NoDup (map fst (edges g)) -> NoDup (map fst raw) ->
       (forall item item', In item raw -> In item' raw ->
                           ~ walk g (fst item) (fst item')) ->
       NoDup pruned).
Proof.
  unfold prune.
  induction raw as [|[r cf] raw IH]; intros dels0 dels Hrun; simpl in Hrun.
  - injection Hrun as <-. exists []. rewrite app_nil_r.
    split; [reflexivity|]. split; [|constructor].
    intros q. split; [easy|]. intros (item & [] & _).
  - apply bind_Ok_inv in Hrun as (dels1 & Hb & Hrun).
    apply bind_Ok_inv in Hb as (up & Hup & [= <-]).
    destruct (recurse_predecessors_Ok _ _ _ Hup) as [Hupiff Hupnd].
    destruct (IH _ _ Hrun) as (pruned & -> & Hiff & Hnd).
    exists (up ++ pruned). split; [now rewrite app_assoc|]. split.
    + intros q. rewrite in_app_iff, Hupiff, Hiff. split.
      * intros [Hw|(item & Hin & Hw)].
        -- exists (r, cf). simpl. auto.
        -- exists item. simpl. auto.
      * intros (item & [<-|Hin] & Hw); [now left|]. right. eauto.
    + intros Hpairs Hkeys Hsep. simpl in Hkeys.
      inversion Hkeys as [|? ? Hnot Hrest]; subst.
      apply NoDup_app; [auto| |].
      * apply Hnd; auto. intros item item' Hi Hi'.
        apply Hsep; now right.
      * intros q Hq Hq'. apply Hupiff in Hq.
        apply Hiff in Hq' as ([r' cf'] & Hin & Hw). simpl in Hw.
        destruct (walk_linear Hq Hw) as [->|[H|H]].
        -- apply Hnot. apply in_map_iff. exists (r', cf'). auto.
        -- apply (Hsep (r, cf) (r', cf')); simpl; auto.
        -- apply (Hsep (r', cf') (r, cf)); simpl; auto.
Qed.

Section Leaves.
Variable g : digraph.
Hypothesis leaves : datasinks_are_leaves g.

Lemma walked_is_no_datasink (c q : node) :
  walk g c q -> is_datasink q = false.
Proof.
  intros Hw. destruct (walk_next Hw) as (s & Hs & _).
  destruct (only_feeds_edge Hs) as (e & He & <- & _). now apply leaves.
Qed.

(** A node that feeds a DataSink is not walked from a node that feeds
    anything. *)
Lemma feeder_not_walked (c q datasink : node) :
  is_datasink datasink = true ->
  In (q, datasink) (in_edges g datasink) ->
  (exists e, In e (edges g) /\ e_src e = c) ->
  ~ walk g c q.
Proof.
  intros Hds Hq (e & He & Hsrc) Hw.
  destruct (walk_next Hw) as (s & [_ Hall] & Hcase).
  apply in_out_edges in Hq. specialize (Hall _ Hq). simpl in Hall.
  subst s. destruct Hcase as [->|Hcase].
  - apply leaves in He. congruence.
  - apply walked_is_no_datasink in Hcase. congruence.
Qed.

End Leaves.

(** With leaf DataSinks the deletions hold no node twice, only nodes of the
    graph, and no producer of the map. *)
Lemma deletions_disjoint (E : environment) (g : digraph)
  (output_dir container : option string) (depth : nat)
  (raw : replacements_t) (dels0 dels : list node) :
  well_formed g ->
  datasinks_are_leaves g ->
  scan E g output_dir container = Ok (raw, dels0) ->
  prune g depth raw dels0 = Ok dels ->
  NoDup dels /\
  (forall d, In d dels -> In d (nodes g)) /\
  (forall item, In item raw -> ~ In (fst item) dels).
Proof.
  intros (Hnodes & Hpairs & Hends) Hleaves Hscan Hprune.
  destruct (scan_deletions _ _ _ _ Hnodes Hscan) as [Hnd0 Hds0].
  pose proof (scan_keys_NoDup _ _ _ _ Hscan) as Hkeys.
  assert (Hfeed : forall p cf,
             In (p, cf) raw ->
             exists datasink, is_datasink datasink = true /\
                              In (p, datasink) (in_edges g datasink)).
  { intros p cf Hp.
    destruct (scan_keys_feed_datasinks _ _ _ _ Hscan p cf Hp)
      as (datasink & Hin & Hedge).
    exists datasink. split; [|assumption].
    unfold execnodes in Hin. now apply filter_In in Hin. }
  assert (Hout : forall p cf,
             In (p, cf) raw -> exists e, In e (edges g) /\ e_src e = p).
  { intros p cf Hp. destruct (Hfeed p cf Hp) as (datasink & _ & Hedge).
    apply in_edges_In in Hedge as [_ (e & He & Hsrc & _)]. eauto. }
  assert (Hsep : forall item item', In item raw -> In item' raw ->
                                    ~ walk g (fst item) (fst item')).
  { intros [r cf] [r' cf'] Hr Hr'. simpl.
    destruct (Hfeed r' cf' Hr') as (datasink & Hds & Hedge).
    eapply feeder_not_walked; eauto. }
  destruct (prune_Ok _ _ _ _ Hprune) as (pruned & -> & Hiff & Hnd).
  split; [|split].
  - apply NoDup_app; auto. intros d Hd Hd'.
    apply Hds0 in Hd as [_ Hd].
    apply Hiff in Hd' as (item & _ & Hw).
    apply (walked_is_no_datasink Hleaves) in Hw. congruence.
  - intros d Hd. apply in_app_iff in Hd as [Hd|Hd]; [now apply Hds0|].
    apply Hiff in Hd as (item & _ & Hw).
    destruct (walk_next Hw) as (s & Hs & _).
    destruct (only_feeds_edge Hs) as (e & He & <- & _). now apply Hends.
  - intros [r cf] Hr Hd. simpl in Hd.
    apply in_app_iff in Hd as [Hd|Hd].
    + apply Hds0 in Hd as [_ Hd].
      destruct (Hout r cf Hr) as (e & He & <-).
      apply Hleaves in He. congruence.
    + apply Hiff in Hd as (item & Hitem & Hw).
      apply (Hsep item (r, cf)); assumption.
Qed.

Lemma remove_nodes_total (deletions : list node) :
  forall g,
    NoDup deletions ->
    (forall d, In d deletions -> In d (nodes g)) ->
    exists g1, remove_nodes deletions g = Ok g1.
Proof.
  unfold remove_nodes.
  induction deletions as [|d ds IH]; intros g Hnd Hin; simpl; [eauto|].
  inversion Hnd as [|? ? Hnot Hrest]; subst.
  destruct (remove_node g d) as [g'|e] eqn:Hrm; simpl.
  - apply IH; [assumption|]. intros x Hx.
    apply remove_node_Ok in Hrm as (_ & -> & _). apply filter_In.
    split; [apply Hin; now right|].
    apply negb_true_iff, node_eqb_neq. intros ->. contradiction.
  - apply remove_node_raises in Hrm as [Hrm _].
    exfalso. apply Hrm. apply Hin. now left.
Qed.

Section InputsPresent.
Variable g0 : digraph.
Variable raw : replacements_t.
Variable s3_creds_path : option string.

Lemma rewire_connection_inputs_present (replacement to_node : node)
  (cached_files : fields) (c : connection) (st st' : rewrite_state) :
  rewired g0 raw s3_creds_path st ->
  inputs_present st ->
  rewire_connection s3_creds_path replacement cached_files to_node c st
  = Ok st' ->
  inputs_present st'.
Proof.
  intros (_ & _ & _ & _ & _ & _ & _ & _ & Hinp & _) [Hnd Hin] Hrun.
  destruct c as [ff tf]. unfold rewire_connection in Hrun.
  apply bind_Ok_inv in Hrun as (t1 & Ht1 & Hrun).
  set (mapping1 :=
         if PyDict.contains node_eqb replacement (rs_mapping st)
         then rs_mapping st
         else PyDict.set node_eqb replacement [] (rs_mapping st)) in *.
  assert (H1 : inputs_present t1).
  { revert Ht1. destruct (field_in ff (get_or_empty replacement mapping1)).
    - intros [= <-]. split; assumption.
    - destruct (PyDict.get String.eqb ff cached_files); [|discriminate].
      intros [= <-]. split; cbn [rs_input_nodes rs_graph].
      + apply NoDup_app; [assumption|constructor; [easy|constructor]|].
        intros a Ha [<-|[]]. apply Hinp in Ha. simpl in Ha. lia.
      + intros x Hx. apply (proj2 (In_add_node _ _ _)).
        apply in_app_iff in Hx as [Hx|[<-|[]]]; auto. }
  revert Hrun.
  destruct (PyDict.get String.eqb ff
              (get_or_empty replacement (rs_mapping t1)));
    [|discriminate].
  intros [= <-]. destruct H1 as [Hnd1 Hin1].
  split; cbn [rs_input_nodes rs_graph]; [assumption|]. intros x Hx.
  apply (proj2 (In_nodes_add_edge _ _ _ _ _)). left. auto.
Qed.

Lemma rewire_replacement_inputs_present (item : node * fields)
  (st st' : rewrite_state) :
  In item raw ->
  uid (fst item) < fresh_uid g0 ->
  rewired g0 raw s3_creds_path st ->
  inputs_present st ->
  rewire_replacement s3_creds_path item st = Ok st' ->
  inputs_present st'.
Proof.
  intros Hitem Hold Hinv Hpres Hrun.
  destruct item as [replacement cached_files]. simpl in Hold.
  unfold rewire_replacement in Hrun.
  apply bind_Ok_inv in Hrun as (outs & Houts & Hrun).
  apply bind_Ok_inv in Hrun as (st1 & Hloop & Hrun).
  apply bind_Ok_inv in Hrun as (g1 & Hrm & Hrun).
  injection Hrun as <-.
  assert (Hto : forall to_node,
             In to_node outs ->
             In to_node (nodes (rs_graph st)) /\ uid to_node < fresh_uid g0)
    by (eapply successors_rewired; eauto).
  assert (H1 : (rewired g0 raw s3_creds_path st1 /\ inputs_present st1) /\
               forall x, In x (nodes (rs_graph st)) ->
                         In x (nodes (rs_graph st1))).
  { revert Hloop.
    apply (for_each_invariant
             (fun s => (rewired g0 raw s3_creds_path s /\ inputs_present s) /\
                       forall x, In x (nodes (rs_graph st)) ->
                                 In x (nodes (rs_graph s)))); [|auto].
    intros to_node s s' Hin Hs.
    apply (for_each_invariant
             (fun s => (rewired g0 raw s3_creds_path s /\ inputs_present s) /\
                       forall x, In x (nodes (rs_graph st)) ->
                                 In x (nodes (rs_graph s)))); [|auto].
    intros c t t' _ [[Ht Hpt] Hmono] Hstep.
    destruct (Hto to_node Hin) as [Hnode Hto_old].
    assert (H : rewired g0 raw s3_creds_path t' /\
                forall x, In x (nodes (rs_graph t)) ->
                          In x (nodes (rs_graph t')))
      by (eapply rewire_connection_rewired; eauto).
    destruct H as [Ht' Hmono'].
    split; [split; [assumption|]|auto].
    eapply rewire_connection_inputs_present;
      [exact Ht|exact Hpt|exact Hstep]. }
  destruct H1 as [[Hinv1 [Hnd1 Hin1]] _].
  destruct Hinv1 as (_ & _ & _ & _ & _ & _ & _ & _ & Hinp & _).
  split; cbn [rs_input_nodes rs_graph]; [assumption|]. intros x Hx.
  apply remove_node_Ok in Hrm as (_ & -> & _). apply filter_In.
  split; [auto|]. apply negb_true_iff, node_eqb_neq. intros ->.
  apply Hinp in Hx. lia.
Qed.

(** The rewiring returns when its producers are nodes of the graph it
    starts from. *)
Lemma rewiring_returns :
  well_formed g0 ->
  (forall item, In item raw -> In (fst item) (nodes g0)) ->
  validate g0 raw = Ok raw ->
  forall items st,
    (forall item, In item items -> In item raw) ->
    NoDup (map fst items) ->
    rewired g0 raw s3_creds_path st ->
    inputs_present st ->
    (forall item, In item items -> In (fst item) (nodes (rs_graph st))) ->
    exists st',
      for_each items (rewire_replacement s3_creds_path) st = Ok st' /\
      inputs_present st'.
Proof.
  intros Hwf Hkeys Hval.
  induction items as [|item items IH];
    intros st Hsub Hnd Hinv Hpres Hin; simpl; [eauto|].
  inversion Hnd as [|? ? Hnot Hrest]; subst.
  assert (Hitem : In item raw) by (apply Hsub; now left).
  assert (Hold : uid (fst item) < fresh_uid g0)
    by (apply uid_lt_fresh; now apply Hkeys).
  destruct (rewire_replacement s3_creds_path item st) as [st1|e] eqn:Hstep;
    simpl.
  - destruct (rewire_replacement_rewired _ Hitem Hinv Hstep)
      as (Hinv1 & _ & Hkeep).
    apply IH; auto.
    + intros y Hy. apply Hsub. now right.
    + eapply rewire_replacement_inputs_present;
        [exact Hitem|exact Hold|exact Hinv|exact Hpres|exact Hstep].
    + intros y Hy. apply Hkeep; [apply Hin; now right|].
      intros Heq. apply Hnot. rewrite <- Heq. now apply in_map.
  - exfalso.
    assert (H : ~ In (fst item) (nodes (rs_graph st)) /\
                exists msg, e = NetworkXError msg).
    { eapply rewire_replacement_raises; eauto.
      eapply validate_Ok_covered; eauto. }
    apply (proj1 H). apply Hin. now left.
Qed.

End InputsPresent.

Lemma drop_unused_inputs_total (ns : list node) :
  forall g,
    NoDup ns -> (forall n, In n ns -> In n (nodes g)) ->
    exists g', for_each ns drop_unused_input g = Ok g'.
Proof.
  induction ns as [|n ns IH]; intros g Hnd Hin; simpl; [eauto|].
  inversion Hnd as [|? ? Hnot Hrest]; subst.
  destruct (drop_unused_input n g) as [g1|e] eqn:Hstep; simpl.
  - apply IH; [assumption|]. intros x Hx.
    apply drop_unused_input_cases in Hstep as [[-> _]|Hrm].
    + apply Hin. now right.
    + apply remove_node_Ok in Hrm as (_ & -> & _). apply filter_In.
      split; [apply Hin; now right|].
      apply negb_true_iff, node_eqb_neq. intros ->. contradiction.
  - apply drop_unused_input_raises in Hstep as [Hstep _].
    exfalso. apply Hstep. apply Hin. now left.
Qed.

(** Lines 215-264 return when the deletions are nodes of the graph, listed
    once, and none of them is a producer of the validated map. *)
Lemma surgery_returns (g0 : digraph) (raw : replacements_t)
  (s3_creds_path : option string) (dels : list node) :
  well_formed g0 ->
  NoDup (map fst raw) ->
  (forall item, In item raw -> In (fst item) (nodes g0)) ->
  validate g0 raw = Ok raw ->
  NoDup dels ->
  (forall d, In d dels -> In d (nodes g0)) ->
  (forall item, In item raw -> ~ In (fst item) dels) ->
  exists g1 st g',
    remove_nodes dels g0 = Ok g1 /\
    for_each raw (rewire_replacement s3_creds_path)
      (mkRewrite g1 [] [] (fresh_uid g0)) = Ok st /\
    for_each (rs_input_nodes st) drop_unused_input (rs_graph st) = Ok g'.
Proof.
  intros Hwf Hkeys Hnodes Hval Hnd Hin Hsep.
  destruct (remove_nodes_total g0 Hnd Hin) as (g1 & Hrm).
  destruct (@rewiring_returns g0 raw s3_creds_path Hwf Hnodes Hval raw
              (mkRewrite g1 [] [] (fresh_uid g0)))
    as (st & Hrw & [Hndi Hpres]); auto.
  - eapply rewired_remove_nodes; eauto.
  - split; [constructor|easy].
  - intros item Hitem. simpl. eapply remove_nodes_keeps; eauto.
  - destruct (drop_unused_inputs_total (rs_graph st) Hndi Hpres)
      as (g' & Hgc).
    exists g1, st, g'. auto.
Qed.

Lemma trim_returns (E : environment) (g0 : digraph)
  (output_dir container s3_creds_path : option string) (depth : nat)
  (raw : replacements_t) (dels0 dels : list node) :
  well_formed g0 ->
  scan E g0 output_dir container = Ok (raw, dels0) ->
  validate g0 raw = Ok raw ->
  prune g0 depth raw dels0 = Ok dels ->
  NoDup dels ->
  (forall d, In d dels -> In d (nodes g0)) ->
  (forall item, In item raw -> ~ In (fst item) dels) ->
  exists g' mapping,
    trim E g0 output_dir container s3_creds_path depth
    = Ok (g', (mapping, dels)).
Proof.
  intros Hwf Hscan Hval Hprune Hnd Hin Hsep.
  destruct (@surgery_returns g0 raw s3_creds_path dels)
    as (g1 & st & g' & Hrm & Hrw & Hgc); auto.
  - eapply scan_keys_NoDup; eauto.
  - intros [p cf] Hp. eapply scan_keys_are_nodes; eauto.
  - exists g', (rs_mapping st). unfold trim.
    rewrite Hscan. simpl. rewrite Hval. simpl. rewrite Hprune. simpl.
    rewrite Hrm. simpl. rewrite Hrw. simpl. rewrite Hgc. reflexivity.
Qed.

(** X9.  On a well-formed execution graph in which no edge leaves a
    DataSink, the graph surgery of lines 215-264 never fails: once the scan
    has returned, validation has found every producer fully cached and the
    walk over the predecessors has stayed within the recursion limit, the
    trimmer returns the trimmed workflow, together with the deletions the
    scan and the walk have collected. *)
Theorem the_trimmer_returns_when_datasinks_are_leaves (E : environment)
  (depth : nat) (wf : workflow)
  (output_dir container s3_creds_path : option string)
  (raw : replacements_t) (dels0 dels : list node) :
  well_formed (generate_expanded_graph E (create_flat_graph E wf)) ->
  datasinks_are_leaves (generate_expanded_graph E (create_flat_graph E wf)) ->
  scan E (generate_expanded_graph E (create_flat_graph E wf))
    output_dir container = Ok (raw, dels0) ->
  validate (generate_expanded_graph E (create_flat_graph E wf)) raw
  = Ok raw ->
  prune (generate_expanded_graph E (create_flat_graph E wf)) depth raw dels0
  = Ok dels ->
  exists wf_new mapping,
    the_trimmer E depth wf output_dir container s3_creds_path
    = Ok (wf_new, (mapping, dels)).
Proof.
  intros Hwf Hleaves Hscan Hval Hprune.
  destruct (@deletions_disjoint E _ output_dir container depth raw dels0
              dels Hwf Hleaves Hscan Hprune)
    as (Hnd & Hin & Hsep).
  destruct (@trim_returns E _ output_dir container s3_creds_path depth
              raw dels0 dels Hwf Hscan Hval Hprune Hnd Hin Hsep)
    as (g' & mapping & Htrim).
  unfold the_trimmer. rewrite Htrim. simpl. eauto.
Qed.

Lemma diamond_well_formed :
  well_formed
    (generate_expanded_graph (Scenarios.local_env Scenarios.diamond_fs)
       (create_flat_graph (Scenarios.local_env Scenarios.diamond_fs)
          (mkWorkflow "wf" Scenarios.diamond))).
Proof.
  split; [|split].
  - repeat constructor; simpl; intuition discriminate.
  - repeat constructor; simpl; intuition discriminate.
  - intros e [<-|[<-|[<-|[<-|[<-|[<-|[]]]]]]]; simpl; auto 10.
Qed.

Lemma the_trimmer_returns_when_datasinks_are_leaves_witness :
  exists wf_new mapping,
    the_trimmer (Scenarios.local_env Scenarios.diamond_fs) 100
      (mkWorkflow "wf" Scenarios.diamond) None None None
    = Ok (wf_new,
          (mapping,
           [Scenarios.Sink1; Scenarios.Sink2; Scenarios.B1; Scenarios.B2])).
Proof.
  assert (Hleaves : datasinks_are_leaves
                      (generate_expanded_graph
                         (Scenarios.local_env Scenarios.diamond_fs)
                         (create_flat_graph
                            (Scenarios.local_env Scenarios.diamond_fs)
                            (mkWorkflow "wf" Scenarios.diamond))))
    by (intros e [<-|[<-|[<-|[<-|[<-|[<-|[]]]]]]]; reflexivity).
  exact (@the_trimmer_returns_when_datasinks_are_leaves
           (Scenarios.local_env Scenarios.diamond_fs) 100
           (mkWorkflow "wf" Scenarios.diamond) None None None
           [(Scenarios.C1, [("out"%string, "/out/sub-1/file1/file1.txt"%string)]);
            (Scenarios.C2, [("out"%string, "/out/sub-1/file2/file2.txt"%string)])]
           [Scenarios.Sink1; Scenarios.Sink2]
           [Scenarios.Sink1; Scenarios.Sink2; Scenarios.B1; Scenarios.B2]
           diamond_well_formed Hleaves eq_refl eq_refl eq_refl).
Defined.

Lemma remove_nodes_NoDup (deletions : list node) :
  forall g g1, remove_nodes deletions g = Ok g1 -> NoDup deletions.
Proof.
  induction deletions as [|d ds IH]; intros g g1 Hrun; [constructor|].
  unfold remove_nodes in Hrun. simpl in Hrun.
  apply bind_Ok_inv in Hrun as (g' & Hd & Hrest).
  constructor; [|now apply (IH g' g1)].
  intros Hin. apply (remove_nodes_subset _ _ Hrest) in Hin.
  now apply remove_node_absent in Hd as [Hd _].
Qed.

(** Every iteration of a loop that returns has returned, from a state the
    invariant holds of. *)
Lemma for_each_Ok_at {A S : Type} (I : S -> Prop) (xs : list A)
  (body : A -> S -> result S) :
  (forall x s s', In x xs -> I s -> body x s = Ok s' -> I s') ->
  forall s r x,
    I s -> for_each xs body s = Ok r -> In x xs ->
    exists s0 s1, I s0 /\ body x s0 = Ok s1.
Proof.
  induction xs as [|y xs IH]; intros Hstep s r x Hs Hrun Hx; [easy|].
  simpl in Hrun. apply bind_Ok_inv in Hrun as (s' & Hb & Hrest).
  destruct Hx as [->|Hx]; [eauto|].
  apply (IH (fun z t t' Hz => Hstep z t t' (or_intror Hz)) s' r x);
    [|assumption|assumption].
  apply (Hstep y s s'); simpl; auto.
Qed.

Lemma pruned_are_nodes (E : environment) (g : digraph)
  (output_dir container : option string) (depth : nat)
  (raw : replacements_t) (dels0 dels : list node) :
  well_formed g ->
  scan E g output_dir container = Ok (raw, dels0) ->
  prune g depth raw dels0 = Ok dels ->
  forall d, In d dels -> In d (nodes g).
Proof.
  intros (Hnodes & _ & Hends) Hscan Hprune d Hd.
  destruct (scan_deletions _ _ _ _ Hnodes Hscan) as [_ Hds0].
  destruct (prune_Ok _ _ _ _ Hprune) as (pruned & -> & Hiff & _).
  apply in_app_iff in Hd as [Hd|Hd]; [now apply Hds0|].
  apply Hiff in Hd as (item & _ & Hw).
  destruct (walk_next Hw) as (s & Hs & _).
  destruct (only_feeds_edge Hs) as (e & He & <- & _). now apply Hends.
Qed.

(** The rewiring fails on a producer that has been deleted. *)
Lemma rewiring_needs_its_producers (g0 g1 : digraph) (raw : replacements_t)
  (s3_creds_path : option string) (dels : list node) (st : rewrite_state) :
  remove_nodes dels g0 = Ok g1 ->
  for_each raw (rewire_replacement s3_creds_path)
    (mkRewrite g1 [] [] (fresh_uid g0)) = Ok st ->
  forall item, In item raw -> ~ In (fst item) dels.
Proof.
  intros Hrm Hrw [p cf] Hitem Hp. simpl in Hp.
  destruct (@for_each_Ok_at _ _ (rewrite_inv p) raw
              (rewire_replacement s3_creds_path))
    with (s := mkRewrite g1 [] [] (fresh_uid g0)) (r := st) (x := (p, cf))
    as (s0 & s1 & (Habs & _) & Hstep); auto.
  - intros item s s' _ Hs. now apply rewire_replacement_inv.
  - split; [|split]; simpl.
    + eapply remove_nodes_absent; eauto.
    + apply uid_lt_fresh. eapply remove_nodes_subset; eauto.
    + intros q m f n [].
  - unfold rewire_replacement in Hstep.
    apply bind_Ok_inv in Hstep as (outs & Houts & _).
    unfold successors in Houts.
    destruct (has_node (rs_graph s0) p) eqn:Hn; [|discriminate].
    apply has_node_In in Hn. now apply Habs.
Qed.

(** X10.  When the graph surgery of lines 215-264 returns: once the scan,
    the validation and the walk over the predecessors have returned on a
    well-formed execution graph, the trimmer returns exactly when the
    deletions hold no node twice and no producer of the validated map;
    otherwise a node operation finds its node already removed and the
    trimmer raises. *)
Theorem the_trimmer_returns_iff_deletions_are_apart (E : environment)
  (depth : nat) (wf : workflow)
  (output_dir container s3_creds_path : option string)
  (raw : replacements_t) (dels0 dels : list node) :
  well_formed (generate_expanded_graph E (create_flat_graph E wf)) ->
  scan E (generate_expanded_graph E (create_flat_graph E wf))
    output_dir container = Ok (raw, dels0) ->
  validate (generate_expanded_graph E (create_flat_graph E wf)) raw
  = Ok raw ->
  prune (generate_expanded_graph E (create_flat_graph E wf)) depth raw dels0
  = Ok dels ->
  (exists wf_new mapping,
     the_trimmer E depth wf output_dir container s3_creds_path
     = Ok (wf_new, (mapping, dels))) <->
  NoDup dels /\ forall item, In item raw -> ~ In (fst item) dels.
Proof.
  intros Hwf Hscan Hval Hprune. split.
  - intros (wf_new & mapping & Hrun).
    apply the_trimmer_Ok in Hrun as [Hrun _].
    apply trim_Ok in Hrun
      as (raw' & dels0' & g1 & st & Hscan' & _ & _ & Hrm & Hrw & _).
    rewrite Hscan in Hscan'. injection Hscan' as <- <-.
    split; [eapply remove_nodes_NoDup; eauto|].
    eapply rewiring_needs_its_producers; eauto.
  - intros [Hnd Hsep].
    destruct (@trim_returns E _ output_dir container s3_creds_path depth
                raw dels0 dels Hwf Hscan Hval Hprune Hnd)
      as (g' & mapping & Htrim); [|assumption|].
    + eapply pruned_are_nodes; eauto.
    + unfold the_trimmer. rewrite Htrim. simpl. eauto.
Qed.

Lemma chained_sinks_well_formed :
  well_formed
    (generate_expanded_graph (Scenarios.local_env Scenarios.diamond_fs)
       (create_flat_graph (Scenarios.local_env Scenarios.diamond_fs)
          (mkWorkflow "wf" Scenarios.chained_sinks))).
Proof.
  split; [|split].
  - repeat constructor; simpl; intuition discriminate.
  - repeat constructor; simpl; intuition discriminate.
  - intros e [<-|[<-|[]]]; simpl; auto.
Qed.

Lemma the_trimmer_returns_iff_deletions_are_apart_witness :
  (exists wf_new mapping,
     the_trimmer (Scenarios.local_env Scenarios.diamond_fs) 100
       (mkWorkflow "wf" Scenarios.chained_sinks) None None None
     = Ok (wf_new,
           (mapping, [Scenarios.Sink1; Scenarios.Sink2; Scenarios.R]))) <->
  NoDup [Scenarios.Sink1; Scenarios.Sink2; Scenarios.R] /\
  forall item,
    In item
      [(Scenarios.R, [("out"%string, "/out/sub-1/file1/file1.txt"%string)]);
       (Scenarios.Sink1,
        [("out_file"%string, "/out/sub-1/file2/file2.txt"%string)])] ->
    ~ In (fst item) [Scenarios.Sink1; Scenarios.Sink2; Scenarios.R].
Proof.
  exact (@the_trimmer_returns_iff_deletions_are_apart
           (Scenarios.local_env Scenarios.diamond_fs) 100
           (mkWorkflow "wf" Scenarios.chained_sinks) None None None
           [(Scenarios.R,
             [("out"%string, "/out/sub-1/file1/file1.txt"%string)]);
            (Scenarios.Sink1,
             [("out_file"%string, "/out/sub-1/file2/file2.txt"%string)])]
           [Scenarios.Sink1; Scenarios.Sink2]
           [Scenarios.Sink1; Scenarios.Sink2; Scenarios.R]
           chained_sinks_well_formed eq_refl eq_refl eq_refl).
Defined.

(** ** The bucket and the prefix of an S3 location (lines 17-19) *)

Lemma split_cons (c : ascii) (s : string) :
  exists p ps, Str.split c s = p :: ps.
Proof.
  destruct s as [|a s]; simpl; [eauto|].
  destruct (Ascii.eqb a c); [eauto|].
  destruct (Str.split c s); eauto.
Qed.

(** Joining the pieces with the separator gives the string back. *)
Lemma join_split (c : ascii) (s : string) :
  Str.join (String c EmptyString) (Str.split c s) = s.
Proof.
  unfold Str.join. induction s as [|a s IH]; simpl; [reflexivity|].
  destruct (split_cons c s) as (p & ps & Hs). rewrite Hs in *.
  destruct (Ascii.eqb a c) eqn:Ha.
  - apply Ascii.eqb_eq in Ha. subst a.
    change (String.concat (String c EmptyString) (EmptyString :: p :: ps))
      with (String c (String.concat (String c EmptyString) (p :: ps))).
    now rewrite IH.
  - destruct ps as [|q ps]; simpl in *; now rewrite IH.
Qed.

(** The first piece of [b/rest] is [b] when [b] has no separator in it. *)
Lemma split_first (c : ascii) (b rest : string) :
  (forall a, In a (list_ascii_of_string b) -> a <> c) ->
  Str.split c (b ++ String c rest) = b :: Str.split c rest.
Proof.
  induction b as [|a b IH]; simpl; intros Hb.
  - now rewrite Ascii.eqb_refl.
  - rewrite IH by (intros x Hx; apply Hb; now right).
    destruct (Ascii.eqb a c) eqn:Ha; [|reflexivity].
    apply Ascii.eqb_eq in Ha. exfalso. apply (Hb a); auto.
Qed.

(** X11.  How [list_files] addresses S3: on [s3://<bucket>/<rest>] it opens
    the bucket called [<bucket>] with the credentials it was passed, lists
    the objects whose key starts with [<rest>], taken verbatim whatever
    slashes it holds, and returns each key behind [s3://], the bucket object
    formatted as a string, and a slash. *)
Theorem list_files_s3_addressing (E : environment) (b rest : string)
  (s3_creds_path : option string) :
  (forall a, In a (list_ascii_of_string b) -> a <> "/"%char) ->
  list_files E ("s3://" ++ b ++ "/" ++ rest) s3_creds_path =
  (bucket <- return_bucket E s3_creds_path b ;;
   objs <- objects_filter E bucket rest ;;
   Ok (map (fun key => ("s3://" ++ bucket_str bucket ++ "/" ++ key)%string)
         objs)).
Proof.
  intros Hb. unfold list_files.
  assert (Hs3 : Str.startswith "s3://" ("s3://" ++ b ++ "/" ++ rest) = true)
    by (destruct b; reflexivity).
  rewrite Hs3.
  change (Str.drop 5 ("s3://" ++ b ++ "/" ++ rest))
    with (b ++ String "/" rest)%string.
  rewrite (split_first _ _ Hb).
  cbn [hd tl]. now rewrite (join_split "/" rest).
Qed.

Lemma list_files_s3_addressing_witness :
  list_files Scenarios.s3_env "s3://fcp-indi/out/sub-1/file"
    (Some "/home/user/creds.csv"%string)
  = Ok ["s3://s3.Bucket(name='fcp-indi')/out/sub-1/file/file.txt"%string].
Proof.
  assert (Hb : forall a, In a (list_ascii_of_string "fcp-indi") ->
                         a <> "/"%char)
    by (simpl; intros a H; intuition (subst; discriminate)).
  exact (eq_trans
           (@list_files_s3_addressing Scenarios.s3_env "fcp-indi"
              "out/sub-1/file" (Some "/home/user/creds.csv"%string) Hb)
           eq_refl).
Defined.

(** ** The edges the trimmer keeps (lines 215-264) *)

Lemma remove_node_keeps_edge (g g' : digraph) (n : node) (e : edge) :
  remove_node g n = Ok g' ->
  In e (edges g) -> e_src e <> n -> e_dst e <> n -> In e (edges g').
Proof.
  intros Hrm He Hs Hd. apply remove_node_Ok in Hrm as (_ & _ & ->).
  apply filter_In. split; [assumption|].
  apply andb_true_iff. split; apply negb_true_iff; now apply node_eqb_neq.
Qed.

Lemma remove_nodes_keep_edge (deletions : list node) (e : edge) :
  forall g g',
    remove_nodes deletions g = Ok g' ->
    In e (edges g) ->
    ~ In (e_src e) deletions -> ~ In (e_dst e) deletions ->
    In e (edges g').
Proof.
  unfold remove_nodes.
  induction deletions as [|d ds IH]; intros g g' Hrun He Hs Hd;
    simpl in Hrun.
  - now injection Hrun as <-.
  - apply bind_Ok_inv in Hrun as (g1 & Hstep & Hrest).
    apply (IH g1 g' Hrest).
    + eapply remove_node_keeps_edge; eauto.
      * intros Heq. apply Hs. now left.
      * intros Heq. apply Hd. now left.
    + intros H. apply Hs. now right.
    + intros H. apply Hd. now right.
Qed.

Lemma set_connect_keeps (es : list edge) (u v : node) (c : list connection)
  (e : edge) :
  In e es -> e_src e <> u -> In e (set_connect es u v c).
Proof.
  intros He Hne. induction es as [|e0 es IH]; simpl; [easy|].
  destruct (node_eqb (e_src e0) u && node_eqb (e_dst e0) v) eqn:Hm.
  - destruct He as [->|He]; [|now right].
    apply andb_prop in Hm as [Hm _]. now apply node_eqb_eq in Hm.
  - destruct He as [->|He]; [now left|right; auto].
Qed.

Section KeptEdges.
Variable g0 : digraph.
Variable raw : replacements_t.
Variable s3_creds_path : option string.
Variable e : edge.
Hypothesis e_old : uid (e_src e) < fresh_uid g0.

Lemma rewire_connection_keeps_edge (replacement to_node : node)
  (cached_files : fields) (c : connection) (st st' : rewrite_state) :
  In (replacement, cached_files) raw ->
  In to_node (nodes (rs_graph st)) ->
  uid to_node < fresh_uid g0 ->
  rewired g0 raw s3_creds_path st ->
  rewire_connection s3_creds_path replacement cached_files to_node c st
  = Ok st' ->
  In e (edges (rs_graph st)) -> In e (edges (rs_graph st')).
Proof.
  intros Hitem Hto Hto_old Hinv Hrun He.
  assert (Hinv' : rewired g0 raw s3_creds_path st')
    by (eapply rewire_connection_rewired; eauto).
  destruct Hinv' as (_ & _ & _ & _ & _ & _ & _ & _ & Hinp & Hmap).
  destruct c as [ff tf]. unfold rewire_connection in Hrun.
  apply bind_Ok_inv in Hrun as (t1 & Ht1 & Hrun).
  set (mapping1 :=
         if PyDict.contains node_eqb replacement (rs_mapping st)
         then rs_mapping st
         else PyDict.set node_eqb replacement [] (rs_mapping st)) in *.
  assert (H1 : In e (edges (rs_graph t1))).
  { revert Ht1. destruct (field_in ff (get_or_empty replacement mapping1)).
    - intros [= <-]. exact He.
    - destruct (PyDict.get String.eqb ff cached_files); [|discriminate].
      intros [= <-]. cbn [rs_graph]. now rewrite edges_add_node. }
  revert Hrun Hinp Hmap.
  destruct (PyDict.get String.eqb ff
              (get_or_empty replacement (rs_mapping t1)))
    as [input_node|] eqn:Hget; [|discriminate].
  intros [= <-] Hinp Hmap. cbn [rs_graph rs_mapping rs_input_nodes] in *.
  unfold add_edge. cbn [edges]. rewrite !edges_add_node.
  apply set_connect_keeps; [assumption|]. intros Heq.
  apply (get_In String.eqb string_eqb_eq) in Hget.
  apply In_get_or_empty in Hget as (m & Hm & Hf).
  destruct (Hmap _ _ _ _ Hm Hf) as [Hin _].
  apply Hinp in Hin. rewrite <- Heq in Hin. lia.
Qed.

Lemma rewire_replacement_keeps_edge (item : node * fields)
  (st st' : rewrite_state) :
  In item raw ->
  rewired g0 raw s3_creds_path st ->
  rewire_replacement s3_creds_path item st = Ok st' ->
  e_src e <> fst item -> e_dst e <> fst item ->
  In e (edges (rs_graph st)) -> In e (edges (rs_graph st')).
Proof.
  intros Hitem Hinv Hrun Hs Hd He.
  destruct item as [replacement cached_files]. simpl in Hs, Hd.
  unfold rewire_replacement in Hrun.
  apply bind_Ok_inv in Hrun as (outs & Houts & Hrun).
  apply bind_Ok_inv in Hrun as (st1 & Hloop & Hrun).
  apply bind_Ok_inv in Hrun as (g1 & Hrm & Hrun).
  injection Hrun as <-. cbn [rs_graph].
  assert (Hto : forall to_node,
             In to_node outs ->
             In to_node (nodes (rs_graph st)) /\ uid to_node < fresh_uid g0)
    by (eapply successors_rewired; eauto).
  assert (H1 : (rewired g0 raw s3_creds_path st1 /\
                In e (edges (rs_graph st1))) /\
               forall x, In x (nodes (rs_graph st)) ->
                         In x (nodes (rs_graph st1))).
  { revert Hloop.
    apply (for_each_invariant
             (fun s => (rewired g0 raw s3_creds_path s /\
                        In e (edges (rs_graph s))) /\
                       forall x, In x (nodes (rs_graph st)) ->
                                 In x (nodes (rs_graph s)))); [|auto].
    intros to_node s s' Hin Hs0.
    apply (for_each_invariant
             (fun s => (rewired g0 raw s3_creds_path s /\
                        In e (edges (rs_graph s))) /\
                       forall x, In x (nodes (rs_graph st)) ->
                                 In x (nodes (rs_graph s)))); [|auto].
    intros c t t' _ [[Ht Het] Hmono] Hstep.
    destruct (Hto to_node Hin) as [Hnode Hto_old].
    assert (H : rewired g0 raw s3_creds_path t' /\
                forall x, In x (nodes (rs_graph t)) ->
                          In x (nodes (rs_graph t')))
      by (eapply rewire_connection_rewired; eauto).
    destruct H as [Ht' Hmono'].
    split; [split; [assumption|]|auto].
    eapply rewire_connection_keeps_edge;
      [exact Hitem|apply Hmono; exact Hnode|exact Hto_old|exact Ht
      |exact Hstep|exact Het]. }
  destruct H1 as [[_ He1] _].
  eapply remove_node_keeps_edge; eauto.
Qed.

End KeptEdges.

(** X12.  The trimmer keeps every edge between nodes it keeps: an edge of
    the execution graph neither end of which is on the deletion list or a
    producer of the validated map is an edge of the trimmed graph, with the
    field mappings it had. *)
Theorem trimmed_graph_keeps_edges_between_kept_nodes (E : environment)
  (depth : nat) (wf : workflow)
  (output_dir container s3_creds_path : option string)
  (wf_new : workflow) (mapping : mapping_t) (deletions : list node) :
  well_formed (generate_expanded_graph E (create_flat_graph E wf)) ->
  the_trimmer E depth wf output_dir container s3_creds_path
  = Ok (wf_new, (mapping, deletions)) ->
  exists validated deletions0,
    scan E (generate_expanded_graph E (create_flat_graph E wf))
      output_dir container = Ok (validated, deletions0) /\
    forall e,
      In e (edges (generate_expanded_graph E (create_flat_graph E wf))) ->
      ~ In (e_src e) deletions -> ~ In (e_dst e) deletions ->
      ~ In (e_src e) (PyDict.keys validated) ->
      ~ In (e_dst e) (PyDict.keys validated) ->
      In e (edges (wf_graph wf_new)).
Proof.
  intros Hwf Hrun. apply the_trimmer_Ok in Hrun as [Htrim _].
  set (g0 := generate_expanded_graph E (create_flat_graph E wf)) in *.
  apply trim_states in Htrim
    as (v & dels0 & g1 & st & Hscan & _ & _ & Hrm & Hrw & Hgc & -> & Hst
        & _ & _); [|assumption].
  exists v, dels0. split; [assumption|].
  intros e He Hsd Hdd Hsk Hdk.
  pose proof Hwf as (_ & _ & Hends). destruct (Hends e He) as [Hsrc Hdst].
  apply uid_lt_fresh in Hsrc, Hdst.
  assert (He1 : In e (edges g1)) by (eapply remove_nodes_keep_edge; eauto).
  assert (Hest : In e (edges (rs_graph st))).
  { assert (H : rewired g0 v s3_creds_path st /\ In e (edges (rs_graph st)));
      [|apply H].
    revert Hrw.
    apply (for_each_invariant
             (fun s => rewired g0 v s3_creds_path s /\
                       In e (edges (rs_graph s)))).
    - intros item s s' Hitem [Hs Hes] Hstep. split.
      + eapply rewire_replacement_rewired in Hstep; eauto. apply Hstep.
      + eapply rewire_replacement_keeps_edge;
          [exact Hsrc|exact Hitem|exact Hs|exact Hstep| | |exact Hes].
        * intros Heq. apply Hsk. rewrite Heq. now apply in_map.
        * intros Heq. apply Hdk. rewrite Heq. now apply in_map.
    - split; [eapply rewired_remove_nodes; eauto|assumption]. }
  destruct Hst as (_ & _ & _ & _ & _ & _ & _ & _ & Hinp & _).
  assert (Hloop : forall ns g g',
             (forall n, In n ns -> fresh_uid g0 <= uid n) ->
             for_each ns drop_unused_input g = Ok g' ->
             In e (edges g) -> In e (edges g')).
  { induction ns as [|n ns IH]; intros g g' Hns Hloop Heg; simpl in Hloop.
    - now injection Hloop as <-.
    - apply bind_Ok_inv in Hloop as (g2 & Hstep & Hrest).
      apply (IH g2 g'); [intros x Hx; apply Hns; now right|assumption|].
      assert (Hn : fresh_uid g0 <= uid n) by (apply Hns; now left).
      apply drop_unused_input_cases in Hstep as [[-> _]|Hstep];
        [assumption|].
      eapply remove_node_keeps_edge; eauto; intros Heq;
        rewrite Heq in *; lia. }
  apply (Hloop (rs_input_nodes st) (rs_graph st)); auto.
  intros n Hn. now apply Hinp.
Qed.

Lemma trimmed_graph_keeps_edges_between_kept_nodes_witness :
  exists wf_new mapping deletions,
    the_trimmer (Scenarios.local_env Scenarios.two_sinks_fs) 100
      (mkWorkflow "wf" Scenarios.diamond) None None None
    = Ok (wf_new, (mapping, deletions)) /\
    deletions = [Scenarios.Sink2; Scenarios.B2] /\
    In (Scenarios.B1, Scenarios.C1, [("out"%string, "in"%string)])
      (edges (wf_graph wf_new)).
Proof.
  eexists _, _, _. split; [vm_compute; reflexivity|].
  split; [reflexivity|].
  destruct (@trimmed_graph_keeps_edges_between_kept_nodes
              (Scenarios.local_env Scenarios.two_sinks_fs) 100
              (mkWorkflow "wf" Scenarios.diamond) None None None
              _ _ _ diamond_well_formed eq_refl)
    as (v & dels0 & Hscan & Hkeep).
  vm_compute in Hscan. injection Hscan as <- <-.
  apply Hkeep.
  - simpl. auto 10.
  - intros [H|[H|[]]]; discriminate H.
  - intros [H|[H|[]]]; discriminate H.
  - intros [H|[]]; discriminate H.
  - intros [H|[]]; discriminate H.
Defined.

(** ** The consumers of a replaced producer (lines 222-258) *)

Lemma set_connect_new (es : list edge) (u v : node) (c : list connection) :
  In (u, v, c) (set_connect es u v c).
Proof.
  induction es as [|e0 es IH]; simpl; [now left|].
  destruct (node_eqb (e_src e0) u && node_eqb (e_dst e0) v); simpl; auto.
Qed.

Section Entries.
Variable s3_creds_path : option string.
Variable p : node.
Variable f : string.

Lemma rewire_connection_keeps_entry (replacement to_node : node)
  (cached_files : fields) (c : connection) (st st' : rewrite_state)
  (m : PyDict.t string node) (n : node) :
  rewire_connection s3_creds_path replacement cached_files to_node c st
  = Ok st' ->
  In (p, m) (rs_mapping st) -> In (f, n) m ->
  exists m', In (p, m') (rs_mapping st') /\ In (f, n) m'.
Proof.
  intros Hrun Hp Hf. destruct c as [from_field to_field].
  unfold rewire_connection in Hrun.
  apply bind_Ok_inv in Hrun as (st1 & Hst1 & Hrun).
  set (mapping1 :=
         if PyDict.contains node_eqb replacement (rs_mapping st)
         then rs_mapping st
         else PyDict.set node_eqb replacement [] (rs_mapping st)) in *.
  assert (Hsub : forall x, In x (rs_mapping st) -> In x mapping1).
  { intros x Hx. unfold mapping1, PyDict.contains.
    destruct (PyDict.get node_eqb replacement (rs_mapping st)) eqn:Hget;
      [assumption|].
    now apply (In_set_absent node_eqb node_eqb_eq). }
  assert (H1 : exists m', In (p, m') (rs_mapping st1) /\ In (f, n) m').
  { revert Hst1.
    destruct (field_in from_field (get_or_empty replacement mapping1)) eqn:Hfi.
    - intros [= <-]. simpl. eauto.
    - destruct (PyDict.get String.eqb from_field cached_files)
        as [file_path|]; [|discriminate].
      intros [= <-]. cbn [rs_mapping]. apply Hsub in Hp.
      apply (In_set_cases node_eqb node_eqb_eq)
        with (k := replacement)
             (v := PyDict.set String.eqb from_field
                     (set_hierarchy
                        (create_check_for_s3_node (rs_fresh st)
                           (name replacement ++ "_" ++ from_field ++ "_input")
                           file_path "other" s3_creds_path)
                        (hierarchy replacement))
                     (get_or_empty replacement mapping1))
        in Hp.
      destruct Hp as [Hin|[-> Hget]]; [eauto|].
      eexists. split; [apply (In_set_new node_eqb node_eqb_eq)|].
      apply (In_set_absent String.eqb string_eqb_eq).
      + unfold field_in, PyDict.contains in Hfi.
        destruct (PyDict.get String.eqb from_field
                    (get_or_empty replacement mapping1)); congruence.
      + unfold get_or_empty. now rewrite Hget. }
  revert Hrun.
  destruct (PyDict.get String.eqb from_field
              (get_or_empty replacement (rs_mapping st1)));
    [|discriminate].
  intros [= <-]. exact H1.
Qed.

End Entries.

(** ** Which input of a consumer an input node feeds (lines 230-256) *)

Lemma set_connect_keeps_other (es : list edge) (u v : node)
  (c : list connection) (e : edge) :
  In e es -> fst e <> (u, v) -> In e (set_connect es u v c).
Proof.
  intros He Hne. induction es as [|e0 es IH]; simpl; [easy|].
  destruct (node_eqb (e_src e0) u && node_eqb (e_dst e0) v) eqn:Hm.
  - destruct He as [->|He]; [|now right].
    now apply edge_matches in Hm.
  - destruct He as [->|He]; [now left|right; auto].
Qed.

Section Wired.
Variable g0 : digraph.
Variable raw : replacements_t.
Variable s3_creds_path : option string.

(** What one pass through lines 230-256 does to the mapping and to the
    edges. *)
Lemma rewire_connection_effect (replacement to_node : node)
  (cached_files : fields) (from_field to_field : string)
  (st st' : rewrite_state) :
  rewire_connection s3_creds_path replacement cached_files to_node
    (from_field, to_field) st = Ok st' ->
  (forall p f n,
      mapped (rs_mapping st) p f n -> mapped (rs_mapping st') p f n) /\
  (forall p f n,
      mapped (rs_mapping st') p f n ->
      mapped (rs_mapping st) p f n \/
      (p = replacement /\ f = from_field /\ uid n = rs_fresh st)) /\
  exists input_node,
    mapped (rs_mapping st') replacement from_field input_node /\
    edges (rs_graph st')
    = set_connect (edges (rs_graph st)) input_node to_node
        [("file"%string, to_field)].
Proof.
  intros Hrun. split; [|split].
  - intros p f n (m & Hm & Hf).
    eapply rewire_connection_keeps_entry; eauto.
  - unfold rewire_connection in Hrun.
    apply bind_Ok_inv in Hrun as (t1 & Ht1 & Hrun).
    set (mapping1 :=
           if PyDict.contains node_eqb replacement (rs_mapping st)
           then rs_mapping st
           else PyDict.set node_eqb replacement [] (rs_mapping st)) in *.
    assert (Hold : forall p f n, mapped mapping1 p f n ->
                                 mapped (rs_mapping st) p f n).
    { unfold mapping1. intros p f n (m & Hm & Hf).
      destruct (PyDict.contains node_eqb replacement (rs_mapping st));
        [exists m; auto|].
      apply (In_set node_eqb node_eqb_eq) in Hm as [[= -> ->]|Hm];
        [easy|exists m; auto]. }
    assert (H1 : forall p f n,
               mapped (rs_mapping t1) p f n ->
               mapped (rs_mapping st) p f n \/
               (p = replacement /\ f = from_field /\ uid n = rs_fresh st)).
    { revert Ht1.
      destruct (field_in from_field (get_or_empty replacement mapping1)).
      - intros [= <-] p f n Hp. left. now apply Hold.
      - destruct (PyDict.get String.eqb from_field cached_files);
          [|discriminate].
        intros [= <-] p f n (m & Hm & Hf). cbn [rs_mapping] in Hm.
        apply (In_set node_eqb node_eqb_eq) in Hm as [[= -> ->]|Hm].
        + apply (In_set String.eqb string_eqb_eq) in Hf as [[= -> ->]|Hf].
          * right. auto.
          * left. apply Hold. apply In_get_or_empty in Hf as (m0 & Hm0 & Hf).
            exists m0. auto.
        + left. apply Hold. exists m. auto. }
    revert Hrun.
    destruct (PyDict.get String.eqb from_field
                (get_or_empty replacement (rs_mapping t1)));
      [|discriminate].
    intros [= <-]. exact H1.
  - unfold rewire_connection in Hrun.
    apply bind_Ok_inv in Hrun as (t1 & Ht1 & Hrun).
    set (mapping1 :=
           if PyDict.contains node_eqb replacement (rs_mapping st)
           then rs_mapping st
           else PyDict.set node_eqb replacement [] (rs_mapping st)) in *.
    assert (H1 : edges (rs_graph t1) = edges (rs_graph st)).
    { revert Ht1.
      destruct (field_in from_field (get_or_empty replacement mapping1)).
      - now intros [= <-].
      - destruct (PyDict.get String.eqb from_field cached_files);
          [|discriminate].
        intros [= <-]. cbn [rs_graph]. apply edges_add_node. }
    revert Hrun.
    destruct (PyDict.get String.eqb from_field
                (get_or_empty replacement (rs_mapping t1)))
      as [input_node|] eqn:Hget; [|discriminate].
    intros [= <-]. exists input_node. cbn [rs_mapping rs_graph]. split.
    + apply (get_In String.eqb string_eqb_eq) in Hget.
      apply In_get_or_empty in Hget as (m & Hm & Hf). exists m. auto.
    + unfold add_edge. cbn [edges]. now rewrite !edges_add_node, H1.
Qed.

(** An input node is made once. *)
Lemma rewire_connection_injective (replacement to_node : node)
  (cached_files : fields) (c : connection) (st st' : rewrite_state) :
  rewired g0 raw s3_creds_path st ->
  mapping_injective (rs_mapping st) ->
  rewire_connection s3_creds_path replacement cached_files to_node c st
  = Ok st' ->
  mapping_injective (rs_mapping st').
Proof.
  intros (_ & _ & _ & _ & _ & _ & _ & _ & Hinp & Hmap) Hinj Hrun.
  destruct c as [ff tf].
  destruct (rewire_connection_effect _ _ _ _ _ _ Hrun) as (_ & Hnew & _).
  assert (Hlt : forall p f n, mapped (rs_mapping st) p f n ->
                              uid n < rs_fresh st).
  { intros p f n (m & Hm & Hf). destruct (Hmap _ _ _ _ Hm Hf) as [Hin _].
    now apply Hinp. }
  intros p f p' f' n Hp Hp'.
  destruct (Hnew _ _ _ Hp) as [Hold|(-> & -> & Hu)],
           (Hnew _ _ _ Hp') as [Hold'|(-> & -> & Hu')].
  - eapply Hinj; eauto.
  - apply Hlt in Hold. lia.
  - apply Hlt in Hold'. lia.
  - auto.
Qed.

Section Consumer.
Variables p t : node.
Variable f : string.

Lemma rewire_connection_wires (cached_files : fields) (to_field : string)
  (st st' : rewrite_state) :
  rewire_connection s3_creds_path p cached_files t (f, to_field) st
  = Ok st' ->
  wired p f t to_field st'.
Proof.
  intros Hrun.
  destruct (rewire_connection_effect _ _ _ _ _ _ Hrun)
    as (_ & _ & input_node & Hin & He).
  exists input_node. split; [assumption|]. rewrite He.
  apply set_connect_new.
Qed.

(** Another field, another consumer or another producer leaves the edge as
    it is. *)
Lemma rewire_connection_keeps_wired (replacement to_node : node)
  (cached_files : fields) (from_field to_field tf : string)
  (st st' : rewrite_state) :
  mapping_injective (rs_mapping st') ->
  rewire_connection s3_creds_path replacement cached_files to_node
    (from_field, to_field) st = Ok st' ->
  to_node <> t \/ replacement <> p \/ from_field <> f ->
  wired p f t tf st -> wired p f t tf st'.
Proof.
  intros Hinj Hrun Hother (n & Hn & He).
  destruct (rewire_connection_effect _ _ _ _ _ _ Hrun)
    as (Hkeep & _ & input_node & Hin & Hedges).
  exists n. split; [now apply Hkeep|]. rewrite Hedges.
  apply set_connect_keeps_other; [assumption|]. simpl. intros [= -> ->].
  destruct (Hinj _ _ _ _ _ (Hkeep _ _ _ Hn) Hin) as [-> ->].
  destruct Hother as [H|[H|H]]; now apply H.
Qed.

End Consumer.
End Wired.

Section WiredSteps.
Variable g0 : digraph.
Variable raw : replacements_t.
Variable s3_creds_path : option string.
Variables p t : node.
Variable f : string.

Lemma rewire_connection_step (replacement to_node : node)
  (cached_files : fields) (c : connection) (s s' : rewrite_state) :
  In (replacement, cached_files) raw ->
  In to_node (nodes (rs_graph s)) ->
  uid to_node < fresh_uid g0 ->
  rewired g0 raw s3_creds_path s /\ mapping_injective (rs_mapping s) ->
  rewire_connection s3_creds_path replacement cached_files to_node c s
  = Ok s' ->
  (rewired g0 raw s3_creds_path s' /\ mapping_injective (rs_mapping s')) /\
  forall x, In x (nodes (rs_graph s)) -> In x (nodes (rs_graph s')).
Proof.
  intros Hitem Hto Hold [Hs Hinj] Hstep.
  assert (H : rewired g0 raw s3_creds_path s' /\
              forall x, In x (nodes (rs_graph s)) ->
                        In x (nodes (rs_graph s')))
    by (eapply rewire_connection_rewired; eauto).
  destruct H as [Hs' Hmono]. split; [split; [assumption|]|assumption].
  eapply rewire_connection_injective; [exact Hs|exact Hinj|exact Hstep].
Qed.

Lemma wired_input_is_new (st : rewrite_state) (n : node) :
  rewired g0 raw s3_creds_path st ->
  mapped (rs_mapping st) p f n -> fresh_uid g0 <= uid n.
Proof.
  intros (_ & _ & _ & _ & _ & _ & _ & _ & Hinp & Hmap) (m & Hm & Hf).
  destruct (Hmap _ _ _ _ Hm Hf) as [Hin _]. now apply Hinp.
Qed.

(** The loop over the field mappings of the edge from [p] to [t]: the last
    mapping from [f] is the one the edge from the input node is left
    with. *)
Lemma consumer_loop_wires (cached_files : fields) :
  forall connect s s',
    In (p, cached_files) raw ->
    In t (nodes (rs_graph s)) ->
    uid t < fresh_uid g0 ->
    rewired g0 raw s3_creds_path s /\ mapping_injective (rs_mapping s) ->
    for_each connect (rewire_connection s3_creds_path p cached_files t) s
    = Ok s' ->
    ((rewired g0 raw s3_creds_path s' /\ mapping_injective (rs_mapping s')) /\
     forall x, In x (nodes (rs_graph s)) -> In x (nodes (rs_graph s'))) /\
    match last_to_field f connect with
    | Some to_field => wired p f t to_field s'
    | None => forall tf, wired p f t tf s -> wired p f t tf s'
    end.
Proof.
  induction connect as [|[ff tf] rest IH]; intros s s' Hitem Ht Hold Hs Hrun;
    cbn [for_each] in Hrun.
  - injection Hrun as <-. simpl. auto.
  - apply bind_Ok_inv in Hrun as (s1 & Hstep & Hrest).
    destruct (@rewire_connection_step _ _ _ _ _ _ Hitem Ht Hold Hs Hstep)
      as [Hs1 Hmono1].
    destruct (IH s1 s' Hitem (Hmono1 _ Ht) Hold Hs1 Hrest)
      as [[Hs' Hmono'] Hlast].
    split; [split; [assumption|auto]|]. simpl.
    destruct (last_to_field f rest) as [later|]; [exact Hlast|].
    destruct (String.eqb ff f) eqn:Hff.
    + apply String.eqb_eq in Hff. subst ff. apply Hlast.
      eapply rewire_connection_wires; eauto.
    + apply String.eqb_neq in Hff. intros tf0 Hw. apply Hlast.
      eapply rewire_connection_keeps_wired;
        [apply Hs1|exact Hstep|right; right; exact Hff|exact Hw].
Qed.

Lemma other_loop_keeps_wired (replacement to_node : node)
  (cached_files : fields) (connect : list connection) (tf : string)
  (s s' : rewrite_state) :
  In (replacement, cached_files) raw ->
  In to_node (nodes (rs_graph s)) ->
  uid to_node < fresh_uid g0 ->
  to_node <> t \/ replacement <> p ->
  rewired g0 raw s3_creds_path s /\ mapping_injective (rs_mapping s) ->
  for_each connect
    (rewire_connection s3_creds_path replacement cached_files to_node) s
  = Ok s' ->
  wired p f t tf s -> wired p f t tf s'.
Proof.
  intros Hitem Hto Hold Hother Hs Hrun Hw.
  assert (H : ((rewired g0 raw s3_creds_path s' /\
                mapping_injective (rs_mapping s')) /\
               forall x, In x (nodes (rs_graph s)) ->
                         In x (nodes (rs_graph s'))) /\
              wired p f t tf s'); [|apply H].
  revert Hrun.
  apply (for_each_invariant
           (fun u => ((rewired g0 raw s3_creds_path u /\
                       mapping_injective (rs_mapping u)) /\
                      forall x, In x (nodes (rs_graph s)) ->
                                In x (nodes (rs_graph u))) /\
                     wired p f t tf u)); [|auto].
  intros [ff tf'] u u' _ [[Hu Hmono] Hwu] Hstep.
  destruct (@rewire_connection_step _ _ _ _ _ _ Hitem (Hmono _ Hto) Hold Hu Hstep)
    as [Hu' Hmono'].
  split; [split; [assumption|auto]|].
  eapply rewire_connection_keeps_wired;
    [apply Hu'|exact Hstep| |exact Hwu].
  destruct Hother as [H|H]; auto.
Qed.

Lemma rewire_replacement_injective (item : node * fields)
  (st st' : rewrite_state) :
  In item raw ->
  rewired g0 raw s3_creds_path st ->
  mapping_injective (rs_mapping st) ->
  rewire_replacement s3_creds_path item st = Ok st' ->
  mapping_injective (rs_mapping st').
Proof.
  intros Hitem Hinv Hinj Hrun. destruct item as [replacement cached_files].
  unfold rewire_replacement in Hrun.
  apply bind_Ok_inv in Hrun as (outs & Houts & Hrun).
  apply bind_Ok_inv in Hrun as (st1 & Hloop & Hrun).
  apply bind_Ok_inv in Hrun as (g1 & Hrm & Hrun).
  injection Hrun as <-. cbn [rs_mapping].
  assert (Hto : forall to_node,
             In to_node outs ->
             In to_node (nodes (rs_graph st)) /\ uid to_node < fresh_uid g0)
    by (eapply successors_rewired; eauto).
  assert (H1 : (rewired g0 raw s3_creds_path st1 /\
                mapping_injective (rs_mapping st1)) /\
               forall x, In x (nodes (rs_graph st)) ->
                         In x (nodes (rs_graph st1))); [|apply H1].
  revert Hloop.
  apply (for_each_invariant
           (fun u => (rewired g0 raw s3_creds_path u /\
                      mapping_injective (rs_mapping u)) /\
                     forall x, In x (nodes (rs_graph st)) ->
                               In x (nodes (rs_graph u)))); [|auto].
  intros to_node s s' Hin Hs.
  apply (for_each_invariant
           (fun u => (rewired g0 raw s3_creds_path u /\
                      mapping_injective (rs_mapping u)) /\
                     forall x, In x (nodes (rs_graph st)) ->
                               In x (nodes (rs_graph u)))); [|auto].
  intros c u u' _ [Hu Hmono] Hstep.
  destruct (Hto to_node Hin) as [Hnode Hto_old].
  destruct (@rewire_connection_step _ _ _ _ _ _ Hitem (Hmono _ Hnode) Hto_old Hu
              Hstep) as [Hu' Hmono'].
  split; [assumption|auto].
Qed.

(** Rewiring another producer leaves the edge as it is. *)
Lemma rewire_replacement_keeps_wired (item : node * fields) (tf : string)
  (st st' : rewrite_state) :
  In item raw ->
  rewired g0 raw s3_creds_path st ->
  mapping_injective (rs_mapping st) ->
  uid (fst item) < fresh_uid g0 ->
  fst item <> t -> fst item <> p ->
  rewire_replacement s3_creds_path item st = Ok st' ->
  wired p f t tf st -> wired p f t tf st'.
Proof.
  intros Hitem Hinv Hinj Hold Hnt Hnp Hrun Hw.
  assert (Hinv' : rewired g0 raw s3_creds_path st')
    by (eapply rewire_replacement_rewired in Hrun; eauto; apply Hrun).
  destruct item as [replacement cached_files]. simpl in Hold, Hnt, Hnp.
  unfold rewire_replacement in Hrun.
  apply bind_Ok_inv in Hrun as (outs & Houts & Hrun).
  apply bind_Ok_inv in Hrun as (st1 & Hloop & Hrun).
  apply bind_Ok_inv in Hrun as (g1 & Hrm & Hrun).
  injection Hrun as <-.
  assert (Hto : forall to_node,
             In to_node outs ->
             In to_node (nodes (rs_graph st)) /\ uid to_node < fresh_uid g0)
    by (eapply successors_rewired; eauto).
  assert (H1 : ((rewired g0 raw s3_creds_path st1 /\
                 mapping_injective (rs_mapping st1)) /\
                forall x, In x (nodes (rs_graph st)) ->
                          In x (nodes (rs_graph st1))) /\
               wired p f t tf st1).
  { revert Hloop.
    apply (for_each_invariant
             (fun u => ((rewired g0 raw s3_creds_path u /\
                         mapping_injective (rs_mapping u)) /\
                        forall x, In x (nodes (rs_graph st)) ->
                                  In x (nodes (rs_graph u))) /\
                       wired p f t tf u)); [|auto].
    intros to_node s s' Hin Hs.
    apply (for_each_invariant
             (fun u => ((rewired g0 raw s3_creds_path u /\
                         mapping_injective (rs_mapping u)) /\
                        forall x, In x (nodes (rs_graph st)) ->
                                  In x (nodes (rs_graph u))) /\
                       wired p f t tf u)); [|auto].
    intros [ff tf'] u u' _ [[Hu Hmono] Hwu] Hstep.
    destruct (Hto to_node Hin) as [Hnode Hto_old].
    destruct (@rewire_connection_step _ _ _ _ _ _ Hitem (Hmono _ Hnode) Hto_old Hu
                Hstep) as [Hu' Hmono'].
    split; [split; [assumption|auto]|].
    eapply rewire_connection_keeps_wired;
      [apply Hu'|exact Hstep|right; left; exact Hnp|exact Hwu]. }
  destruct H1 as [_ (n & Hn & He)].
  exists n. cbn [rs_mapping rs_graph]. split; [assumption|].
  eapply remove_node_keeps_edge; [exact Hrm|exact He| |].
  - unfold e_src. simpl. intros ->.
    assert (Hnew : fresh_uid g0 <= uid replacement)
      by (eapply wired_input_is_new; [exact Hinv'|exact Hn]).
    lia.
  - unfold e_dst. simpl. auto.
Qed.

(** Lines 222-258 for the producer [p] and its consumer [t]. *)
Lemma rewire_replacement_wires (cached_files : fields)
  (connect : list connection) (to_field : string)
  (st st' : rewrite_state) :
  In (p, cached_files) raw ->
  rewired g0 raw s3_creds_path st ->
  mapping_injective (rs_mapping st) ->
  uid p < fresh_uid g0 ->
  p <> t ->
  In (p, t, connect) (edges (rs_graph st)) ->
  last_to_field f connect = Some to_field ->
  rewire_replacement s3_creds_path (p, cached_files) st = Ok st' ->
  wired p f t to_field st'.
Proof.
  intros Hitem Hinv Hinj Hold Hne He Hlast Hrun.
  assert (Hinv' : rewired g0 raw s3_creds_path st')
    by (eapply rewire_replacement_rewired in Hrun; eauto; apply Hrun).
  unfold rewire_replacement in Hrun.
  apply bind_Ok_inv in Hrun as (outs & Houts & Hrun).
  apply bind_Ok_inv in Hrun as (st1 & Hloop & Hrun).
  apply bind_Ok_inv in Hrun as (g1 & Hrm & Hrun).
  injection Hrun as <-.
  assert (Hto : forall to_node,
             In to_node outs ->
             In to_node (nodes (rs_graph st)) /\ uid to_node < fresh_uid g0)
    by (eapply successors_rewired; eauto).
  assert (Hdata : get_edge_data (rs_graph st) p t = connect).
  { destruct Hinv as (_ & (_ & Hpairs & _) & _).
    apply (connect_of_unique _ _ Hpairs He). }
  assert (Ht : In t outs).
  { unfold successors in Houts.
    destruct (has_node (rs_graph st) p); [|discriminate].
    injection Houts as <-. apply in_map_iff. exists (p, t).
    split; [reflexivity|]. unfold out_edges. apply in_map_iff.
    exists (p, t, connect). split; [reflexivity|].
    apply filter_In. split; [assumption|]. apply node_eqb_refl. }
  assert (Hinner : forall to_node u u',
             In to_node outs ->
             (rewired g0 raw s3_creds_path u /\
              mapping_injective (rs_mapping u)) /\
             (forall x, In x (nodes (rs_graph st)) ->
                        In x (nodes (rs_graph u))) ->
             for_each (get_edge_data (rs_graph st) p to_node)
               (rewire_connection s3_creds_path p cached_files to_node) u
             = Ok u' ->
             (rewired g0 raw s3_creds_path u' /\
              mapping_injective (rs_mapping u')) /\
             (forall x, In x (nodes (rs_graph st)) ->
                        In x (nodes (rs_graph u')))).
  { intros to_node u u' Hin Hu.
    apply (for_each_invariant
             (fun u => (rewired g0 raw s3_creds_path u /\
                        mapping_injective (rs_mapping u)) /\
                       forall x, In x (nodes (rs_graph st)) ->
                                 In x (nodes (rs_graph u)))); [|auto].
    intros c w w' _ [Hw Hmono] Hstep.
    destruct (Hto to_node Hin) as [Hnode Hto_old].
    destruct (@rewire_connection_step _ _ _ _ _ _ Hitem (Hmono _ Hnode) Hto_old Hw
                Hstep) as [Hw' Hmono'].
    split; [assumption|auto]. }
  assert (H1 : wired p f t to_field st1).
  { assert (H : ((rewired g0 raw s3_creds_path st1 /\
                  mapping_injective (rs_mapping st1)) /\
                 (forall x, In x (nodes (rs_graph st)) ->
                            In x (nodes (rs_graph st1)))) /\
                forall to_node, In to_node outs -> to_node = t ->
                                wired p f t to_field st1).
    { revert Hloop.
      apply (for_each_establishes_under
               (fun u => (rewired g0 raw s3_creds_path u /\
                          mapping_injective (rs_mapping u)) /\
                         (forall x, In x (nodes (rs_graph st)) ->
                                    In x (nodes (rs_graph u))))
               (fun to_node u => to_node = t -> wired p f t to_field u)
               outs
               (fun to_node st0 =>
                  for_each (get_edge_data (rs_graph st) p to_node)
                    (rewire_connection s3_creds_path p cached_files to_node)
                    st0)); [| |auto].
      - intros to_node u u' Hin Hu Hrun. split; [eapply Hinner; eauto|].
        intros ->. rewrite Hdata in Hrun. destruct Hu as [Hu Hmono].
        destruct (Hto t Hin) as [Hnode Hto_old].
        destruct (@consumer_loop_wires _ _ _ _ Hitem (Hmono _ Hnode) Hto_old Hu
                    Hrun) as [_ Hw].
        now rewrite Hlast in Hw.
      - intros x y u u' Hin [Hu Hmono] Hx Hrun ->.
        specialize (Hx eq_refl). destruct (Hto y Hin) as [Hnode Hto_old].
        destruct (node_eq_dec y t) as [->|Hyt].
        + rewrite Hdata in Hrun.
          destruct (@consumer_loop_wires _ _ _ _ Hitem (Hmono _ Hnode) Hto_old Hu
                      Hrun) as [_ Hw].
          now rewrite Hlast in Hw.
        + eapply other_loop_keeps_wired;
            [exact Hitem|apply Hmono; exact Hnode|exact Hto_old
            |left; exact Hyt|exact Hu|exact Hrun|exact Hx]. }
    destruct H as [_ H]. now apply (H t). }
  destruct H1 as (n & Hn & Hedge).
  exists n. cbn [rs_mapping rs_graph]. split; [assumption|].
  eapply remove_node_keeps_edge; [exact Hrm|exact Hedge| |].
  - unfold e_src. simpl. intros ->.
    assert (Hnew : fresh_uid g0 <= uid p)
      by (eapply wired_input_is_new; [exact Hinv'|exact Hn]).
    lia.
  - unfold e_dst. simpl. auto.
Qed.

Lemma drop_unused_input_keeps_wired (tf : string) (x : node)
  (st : rewrite_state) (g : digraph) :
  rewired g0 raw s3_creds_path st ->
  In x (rs_input_nodes st) ->
  uid t < fresh_uid g0 ->
  drop_unused_input x (rs_graph st) = Ok g ->
  wired p f t tf st ->
  wired p f t tf
    (mkRewrite g (rs_mapping st) (rs_input_nodes st) (rs_fresh st)).
Proof.
  intros (_ & _ & _ & _ & _ & _ & _ & _ & Hinp & _) Hx Ht Hrun
    (n & Hn & He).
  exists n. cbn [rs_mapping rs_graph]. split; [assumption|].
  unfold drop_unused_input in Hrun.
  apply bind_Ok_inv in Hrun as (outs & Houts & Hrun).
  destruct outs as [|o outs]; [|now injection Hrun as <-].
  eapply remove_node_keeps_edge; [exact Hrun|exact He| |].
  - unfold e_src. simpl. intros ->. unfold successors in Houts.
    destruct (has_node (rs_graph st) x); [|discriminate].
    injection Houts as Houts.
    assert (Hin : In t (map snd (out_edges (rs_graph st) x))).
    { apply in_map_iff. exists (x, t). split; [reflexivity|].
      unfold out_edges. apply in_map_iff.
      exists (x, t, [("file"%string, tf)]). split; [reflexivity|].
      apply filter_In. split; [assumption|]. apply node_eqb_refl. }
    rewrite Houts in Hin. contradiction.
  - unfold e_dst. simpl. intros ->. apply Hinp in Hx. lia.
Qed.

End WiredSteps.

(** X13.  Every surviving consumer of a replaced producer is fed by an
    input node, on the input its last field mapping names: for an edge of
    the execution graph from a producer of the validated map to a node that
    is neither deleted nor replaced, and for each output field [f] the edge
    carries, the trimmed graph has an edge to that node from the input node
    the returned mapping holds for [f]; that edge carries the one mapping
    from [file] to the destination of the last mapping from [f] on the
    original edge.  So when one output feeds two inputs of a node, only the
    input connected last is fed. *)
Theorem surviving_consumers_are_fed_by_input_nodes (E : environment)
  (depth : nat) (wf : workflow)
  (output_dir container s3_creds_path : option string)
  (wf_new : workflow) (mapping : mapping_t) (deletions : list node) :
  well_formed (generate_expanded_graph E (create_flat_graph E wf)) ->
  the_trimmer E depth wf output_dir container s3_creds_path
  = Ok (wf_new, (mapping, deletions)) ->
  exists validated deletions0,
    scan E (generate_expanded_graph E (create_flat_graph E wf))
      output_dir container = Ok (validated, deletions0) /\
    forall p t connect f to_field,
      In (p, t, connect)
        (edges (generate_expanded_graph E (create_flat_graph E wf))) ->
      In p (PyDict.keys validated) ->
      ~ In t deletions -> ~ In t (PyDict.keys validated) ->
      last_to_field f connect = Some to_field ->
      exists m n,
        In (p, m) mapping /\ In (f, n) m /\
        In (n, t, [("file"%string, to_field)]) (edges (wf_graph wf_new)).
Proof.
  intros Hwf Hrun. apply the_trimmer_Ok in Hrun as [Htrim _].
  set (g0 := generate_expanded_graph E (create_flat_graph E wf)) in *.
  apply trim_states in Htrim
    as (v & dels0 & g1 & st & Hscan & _ & _ & Hrm & Hrw & Hgc & -> & Hst
        & _ & _); [|assumption].
  exists v, dels0. split; [assumption|].
  intros p t connect f to_field He Hp Htd Htk Hlast.
  unfold PyDict.keys in Hp. apply in_map_iff in Hp as ([p' cf] & Hfst & Hp).
  simpl in Hfst. subst p'.
  assert (Hkeys : forall q cq, In (q, cq) v -> In q (nodes g0))
    by (eapply scan_keys_are_nodes; eauto).
  pose proof Hwf as (_ & _ & Hends).
  destruct (Hends _ He) as [Hpn Htn]. unfold e_src, e_dst in Hpn, Htn.
  simpl in Hpn, Htn. apply uid_lt_fresh in Hpn, Htn.
  assert (Hpd : ~ In p deletions).
  { change p with (fst (p, cf)).
    eapply rewiring_needs_its_producers; [exact Hrm|exact Hrw|exact Hp]. }
  assert (He1 : In (p, t, connect) (edges g1))
    by (eapply remove_nodes_keep_edge; eauto).
  assert (Hne : forall item, In item v -> fst item <> t).
  { intros item Hitem Heq. apply Htk. rewrite <- Heq.
    unfold PyDict.keys. now apply in_map. }
  assert (Hw : wired p f t to_field st).
  { assert (H : ((rewired g0 v s3_creds_path st /\
                  mapping_injective (rs_mapping st)) /\
                 (In (p, t, connect) (edges (rs_graph st)) \/
                  rewrite_inv p st)) /\
                forall item, In item v -> fst item = p ->
                             wired p f t to_field st).
    { revert Hrw.
      apply (for_each_establishes_under
               (fun s => (rewired g0 v s3_creds_path s /\
                          mapping_injective (rs_mapping s)) /\
                         (In (p, t, connect) (edges (rs_graph s)) \/
                          rewrite_inv p s))
               (fun (item : node * fields) s =>
                  fst item = p -> wired p f t to_field s)
               v (rewire_replacement s3_creds_path)).
      - intros [q cq] s s' Hitem [[Hs Hinj] Hcase] Hstep.
        pose proof Hstep as Hstep'.
        eapply rewire_replacement_rewired in Hstep' as (Hs' & Habs & _);
          eauto.
        simpl in Habs.
        assert (Hinj' : mapping_injective (rs_mapping s'))
          by (eapply rewire_replacement_injective;
              [exact Hitem|exact Hs|exact Hinj|exact Hstep]).
        destruct (node_eq_dec q p) as [->|Hqp].
        + split; [split; [split; assumption|right]|].
          * destruct (rewired_avoids p Hs' Hpn) as [Hlt Hav].
            split; [exact Habs|]. split; assumption.
          * intros _. destruct Hcase as [Hes|(Hgone & _)].
            -- eapply rewire_replacement_wires;
                 [exact Hitem|exact Hs|exact Hinj|exact Hpn|
                 |exact Hes|exact Hlast|exact Hstep].
               apply (Hne (p, cq) Hitem).
            -- exfalso. unfold rewire_replacement in Hstep.
               apply bind_Ok_inv in Hstep as (outs & Houts & _).
               unfold successors in Houts.
               destruct (has_node (rs_graph s) p) eqn:Hn; [|discriminate].
               apply has_node_In in Hn. now apply Hgone.
        + split; [split; [split; assumption|]|simpl; congruence].
          destruct Hcase as [Hes|Hgone].
          * left.
            eapply rewire_replacement_keeps_edge
              with (e := (p, t, connect));
              [exact Hpn|exact Hitem|exact Hs|exact Hstep| | |exact Hes].
            -- unfold e_src. simpl. congruence.
            -- unfold e_dst. simpl. intros Heq.
               apply (Hne (q, cq) Hitem). simpl. congruence.
          * right. eapply rewire_replacement_inv; eauto.
      - intros x [q cq] s s' Hy [[Hs Hinj] Hcase] Hx Hstep Heq.
        specialize (Hx Heq).
        destruct (node_eq_dec q p) as [->|Hqp].
        + destruct Hcase as [Hes|(Hgone & _)].
          * eapply rewire_replacement_wires;
              [exact Hy|exact Hs|exact Hinj|exact Hpn|
              |exact Hes|exact Hlast|exact Hstep].
            apply (Hne (p, cq) Hy).
          * exfalso. unfold rewire_replacement in Hstep.
            apply bind_Ok_inv in Hstep as (outs & Houts & _).
            unfold successors in Houts.
            destruct (has_node (rs_graph s) p) eqn:Hn; [|discriminate].
            apply has_node_In in Hn. now apply Hgone.
        + eapply rewire_replacement_keeps_wired;
            [exact Hy|exact Hs|exact Hinj| |apply (Hne (q, cq) Hy)
            |exact Hqp|exact Hstep|exact Hx].
          apply uid_lt_fresh. eapply Hkeys; eauto.
      - split; [split|now left].
        + eapply rewired_remove_nodes; eauto.
        + intros a b a' b' n (m & [] & _). }
    destruct H as [_ H]. apply (H (p, cf) Hp eq_refl). }
  assert (Hfinal : rewired g0 v s3_creds_path
                     (mkRewrite (wf_graph wf_new) (rs_mapping st)
                        (rs_input_nodes st) (rs_fresh st)) /\
                   wired p f t to_field
                     (mkRewrite (wf_graph wf_new) (rs_mapping st)
                        (rs_input_nodes st) (rs_fresh st))).
  { revert Hgc.
    apply (for_each_invariant
             (fun g => rewired g0 v s3_creds_path
                         (mkRewrite g (rs_mapping st) (rs_input_nodes st)
                            (rs_fresh st)) /\
                       wired p f t to_field
                         (mkRewrite g (rs_mapping st) (rs_input_nodes st)
                            (rs_fresh st)))).
    - intros x g g2 Hx [Hg Hwg] Hstep. split.
      + apply drop_unused_input_rewired
          with (n := x)
               (st := mkRewrite g (rs_mapping st) (rs_input_nodes st)
                        (rs_fresh st)); assumption.
      + apply (@drop_unused_input_keeps_wired g0 v s3_creds_path p t f
                 to_field x
                 (mkRewrite g (rs_mapping st) (rs_input_nodes st)
                    (rs_fresh st)) g2); assumption.
    - destruct st; split; assumption. }
  destruct Hfinal as [_ (n & (m & Hm & Hf) & Hedge)].
  exists m, n. auto.
Qed.

Lemma double_feed_well_formed :
  well_formed
    (generate_expanded_graph (Scenarios.local_env Scenarios.two_sinks_fs)
       (create_flat_graph (Scenarios.local_env Scenarios.two_sinks_fs)
          (mkWorkflow "wf" Scenarios.double_feed))).
Proof.
  split; [|split].
  - repeat constructor; simpl; intuition discriminate.
  - repeat constructor; simpl; intuition discriminate.
  - intros e [<-|[<-|[<-|[]]]]; simpl; auto 10.
Qed.

Lemma surviving_consumers_are_fed_by_input_nodes_witness :
  exists wf_new mapping deletions m n,
    the_trimmer (Scenarios.local_env Scenarios.two_sinks_fs) 100
      (mkWorkflow "wf" Scenarios.double_feed) None None None
    = Ok (wf_new, (mapping, deletions)) /\
    In (Scenarios.P, m) mapping /\ In ("out"%string, n) m /\
    In (n, Scenarios.Consumer, [("file"%string, "reference"%string)])
      (edges (wf_graph wf_new)).
Proof.
  eexists _, _, _.
  destruct (@surviving_consumers_are_fed_by_input_nodes
              (Scenarios.local_env Scenarios.two_sinks_fs) 100
              (mkWorkflow "wf" Scenarios.double_feed) None None None
              _ _ _ double_feed_well_formed eq_refl)
    as (v & dels0 & Hscan & Hfed).
  vm_compute in Hscan. injection Hscan as <- <-.
  destruct (Hfed Scenarios.P Scenarios.Consumer
              [("out"%string, "in_file"%string);
               ("out"%string, "reference"%string)]
              "out"%string "reference"%string)
    as (m & n & Hm & Hf & He).
  - simpl. auto.
  - simpl. auto.
  - intros [H|[]]; discriminate H.
  - intros [H|[]]; discriminate H.
  - reflexivity.
  - exists m, n. split; [vm_compute; reflexivity|]. auto.
Defined.
